(** * Verification of [scripts/convert_icon.py]

    The script turns one source image into the icon set of a Tauri
    application: the picture is centred on a transparent 1024x1024 canvas,
    optionally clipped by a rounded-rectangle alpha mask, and written as
    [icon.png] plus five square sizes below [src-tauri/icons].

    The embedding follows the script statement by statement.  Python image
    objects are mutable and shared, so they live in a heap of locations;
    the file system and standard output are part of the same world, and an
    exception leaves the world as it was when it was raised.

    What the script calls in Pillow, [os] and [sys] is modelled as follows.
    - The pixel arithmetic that is exact on integers is written out:
      allocation, the 8-bit blend of [paste], [putalpha], [copy], the size
      and mode produced by [resize].
    - The size chosen by [thumbnail] and [int(s * 0.2)] are computed on
      IEEE 754 doubles, as Python computes them.
    - The Lanczos convolution and the rasteriser of rounded rectangles
      are floating-point code of the library; they are the two variables
      of the section, and every result holds for any choice of them.
    - The file system is a POSIX tree seen from the working directory.
      Its entries are named by plain relative paths, and a path names the
      entry filed under it: other spellings of a path ([./a], [a//b],
      [a/../b], an absolute path into the working directory) are not
      resolved, and links, permissions and full disks are not modelled.
    - A file is classified by what Pillow does with it: it decodes to an
      image, is identified but refused or unreadable, or is not
      identified at all. *)

From Stdlib Require Import ZArith QArith Qround Qabs List Ascii String Lia.
From Stdlib Require Import Floats.SpecFloat.
From stdpp Require Import base gmap strings list fin_maps pretty.

Local Open Scope Z_scope.

(** ** Python floats (IEEE 754 binary64) *)

Module PyFloat.

Definition prec : Z := 53.
Definition emax : Z := 1024.

(** [float(z)] for a Python [int]. *)
Definition of_int (z : Z) : spec_float := binary_normalize prec emax z 0 false.

Definition mul : spec_float -> spec_float -> spec_float := SFmul prec emax.
Definition div : spec_float -> spec_float -> spec_float := SFdiv prec emax.

(** The literal [0.2]: the double nearest to one fifth,
    [0x1.999999999999ap-3]. *)
Definition lit_0_2 : spec_float := S754_finite false 7205759403792794 (-55).

Definition sub : spec_float -> spec_float -> spec_float := SFsub prec emax.
Definition abs : spec_float -> spec_float := SFabs.

(** [f1 < f2] and [f1 <= f2]; both are false when a NaN is compared. *)
Definition ltb : spec_float -> spec_float -> bool := SFltb.
Definition leb : spec_float -> spec_float -> bool := SFleb.

(** [a / b] for two Python [int]s.  Python rounds the exact quotient;
    below [2 ^ 53], where [float] is exact, that is the quotient of the
    two doubles.  (For [b = 0] Python raises [ZeroDivisionError]; the
    quotient of doubles is then infinite or NaN.) *)
Definition true_div (a b : Z) : spec_float := div (of_int a) (of_int b).

(** [math.floor(f)] and [math.ceil(f)] of a finite double, with [0]
    standing for the exception raised on infinities and NaN. *)
Definition floor (f : spec_float) : Z :=
  match f with
  | S754_finite s m e =>
      let n := if s then Z.neg m else Z.pos m in
      if 0 <=? e then n * 2 ^ e else n / 2 ^ (- e)
  | _ => 0
  end.

Definition ceil (f : spec_float) : Z := - floor (SFopp f).

(** [int(f)] truncates towards zero; it raises on infinities and NaN,
    which is [None] here. *)
Definition to_int (f : spec_float) : option Z :=
  match f with
  | S754_zero _ => Some 0
  | S754_finite s m e =>
      let a := if 0 <=? e then Z.pos m * 2 ^ e else Z.pos m / 2 ^ (- e) in
      Some (if s then - a else a)
  | S754_infinity _ | S754_nan => None
  end.

End PyFloat.

(** ** Doubles as integers

    What the proofs about doubles are stated in.  [pack_double s M e] is
    the double of value [M * 2 ^ e] for a mantissa [M] of 53 bits, or
    [2 ^ 53] after a carry; [round_quotient n d] is [n / d] rounded to
    the nearest integer, ties to even; [normal_double f s m e] says that
    [f] is the double of sign [s], 53-bit mantissa [m] and exponent [e]. *)

Definition pack_double (s : bool) (m e : Z) : spec_float :=
  if m =? 2 ^ 53 then S754_finite s (Z.to_pos (2 ^ 52)) (e + 1)
  else S754_finite s (Z.to_pos m) e.

(** One shift to the right: the mantissa is halved, the bit shifted out
    and what was already lost give the new location. *)
Definition halved_location (m : Z) (l : location) : location :=
  match Z.odd m, l with
  | false, loc_Exact => loc_Exact
  | false, _ => loc_Inexact Lt
  | true, loc_Exact => loc_Inexact Eq
  | true, _ => loc_Inexact Gt
  end.

Definition remainder_location (d r : Z) : location :=
  if r =? 0 then loc_Exact else loc_Inexact (2 * r ?= d).

Definition round_quotient (n d : Z) : Z :=
  round_nearest_even (n / d) (remainder_location d (n mod d)).

Definition normal_double (f : spec_float) (s : bool) (m e : Z) : Prop :=
  exists p, f = S754_finite s p e /\ Z.pos p = m /\ Z.pos (digits2_pos p) = 53.

(** ** Images *)

(** A pixel carries the four 8-bit bands of Pillow's 32-bit storage.  A
    single-band ([L]) image keeps its value in [px_r]. *)
Record Pixel := mkPixel { px_r : Z; px_g : Z; px_b : Z; px_a : Z }.

Inductive Mode := ModeL | ModeLA | ModeRGB | ModeRGBA.

Record Image := mkImage {
  mode : Mode;
  width : Z;
  height : Z;
  getpixel : Z -> Z -> Pixel
}.

Definition im_size (im : Image) : Z * Z := (width im, height im).

(** The colour [0] of an [L] image and the colour [(0, 0, 0, 0)] of an
    [RGBA] image. *)
Definition gray (v : Z) : Pixel := mkPixel v v v 255.
Definition transparent : Pixel := mkPixel 0 0 0 0.

Definition in_box (x0 y0 w h x y : Z) : bool :=
  (x0 <=? x) && (x <? x0 + w) && (y0 <=? y) && (y <? y0 + h).

Module Pillow.

(** [Image.new(mode, size, color)] *)
Definition new (m : Mode) (sz : Z * Z) (color : Pixel) : Image :=
  mkImage m (fst sz) (snd sz) (fun _ _ => color).

(** [im.convert('RGBA')] on the modes of the model: a missing alpha band
    becomes fully opaque, a gray level is spread over the colour bands. *)
Definition convert_pixel (from : Mode) (p : Pixel) : Pixel :=
  match from with
  | ModeL => mkPixel (px_r p) (px_r p) (px_r p) 255
  | ModeLA => mkPixel (px_r p) (px_r p) (px_r p) (px_a p)
  | ModeRGB => mkPixel (px_r p) (px_g p) (px_b p) 255
  | ModeRGBA => p
  end.

Definition convert_RGBA (im : Image) : Image :=
  mkImage ModeRGBA (width im) (height im)
          (fun x y => convert_pixel (mode im) (getpixel im x y)).

(** [DIV255] and [BLEND8] of Pillow's [ImagingUtils.h]. *)
Definition DIV255 (a : Z) : Z :=
  let tmp := a + 128 in Z.shiftr (Z.shiftr tmp 8 + tmp) 8.

Definition BLEND8 (mask in1 in2 : Z) : Z :=
  DIV255 (in1 * (255 - mask) + in2 * mask).

Definition blend_pixel (mask : Z) (out inp : Pixel) : Pixel :=
  mkPixel (BLEND8 mask (px_r out) (px_r inp))
          (BLEND8 mask (px_g out) (px_g inp))
          (BLEND8 mask (px_b out) (px_b inp))
          (BLEND8 mask (px_a out) (px_a inp)).

(** The band of a mask image that [paste] and [putalpha] read: the
    alpha band when there is one, the gray level otherwise. *)
Definition mask_band (m : Mode) (p : Pixel) : Z :=
  match m with
  | ModeL | ModeRGB => px_r p
  | ModeLA | ModeRGBA => px_a p
  end.

(** [dst.paste(im, (x0, y0), mask)]: inside the box of [im] every band
    of the destination is blended with the source by the mask. *)
Definition paste (dst im : Image) (box : Z * Z) (mask : Image) : Image :=
  let '(x0, y0) := box in
  mkImage (mode dst) (width dst) (height dst)
    (fun x y =>
       if in_box x0 y0 (width im) (height im) x y
       then blend_pixel (mask_band (mode mask) (getpixel mask (x - x0) (y - y0)))
                        (getpixel dst x y) (getpixel im (x - x0) (y - y0))
       else getpixel dst x y).

(** [im.putalpha(mask)]: the alpha band is replaced by the mask; an
    image without alpha band is converted first. *)
Definition putalpha_mode (m : Mode) : Mode :=
  match m with
  | ModeL | ModeLA => ModeLA
  | ModeRGB | ModeRGBA => ModeRGBA
  end.

Definition putalpha (im mask : Image) : Image :=
  mkImage (putalpha_mode (mode im)) (width im) (height im)
    (fun x y =>
       let p := getpixel im x y in
       mkPixel (px_r p) (px_g p) (px_b p) (px_r (getpixel mask x y))).

(** The size chosen by [Image.thumbnail] (Pillow 7 and later, which
    [ImageDraw.rounded_rectangle] requires).  [min(lo, hi, key=key)]
    returns [hi] only when its key is strictly smaller. *)
Definition round_aspect (number : spec_float) (key : Z -> spec_float) : Z :=
  let lo := PyFloat.floor number in
  let hi := PyFloat.ceil number in
  Z.max (if PyFloat.ltb (key hi) (key lo) then hi else lo) 1.

Definition preserve_aspect_ratio (sz : Z * Z) (w h : Z) : option (Z * Z) :=
  let '(x, y) := sz in
  if (x >=? w) && (y >=? h) then None
  else
    let aspect := PyFloat.true_div w h in
    if PyFloat.leb aspect (PyFloat.true_div x y)
    then Some (round_aspect (PyFloat.mul (PyFloat.of_int y) aspect)
                 (fun n => PyFloat.abs (PyFloat.sub aspect (PyFloat.true_div n y))), y)
    else Some (x, round_aspect (PyFloat.div (PyFloat.of_int x) aspect)
                 (fun n => if n =? 0 then PyFloat.of_int 0
                           else PyFloat.abs (PyFloat.sub aspect (PyFloat.true_div x n)))).

End Pillow.

(** ** The world: object heap, file system, standard output *)

Inductive Format := PNG | OtherFormat (name : string).

(** Why the pixel data of an identified file cannot be read: the data
    stream is truncated or broken, or a chunk of the file is. *)
Inductive LoadFault := BrokenStream | BrokenChunk.

(** What a regular file holds, by what Pillow does with it:
    - [ImageFile]: [Image.open] accepts the file and its data loads; [im]
      is the image it decodes to;
    - [DamagedFile]: a loader identifies the file from its header, but
      reading the pixel data fails;
    - [OversizedFile]: the header announces more than twice
      [Image.MAX_IMAGE_PIXELS] pixels, and [Image.open] refuses the file;
    - [OpaqueFile]: bytes that no loader identifies. *)
Inductive FileData :=
  | ImageFile (fmt : Format) (im : Image)
  | DamagedFile (fmt : Format) (fault : LoadFault)
  | OversizedFile (fmt : Format)
  | OpaqueFile.

Inductive FsEvent :=
  | EvMkdir (path : string)
  | EvWrite (path : string) (data : FileData).

(** Paths are keys relative to the working directory; [journal] records
    every change made to the file system, oldest first. *)
Record FileSystem := mkFS {
  dirs : gset string;
  files : gmap string FileData;
  journal : list FsEvent
}.

Record World := mkWorld {
  heap : gmap positive Image;
  fs : FileSystem;
  stdout : list string
}.

Inductive Exn :=
  | SystemExit (code : Z)
  | FileExistsError
  | FileNotFoundError
  | NotADirectoryError
  | IsADirectoryError
  | UnidentifiedImageError
  | OSError
  | SyntaxError
  | DecompressionBombError
  | OverflowError
  | ReferenceError.

Definition is_OSError (e : Exn) : bool :=
  match e with
  | FileExistsError | FileNotFoundError | NotADirectoryError
  | IsADirectoryError | UnidentifiedImageError | OSError => true
  | _ => false
  end.

(** What [load] raises on a damaged file: [OSError] for a truncated or
    broken data stream, [SyntaxError] for a broken chunk. *)
Definition load_error (fault : LoadFault) : Exn :=
  match fault with
  | BrokenStream => OSError
  | BrokenChunk => SyntaxError
  end.

(** The object [Image.open] returns: one whose data will load, as the
    heap location of the image, or one whose data will not, as the
    exception [load] will raise. *)
Inductive Opened :=
  | Sound (l : positive)
  | Faulty (e : Exn).

Inductive Result (A : Type) :=
  | Ok (a : A)
  | Raise (e : Exn).
Arguments Ok {A} a.
Arguments Raise {A} e.

(** A statement transforms the world and either yields a value or raises. *)
Definition M (A : Type) : Type := World -> World * Result A.

Definition ret {A} (a : A) : M A := fun w => (w, Ok a).

Definition raise {A} (e : Exn) : M A := fun w => (w, Raise e).

Definition bind {A B} (m : M A) (k : A -> M B) : M B :=
  fun w =>
    match m w with
    | (w', Ok a) => k a w'
    | (w', Raise e) => (w', Raise e)
    end.

(** [try: m except <handles>: h] *)
Definition try_except {A} (m : M A) (handles : Exn -> bool) (h : Exn -> M A) : M A :=
  fun w =>
    match m w with
    | (w', Raise e) => if handles e then h e w' else (w', Raise e)
    | r => r
    end.

Declare Scope py_scope.
Delimit Scope py_scope with py.
Notation "x <- m ;; k" := (bind m (fun x => k))
  (at level 100, m at next level, right associativity) : py_scope.
Notation "m ;; k" := (bind m (fun _ => k))
  (at level 100, right associativity) : py_scope.
Local Open Scope py_scope.

(** [for x in xs: body x] *)
Fixpoint for_each {A} (xs : list A) (body : A -> M unit) : M unit :=
  match xs with
  | [] => ret tt
  | x :: rest => body x ;; for_each rest body
  end.

(** The status the interpreter exits with: [0] when [main] returns, the
    code of [sys.exit], and [1] after an uncaught exception. *)
Definition exit_status {A} (r : Result A) : Z :=
  match r with
  | Ok _ => 0
  | Raise (SystemExit c) => c
  | Raise _ => 1
  end.

(** *** Heap access *)

Definition set_heap (h : gmap positive Image) (w : World) : World :=
  mkWorld h (fs w) (stdout w).

Definition set_fs (f : FileSystem) (w : World) : World :=
  mkWorld (heap w) f (stdout w).

Definition alloc (im : Image) : M positive :=
  fun w =>
    let l := fresh (dom (heap w)) in
    (set_heap (<[l := im]> (heap w)) w, Ok l).

Definition deref (l : positive) : M Image :=
  fun w =>
    match heap w !! l with
    | Some im => (w, Ok im)
    | None => (w, Raise ReferenceError)
    end.

Definition assign (l : positive) (im : Image) : M unit :=
  fun w => (set_heap (<[l := im]> (heap w)) w, Ok tt).

(** *** [sys], [print], [int] *)

Definition print (line : string) : M unit :=
  fun w => (mkWorld (heap w) (fs w) (stdout w ++ [line]), Ok tt).

Definition sys_exit {A} (code : Z) : M A := raise (SystemExit code).

Definition py_int (f : spec_float) : M Z :=
  match PyFloat.to_int f with
  | Some z => ret z
  | None => raise OverflowError
  end.

(** *** [os.path] and [os] (POSIX) *)

Definition slash : ascii := "/"%char.

Definition is_slash (c : ascii) : bool := bool_decide (c = slash).

Fixpoint drop_slashes (cs : list ascii) : list ascii :=
  match cs with
  | c :: rest => if is_slash c then drop_slashes rest else cs
  | [] => []
  end.

(** Splits a reversed path at its first slash: the reversed tail and the
    reversed head, the slash included. *)
Fixpoint span_tail (cs : list ascii) : list ascii * list ascii :=
  match cs with
  | c :: rest =>
      if is_slash c then ([], cs)
      else let '(t, h) := span_tail rest in (c :: t, h)
  | [] => ([], [])
  end.

(** [os.path.split(p)]: the head loses its trailing slashes unless it
    consists of slashes only. *)
Definition os_path_split (p : string) : string * string :=
  let '(t, h) := span_tail (rev (list_ascii_of_string p)) in
  let h' := match drop_slashes h with [] => h | stripped => stripped end in
  (string_of_list_ascii (rev h'), string_of_list_ascii (rev t)).

Definition ends_with_slash (p : string) : bool :=
  match rev (list_ascii_of_string p) with
  | c :: _ => is_slash c
  | [] => false
  end.

Definition starts_with_slash (p : string) : bool :=
  match p with
  | String c _ => is_slash c
  | EmptyString => false
  end.

(** [os.path.join(a, b)] *)
Definition os_path_join (a b : string) : string :=
  if starts_with_slash b then b
  else if bool_decide (a = "") || ends_with_slash a then a +:+ b
  else a +:+ "/" +:+ b.

(** The components of a path, and the plain relative paths: those with
    no empty, [.] or [..] component, hence without a leading, doubled or
    trailing slash.  In a tree without links two plain paths name the
    same entry only when they are equal, and the entry filed under a
    plain path is the one the operating system resolves it to. *)
Fixpoint split_slash (cs : list ascii) : list (list ascii) :=
  match cs with
  | [] => [[]]
  | c :: rest =>
      if is_slash c then [] :: split_slash rest
      else match split_slash rest with
           | comp :: comps => (c :: comp) :: comps
           | [] => [[c]]
           end
  end.

Definition path_components (p : string) : list string :=
  map string_of_list_ascii (split_slash (list_ascii_of_string p)).

Definition plain_path (p : string) : bool :=
  forallb (fun c => negb (bool_decide (c = "") || bool_decide (c = ".")
                          || bool_decide (c = "..")))
          (path_components p).

Definition fs_isdir (f : FileSystem) (p : string) : bool := bool_decide (p ∈ dirs f).

Definition fs_isfile (f : FileSystem) (p : string) : bool :=
  bool_decide (is_Some (files f !! p)).

Definition fs_exists (f : FileSystem) (p : string) : bool :=
  fs_isdir f p || fs_isfile f p.

(** [os.path.exists] and [os.path.isdir] look at the entry filed under
    the path as it is written. *)
Definition os_path_exists (p : string) : M bool := fun w => (w, Ok (fs_exists (fs w) p)).

Definition os_path_isdir (p : string) : M bool := fun w => (w, Ok (fs_isdir (fs w) p)).

(** The directory an entry is created in must exist; the empty head
    (the working directory) and the root always do. *)
Definition parent_ok (f : FileSystem) (p : string) : bool :=
  let parent := fst (os_path_split p) in
  bool_decide (parent = "") || bool_decide (parent = "/") || fs_isdir f parent.

Definition parent_error (f : FileSystem) (p : string) : option Exn :=
  if parent_ok f p then None
  else if fs_isfile f (fst (os_path_split p)) then Some NotADirectoryError
  else Some FileNotFoundError.

(** Whether path [p] can be opened for writing. *)
Definition writable (f : FileSystem) (p : string) : bool :=
  negb (fs_isdir f p) && parent_ok f p.

(** The file system after directory [p] was created, and after [data]
    was written to path [p]. *)
Definition made_dir (f : FileSystem) (p : string) : FileSystem :=
  mkFS ({[p]} ∪ dirs f) (files f) (journal f ++ [EvMkdir p]).

Definition written (f : FileSystem) (p : string) (data : FileData) : FileSystem :=
  mkFS (dirs f) (<[p := data]> (files f)) (journal f ++ [EvWrite p data]).

(** [os.mkdir(p)] *)
Definition os_mkdir (p : string) : M unit :=
  fun w =>
    let f := fs w in
    if fs_exists f p then (w, Raise FileExistsError)
    else match parent_error f p with
         | Some e => (w, Raise e)
         | None => (set_fs (made_dir f p) w, Ok tt)
         end.

(** [os.makedirs(name, exist_ok=True)]; the recursion on the head is
    bounded by [fuel], which the caller sets to the length of the path. *)
Fixpoint makedirs (fuel : nat) (name : string) : M unit :=
  let '(head, tail) := os_path_split name in
  let '(head, tail) := if bool_decide (tail = "") then os_path_split head else (head, tail) in
  head_exists <- os_path_exists head ;;
  stop <-
    (if negb (bool_decide (head = "")) && negb (bool_decide (tail = "")) && negb head_exists
     then
       match fuel with
       | O => ret tt
       | S fuel' =>
           try_except (makedirs fuel' head)
                      (fun e => match e with FileExistsError => true | _ => false end)
                      (fun _ => ret tt)
       end ;;
       ret (bool_decide (tail = "."))
     else ret false) ;;
  if (stop : bool) then ret tt
  else
    try_except (os_mkdir name) is_OSError
               (fun e => isdir <- os_path_isdir name ;;
                         if (isdir : bool) then ret tt else raise e).

Definition os_makedirs (name : string) : M unit := makedirs (String.length name) name.

(** Opening a path for writing and storing [data] in it. *)
Definition write_file (p : string) (data : FileData) : M unit :=
  fun w =>
    let f := fs w in
    if fs_isdir f p then (w, Raise IsADirectoryError)
    else match parent_error f p with
         | Some e => (w, Raise e)
         | None => (set_fs (written f p data) w, Ok tt)
         end.

(** The paths the script builds, and the file system once the missing
    ones among [src-tauri] and [src-tauri/icons] are directories. *)
Definition out_dir : string := os_path_join "src-tauri" "icons".
Definition icon_path : string := os_path_join out_dir "icon.png".
Definition sized_path (s : Z) : string :=
  os_path_join out_dir (pretty s +:+ "x" +:+ pretty s +:+ ".png").

Definition mkdir_missing (f : FileSystem) (p : string) : FileSystem :=
  if fs_exists f p then f else made_dir f p.

Definition with_out_dir (f : FileSystem) : FileSystem :=
  mkdir_missing (mkdir_missing f "src-tauri") out_dir.

Definition write_all (outs : list (string * FileData)) (f : FileSystem) : FileSystem :=
  fold_left (fun f' out => written f' (fst out) (snd out)) outs f.

Definition output_paths : list string :=
  [ "src-tauri/icons/icon.png"; "src-tauri/icons/32x32.png";
    "src-tauri/icons/128x128.png"; "src-tauri/icons/256x256.png";
    "src-tauri/icons/512x512.png"; "src-tauri/icons/1024x1024.png" ].

(** Whether a loader decodes what path [p] holds. *)
Definition is_image (f : FileSystem) (p : string) : bool :=
  match files f !! p with
  | Some (ImageFile _ _) => true
  | _ => false
  end.

(** Whether the radius expression has a value: the explicit radius [r]
    is positive, or [int(edge * 0.2)] does not raise. *)
Definition radius_defined (r edge : Z) : bool :=
  (r >? 0)
  || bool_decide (is_Some (PyFloat.to_int (PyFloat.mul (PyFloat.of_int edge) PyFloat.lit_0_2))).

(** The radius the specification gives for an edge length:
    [round(0.2 * s)], the integer nearest to a fifth of [s] (a fifth of an
    integer is never halfway between two integers). *)
Definition claimed_radius (s : Z) : Z :=
  Qfloor (inject_Z s * (2 # 10) + (1 # 2)).

(** ** Sample data *)

(** A stand-in resampler (nearest neighbour), a stand-in rasteriser (a
    cross with square corners), a 2000x1000 opaque picture, and a world
    whose working directory holds it as [logo.jpg]. *)
Module Sample.

Definition nearest (gap : bool) (im : Image) (sz : Z * Z) (x y : Z) : Pixel :=
  getpixel im (x * width im / fst sz) (y * height im / snd sz).

Definition cross (box : Z * Z * Z * Z) (r x y : Z) : bool :=
  let '(x0, y0, x1, y1) := box in
  ((x0 + r <=? x) && (x <=? x1 - r)) || ((y0 + r <=? y) && (y <=? y1 - r)).

Definition photo : Image :=
  mkImage ModeRGB 2000 1000 (fun x y => mkPixel (x mod 256) (y mod 256) 7 255).

Definition sticker : Image :=
  mkImage ModeRGBA 300 200 (fun x y => mkPixel 10 20 30 (if x <? 150 then 255 else 0)).

Definition world : World :=
  mkWorld ∅
          (mkFS ∅ (<["sticker.png" := ImageFile PNG sticker]>
                     {[ "logo.jpg" := ImageFile (OtherFormat "JPEG") photo ]}) [])
          [].

(** The same directory with stale icons from an earlier build. *)
Definition stale_world : World :=
  mkWorld ∅
          (mkFS {[ "src-tauri"; "src-tauri/icons" ]}
                (<["src-tauri/icons/icon.png" := OpaqueFile]>
                   (<["src-tauri/icons/32x32.png" := ImageFile PNG sticker]>
                      {[ "logo.jpg" := ImageFile (OtherFormat "JPEG") photo ]})) [])
          ["building"].

End Sample.

(** ** The script *)

Record Args := mkArgs {
  src : string;
  rounded : bool;
  radius : Z
}.

Definition SIZES : list Z := [32; 128; 256; 512; 1024].

(** A file system in which a run goes through: the source is an image
    file, neither [src-tauri] nor [src-tauri/icons] is a regular file, and
    no output path is a directory. *)
Definition can_run (args : Args) (f : FileSystem) : bool :=
  negb (fs_isdir f (src args))
  && is_image f (src args)
  && negb (fs_isfile f "src-tauri")
  && negb (fs_isfile f out_dir)
  && forallb (fun p => negb (fs_isdir f p)) output_paths.

Section ConvertIcon.

(** [lanczos gap im size x y] is pixel [(x, y)] of [im] resampled to
    [size] with [Image.LANCZOS]; [gap] tells whether the call asked for
    a reducing gap, as [thumbnail] does. *)
Variable lanczos : bool -> Image -> Z * Z -> Z -> Z -> Pixel.

(** [rounded_rectangle_covers box r x y] tells whether
    [ImageDraw.rounded_rectangle(box, radius=r)] fills pixel [(x, y)]. *)
Variable rounded_rectangle_covers : Z * Z * Z * Z -> Z -> Z -> Z -> bool.

(** *** Pillow on heap objects *)

Definition Image_new (m : Mode) (sz : Z * Z) (color : Pixel) : M positive :=
  alloc (Pillow.new m sz color).

(** [Image.open(p)] identifies the file and reads its header; the pixel
    data is read by [load], which the first operation on the object
    calls.  Nothing in the script can tell when the data of a sound file
    is read, so the object of such a file is the heap location of its
    image from the start. *)
Definition Image_open (p : string) : M Opened :=
  fun w =>
    if fs_isdir (fs w) p then (w, Raise IsADirectoryError)
    else match files (fs w) !! p with
         | Some (ImageFile _ im) => (l <- alloc im ;; ret (Sound l)) w
         | Some (DamagedFile _ fault) => (w, Ok (Faulty (load_error fault)))
         | Some (OversizedFile _) => (w, Raise DecompressionBombError)
         | Some OpaqueFile => (w, Raise UnidentifiedImageError)
         | None => (w, Raise FileNotFoundError)
         end.

(** [im.load()], which [convert] calls first. *)
Definition Image_load (o : Opened) : M positive :=
  match o with
  | Sound l => ret l
  | Faulty e => raise e
  end.

Definition Image_convert_RGBA (o : Opened) : M positive :=
  l <- Image_load o ;;
  im <- deref l ;; alloc (Pillow.convert_RGBA im).

Definition Image_width (l : positive) : M Z := im <- deref l ;; ret (width im).
Definition Image_height (l : positive) : M Z := im <- deref l ;; ret (height im).
Definition Image_size (l : positive) : M (Z * Z) := im <- deref l ;; ret (im_size im).

Definition Image_copy (l : positive) : M positive := im <- deref l ;; alloc im.

Definition resampled (gap : bool) (im : Image) (sz : Z * Z) : Image :=
  mkImage (mode im) (fst sz) (snd sz) (lanczos gap im sz).

(** [im.resize(size, Image.LANCZOS)]: a new image, a plain copy when
    the size does not change. *)
Definition Image_resize (l : positive) (sz : Z * Z) : M positive :=
  im <- deref l ;;
  if bool_decide (im_size im = sz) then alloc im
  else alloc (resampled false im sz).

Definition thumbnail_image (im : Image) (sz : Z * Z) : Image :=
  match Pillow.preserve_aspect_ratio sz (width im) (height im) with
  | None => im
  | Some final_size =>
      if bool_decide (im_size im = final_size) then im
      else resampled true im final_size
  end.

(** [im.thumbnail(size, Image.LANCZOS)] changes the object in place. *)
Definition Image_thumbnail (l : positive) (sz : Z * Z) : M unit :=
  im <- deref l ;;
  match Pillow.preserve_aspect_ratio sz (width im) (height im) with
  | None => ret tt
  | Some final_size =>
      if bool_decide (im_size im = final_size) then ret tt
      else assign l (resampled true im final_size)
  end.

(** [dst.paste(im, box, mask)] changes [dst] in place. *)
Definition Image_paste (dst im : positive) (box : Z * Z) (mask : positive) : M unit :=
  d <- deref dst ;;
  i <- deref im ;;
  m <- deref mask ;;
  assign dst (Pillow.paste d i box m).

(** [im.putalpha(mask)] changes [im] in place. *)
Definition Image_putalpha (l mask : positive) : M unit :=
  im <- deref l ;;
  m <- deref mask ;;
  assign l (Pillow.putalpha im m).

(** [ImageDraw.Draw(im)]: the drawing handle paints on [im] itself. *)
Definition ImageDraw_Draw (l : positive) : M positive :=
  _ <- deref l ;; ret l.

Definition draw_rounded (im : Image) (box : Z * Z * Z * Z) (r : Z) (fill : Pixel) : Image :=
  mkImage (mode im) (width im) (height im)
    (fun x y => if rounded_rectangle_covers box r x y then fill else getpixel im x y).

(** [draw.rounded_rectangle(box, radius=r, fill=fill)] *)
Definition ImageDraw_rounded_rectangle
    (draw : positive) (box : Z * Z * Z * Z) (r : Z) (fill : Pixel) : M unit :=
  im <- deref draw ;;
  assign draw (draw_rounded im box r fill).

(** [im.save(path, 'PNG')] *)
Definition Image_save (l : positive) (path : string) (fmt : Format) : M unit :=
  im <- deref l ;;
  write_file path (ImageFile fmt im).

(** *** [apply_rounded] and [main] *)

Definition apply_rounded (im : positive) (r : Z) : M positive :=
  if r <=? 0 then ret im
  else
    sz <- Image_size im ;;
    mask <- Image_new ModeL sz (gray 0) ;;
    draw <- ImageDraw_Draw mask ;;
    ImageDraw_rounded_rectangle draw (0, 0, fst sz, snd sz) r (gray 255) ;;
    out <- Image_copy im ;;
    Image_putalpha out mask ;;
    ret out.

(** The expression [args.radius if args.radius > 0 else int(edge * 0.2)],
    which [main] evaluates for the canvas ([edge = base_size]) and for
    every size ([edge = s]). *)
Definition corner_radius (args : Args) (edge : Z) : M Z :=
  if radius args >? 0 then ret (radius args)
  else py_int (PyFloat.mul (PyFloat.of_int edge) PyFloat.lit_0_2).

Definition main (args : Args) : M unit :=
  let src_path := src args in
  found <- os_path_exists src_path ;;
  (if negb found
   then print ("Source not found: " +:+ src_path) ;; sys_exit 1
   else ret tt) ;;
  let out_dir := os_path_join "src-tauri" "icons" in
  os_makedirs out_dir ;;
  opened <- Image_open src_path ;;
  img <- Image_convert_RGBA opened ;;
  let base_size := 1024 in
  canvas <- Image_new ModeRGBA (base_size, base_size) (mkPixel 0 0 0 0) ;;
  Image_thumbnail img (base_size, base_size) ;;
  img_width <- Image_width img ;;
  img_height <- Image_height img ;;
  let x := (base_size - img_width) / 2 in
  let y := (base_size - img_height) / 2 in
  Image_paste canvas img (x, y) img ;;
  canvas <-
    (if rounded args
     then
       radius <- corner_radius args base_size ;;
       apply_rounded canvas radius
     else ret canvas) ;;
  Image_save canvas (os_path_join out_dir "icon.png") PNG ;;
  for_each SIZES (fun s =>
    resized <- Image_resize canvas (s, s) ;;
    resized <-
      (if rounded args
       then
         r <- corner_radius args s ;;
         apply_rounded resized r
       else ret resized) ;;
    Image_save resized (os_path_join out_dir (pretty s +:+ "x" +:+ pretty s +:+ ".png")) PNG) ;;
  print ("Wrote icons to " +:+ out_dir).

(** *** What a run computes, as functions on images *)

(** [int(edge * 0.2)], with [0] standing for the exception that no
    finite product raises. *)
Definition auto_radius (edge : Z) : Z :=
  default 0 (PyFloat.to_int (PyFloat.mul (PyFloat.of_int edge) PyFloat.lit_0_2)).

Definition radius_used (args : Args) (edge : Z) : Z :=
  if radius args >? 0 then radius args else auto_radius edge.

Definition rounded_mask (sz : Z * Z) (r : Z) : Image :=
  draw_rounded (Pillow.new ModeL sz (gray 0)) (0, 0, fst sz, snd sz) r (gray 255).

Definition rounded_image (im : Image) (r : Z) : Image :=
  if r <=? 0 then im else Pillow.putalpha im (rounded_mask (im_size im) r).

Definition centered (im : Image) : Image :=
  let thumb := thumbnail_image im (1024, 1024) in
  Pillow.paste (Pillow.new ModeRGBA (1024, 1024) (mkPixel 0 0 0 0)) thumb
               ((1024 - width thumb) / 2, (1024 - height thumb) / 2) thumb.

Definition resize_image (im : Image) (sz : Z * Z) : Image :=
  if bool_decide (im_size im = sz) then im else resampled false im sz.

Definition finished (args : Args) (edge : Z) (im : Image) : Image :=
  if rounded args then rounded_image im (radius_used args edge) else im.

Definition icon_image (args : Args) (source : Image) : Image :=
  finished args 1024 (centered (Pillow.convert_RGBA source)).

Definition sized_image (args : Args) (source : Image) (s : Z) : Image :=
  finished args s (resize_image (icon_image args source) (s, s)).

(** The files of the loop over [sizes], given the canvas it resizes. *)
Definition sized_outputs (args : Args) (canvas : Image) (sizes : list Z)
  : list (string * FileData) :=
  map (fun s => (sized_path s,
                 ImageFile PNG (finished args s (resize_image canvas (s, s))))) sizes.

Definition outputs (args : Args) (source : Image) : list (string * FileData) :=
  (icon_path, ImageFile PNG (icon_image args source))
  :: sized_outputs args (icon_image args source) SIZES.

Definition fs_after (args : Args) (source : Image) (f : FileSystem) : FileSystem :=
  write_all (outputs args source) (with_out_dir f).

(** ** The definitions on small inputs *)

Example lit_0_2_is_a_fifth :
  PyFloat.div (PyFloat.of_int 1) (PyFloat.of_int 5) = PyFloat.lit_0_2.
Proof. vm_compute. reflexivity. Qed.

Example int_of_products :
  map (fun s => PyFloat.to_int (PyFloat.mul (PyFloat.of_int s) PyFloat.lit_0_2))
      [5; 32; 128; 1024]
  = [Some 1; Some 6; Some 25; Some 204].
Proof. vm_compute. reflexivity. Qed.

Example paths_of_the_script :
  (out_dir, icon_path, sized_path 128)
  = ("src-tauri/icons", "src-tauri/icons/icon.png", "src-tauri/icons/128x128.png").
Proof. vm_compute. reflexivity. Qed.

Example plain_path_examples :
  map plain_path ["logo.jpg"; "art/logo.jpg"; "src-tauri/icons/icon.png";
                  "./logo.jpg"; "art//logo.jpg"; "art/../logo.jpg"; "/tmp/logo.jpg";
                  "art/"; ""]
  = [true; true; true; false; false; false; false; false; false].
Proof. vm_compute. reflexivity. Qed.

Example split_examples :
  map os_path_split ["src-tauri/icons"; "src-tauri"; "/a//b/"; "/"; "//x"]
  = [("src-tauri", "icons"); ("", "src-tauri"); ("/a//b", ""); ("/", ""); ("//", "x")].
Proof. vm_compute. reflexivity. Qed.

(** The last three sources are cases where two heights are equally
    close to the aspect ratio and the rounding of the doubles decides. *)
Example thumbnail_sizes :
  map (fun '(w, h) => Pillow.preserve_aspect_ratio (1024, 1024) w h)
      [(2000, 1000); (1000, 3000); (5000, 3); (1024, 700);
       (5128, 1605); (2816, 15); (3064, 573)]
  = [Some (1024, 512); Some (341, 1024); Some (1024, 1); None;
     Some (1024, 321); Some (1024, 6); Some (1024, 192)].
Proof. vm_compute. reflexivity. Qed.

Example floor_ceil_examples :
  let f := PyFloat.true_div 7 2 in
  (PyFloat.floor f, PyFloat.ceil f, PyFloat.floor (SFopp f), PyFloat.ceil (SFopp f),
   PyFloat.floor (PyFloat.of_int 5), PyFloat.ceil (PyFloat.of_int 5))
  = (3, 4, -4, -3, 5, 5).
Proof. vm_compute. reflexivity. Qed.

Example blend_examples :
  (Pillow.BLEND8 255 0 200, Pillow.BLEND8 0 0 200, Pillow.BLEND8 128 0 200) = (200, 0, 100).
Proof. vm_compute. reflexivity. Qed.

(** ** A weakest-precondition calculus for statements *)

Arguments with_out_dir : simpl never.
Arguments mkdir_missing : simpl never.
Arguments fs_after : simpl never.
Arguments centered : simpl never.
Arguments thumbnail_image : simpl never.
Arguments resize_image : simpl never.
Arguments finished : simpl never.

(** [wp m Q w]: running [m] in world [w] ends in a world and a result
    that satisfy [Q]. *)
Definition wp {A} (m : M A) (Q : World -> Result A -> Prop) (w : World) : Prop :=
  Q (fst (m w)) (snd (m w)).

Lemma wp_run {A} (m : M A) (Q : World -> Result A -> Prop) w w' r :
  wp m Q w -> m w = (w', r) -> Q w' r.
Proof. unfold wp. intros HQ Hrun. rewrite Hrun in HQ. exact HQ. Qed.

Lemma wp_elim {A} (m : M A) (Q : World -> Result A -> Prop) w :
  wp m Q w -> exists w' r, m w = (w', r) /\ Q w' r.
Proof. unfold wp. intros HQ. exists (fst (m w)), (snd (m w)). by destruct (m w). Qed.

Lemma wp_ret {A} (a : A) Q w : Q w (Ok a) -> wp (ret a) Q w.
Proof. auto. Qed.

Lemma wp_raise {A} e (Q : World -> Result A -> Prop) w :
  Q w (Raise e) -> wp (raise e) Q w.
Proof. auto. Qed.

Lemma wp_bind {A B} (m : M A) (k : A -> M B) Q w :
  wp m (fun w' r => match r with
                    | Ok a => wp (k a) Q w'
                    | Raise e => Q w' (Raise e)
                    end) w ->
  wp (bind m k) Q w.
Proof. unfold wp, bind. destruct (m w) as [w' [a | e]]; auto. Qed.

Lemma wp_alloc im Q w :
  (forall l, heap w !! l = None -> Q (set_heap (<[l := im]> (heap w)) w) (Ok l)) ->
  wp (alloc im) Q w.
Proof.
  intros HQ. apply HQ. apply (not_elem_of_dom (D := gset positive)), is_fresh.
Qed.

Lemma wp_deref l im Q w :
  heap w !! l = Some im -> Q w (Ok im) -> wp (deref l) Q w.
Proof. unfold wp, deref. intros ->. auto. Qed.

Lemma wp_assign l im Q w :
  Q (set_heap (<[l := im]> (heap w)) w) (Ok tt) -> wp (assign l im) Q w.
Proof. auto. Qed.

Lemma wp_print line Q w :
  Q (mkWorld (heap w) (fs w) (stdout w ++ [line])) (Ok tt) -> wp (print line) Q w.
Proof. auto. Qed.

(** Symbolic execution: [world_simpl] projects the fields of the world
    built so far, [heap_lookup] reads a location through the updates made
    so far, [wp_alloc_as] and [wp_read] run an allocation and a read. *)
Ltac world_simpl := cbn [heap fs stdout set_heap set_fs].

Ltac heap_lookup :=
  world_simpl;
  repeat first
    [ apply lookup_insert_eq
    | rewrite lookup_insert_ne by congruence
    | eassumption ].

Tactic Notation "wp_alloc_as" ident(l) ident(H) :=
  apply wp_alloc; intros l H; cbn [heap fs stdout set_heap set_fs] in H |- *.

Ltac wp_read :=
  eapply wp_deref; [ heap_lookup | world_simpl ].

Lemma fresh_ne (h : gmap positive Image) l l' im :
  h !! l = None -> h !! l' = Some im -> l <> l'.
Proof. congruence. Qed.

(** *** [apply_rounded] *)

Lemma wp_apply_rounded_id im r Q w :
  r <= 0 -> Q w (Ok im) -> wp (apply_rounded im r) Q w.
Proof.
  intros Hr HQ. unfold apply_rounded.
  destruct (Z.leb_spec r 0); [ | lia ]. by apply wp_ret.
Qed.

Lemma wp_apply_rounded_pos im I r Q w :
  heap w !! im = Some I ->
  0 < r ->
  (forall h' out,
      heap w !! out = None ->
      heap w ⊆ h' ->
      h' !! out = Some (rounded_image I r) ->
      Q (set_heap h' w) (Ok out)) ->
  wp (apply_rounded im r) Q w.
Proof.
  intros Him Hr HQ. unfold apply_rounded.
  destruct (Z.leb_spec r 0); [ lia | ].
  unfold Image_size, Image_new, ImageDraw_Draw, ImageDraw_rounded_rectangle,
    Image_copy, Image_putalpha.
  apply wp_bind, wp_bind. wp_read. apply wp_ret.
  apply wp_bind. wp_alloc_as lmask Hmask.
  pose proof (fresh_ne _ _ _ _ Hmask Him) as Hne.
  apply wp_bind, wp_bind. wp_read. apply wp_ret.
  apply wp_bind, wp_bind. wp_read. apply wp_assign. simpl.
  apply wp_bind, wp_bind. wp_read. wp_alloc_as out Hout.
  apply lookup_insert_None in Hout as [Hout Hne1].
  apply lookup_insert_None in Hout as [Hout Hne2].
  apply wp_bind, wp_bind. wp_read. apply wp_bind. wp_read.
  apply wp_assign. simpl. apply wp_ret.
  match goal with |- Q (set_heap ?h _) _ => specialize (HQ h out Hout) end.
  simpl in HQ. apply HQ.
  - rewrite !insert_insert_eq.
    etrans; [ | apply insert_subseteq; by rewrite lookup_insert_ne ].
    by apply insert_subseteq.
  - rewrite lookup_insert_eq. f_equal.
    unfold rounded_image. destruct (Z.leb_spec r 0); [ lia | ]. reflexivity.
Qed.

Lemma wp_corner_radius args edge Q w :
  (radius_defined (radius args) edge = false -> forall e, Q w (Raise e)) ->
  Q w (Ok (radius_used args edge)) ->
  wp (corner_radius args edge) Q w.
Proof.
  intros Hfail HQ.
  unfold corner_radius, radius_used, auto_radius, radius_defined, py_int in *.
  destruct (radius args >? 0); [ by apply wp_ret | ].
  destruct (PyFloat.to_int _); [ by apply wp_ret | ].
  apply wp_raise, Hfail. reflexivity.
Qed.

Lemma wp_finished args edge l I (Q : World -> Result positive -> Prop) w :
  heap w !! l = Some I ->
  (rounded args = true -> radius_defined (radius args) edge = false ->
   forall e, Q w (Raise e)) ->
  (forall h' out,
      heap w ⊆ h' ->
      h' !! out = Some (finished args edge I) ->
      Q (set_heap h' w) (Ok out)) ->
  wp (if rounded args
      then r <- corner_radius args edge ;; apply_rounded l r
      else ret l) Q w.
Proof.
  intros Hl Hfail HQ. unfold finished in HQ.
  assert (Hsame : set_heap (heap w) w = w) by (by destruct w).
  destruct (rounded args).
  - apply wp_bind, wp_corner_radius; [ auto | ].
    destruct (Z_le_gt_dec (radius_used args edge) 0) as [Hle | Hgt].
    + apply wp_apply_rounded_id; [ done | ].
      rewrite <- Hsame. apply HQ; [ done | ].
      unfold rounded_image. by destruct (Z.leb_spec (radius_used args edge) 0); [ | lia ].
    + eapply wp_apply_rounded_pos; [ done | lia | ]. intros h' out _. apply HQ.
  - apply wp_ret. rewrite <- Hsame. by apply HQ.
Qed.

Lemma wp_write_file p data (Q : World -> Result unit -> Prop) w :
  (writable (fs w) p = false -> forall e, Q w (Raise e)) ->
  (writable (fs w) p = true -> Q (set_fs (written (fs w) p data) w) (Ok tt)) ->
  wp (write_file p data) Q w.
Proof.
  intros Hfail HQ. unfold wp, write_file, writable, parent_error in *.
  destruct (fs_isdir (fs w) p); [ by apply Hfail | ].
  destruct (parent_ok (fs w) p); [ by apply HQ | ].
  destruct (fs_isfile (fs w) _); by apply Hfail.
Qed.

Lemma wp_Image_resize l I sz Q w :
  heap w !! l = Some I ->
  (forall out, heap w !! out = None ->
               Q (set_heap (<[out := resize_image I sz]> (heap w)) w) (Ok out)) ->
  wp (Image_resize l sz) Q w.
Proof.
  intros Hl HQ. unfold Image_resize, resize_image in *.
  apply wp_bind. wp_read.
  destruct (bool_decide (im_size I = sz)); by apply wp_alloc.
Qed.

(** *** The file system *)

Lemma fs_isdir_made_dir f p q :
  fs_isdir (made_dir f p) q = bool_decide (p = q) || fs_isdir f q.
Proof.
  unfold fs_isdir, made_dir. simpl.
  apply eq_true_iff_eq.
  rewrite orb_true_iff, !bool_decide_eq_true, elem_of_union, elem_of_singleton.
  intuition congruence.
Qed.

Lemma fs_isfile_made_dir f p q : fs_isfile (made_dir f p) q = fs_isfile f q.
Proof. reflexivity. Qed.

Lemma fs_isdir_written f p data q : fs_isdir (written f p data) q = fs_isdir f q.
Proof. reflexivity. Qed.

Lemma files_mkdir_missing f p : files (mkdir_missing f p) = files f.
Proof. unfold mkdir_missing. by destruct (fs_exists f p). Qed.

Lemma fs_isdir_mkdir_missing f p q :
  fs_isdir f q = true -> fs_isdir (mkdir_missing f p) q = true.
Proof.
  unfold mkdir_missing. destruct (fs_exists f p); [ done | ].
  rewrite fs_isdir_made_dir. intros ->. apply orb_true_r.
Qed.

Lemma wp_os_makedirs (Q : World -> Result unit -> Prop) w :
  (fs_isfile (fs w) "src-tauri" = true \/ fs_isfile (fs w) out_dir = true ->
   forall w' e, Q w' (Raise e)) ->
  (fs_isdir (with_out_dir (fs w)) out_dir = true ->
   Q (set_fs (with_out_dir (fs w)) w) (Ok tt)) ->
  wp (os_makedirs out_dir) Q w.
Proof.
  intros Hfail HQ.
  assert (Hsame : set_fs (fs w) w = w) by (by destruct w).
  unfold os_makedirs. change (String.length out_dir) with 15%nat.
  simpl makedirs.
  unfold with_out_dir, mkdir_missing in HQ.
  unfold wp, bind, try_except, os_path_exists, os_path_isdir, os_mkdir, ret, raise.
  simpl.
  destruct (fs_exists (fs w) "src-tauri") eqn:Hhead; simpl.
  - destruct (fs_exists (fs w) out_dir) eqn:Hname; simpl.
    + destruct (fs_isdir (fs w) out_dir) eqn:Hdir; simpl.
      * rewrite <- Hsame at 1. by apply HQ.
      * apply Hfail. right. unfold fs_exists in Hname. by rewrite Hdir in Hname.
    + unfold parent_error, parent_ok. change (fst (os_path_split out_dir)) with "src-tauri".
      simpl bool_decide. simpl orb.
      destruct (fs_isdir (fs w) "src-tauri") eqn:Hhd; simpl.
      * apply HQ. rewrite fs_isdir_made_dir. by rewrite bool_decide_eq_true_2.
      * unfold fs_exists in Hhead. rewrite Hhd in Hhead. simpl in Hhead.
        rewrite Hhead. simpl. rewrite fs_isdir_made_dir in *.
        unfold fs_exists in Hname. apply orb_false_elim in Hname as [-> _].
        simpl. apply Hfail. by left.
  - rewrite Hhead. simpl.
    unfold fs_exists in *. rewrite fs_isdir_made_dir, fs_isfile_made_dir in *.
    change (bool_decide ("src-tauri" = out_dir)) with false in *. simpl orb in *.
    destruct (fs_isdir (fs w) out_dir || fs_isfile (fs w) out_dir) eqn:Hname; simpl.
    + rewrite fs_isdir_made_dir.
      change (bool_decide ("src-tauri" = out_dir)) with false. simpl orb.
      destruct (fs_isdir (fs w) out_dir) eqn:Hdir; simpl.
      * apply HQ. rewrite fs_isdir_made_dir, Hdir. apply orb_true_r.
      * apply Hfail. by right.
    + unfold parent_error, parent_ok. change (fst (os_path_split out_dir)) with "src-tauri".
      rewrite fs_isdir_made_dir. rewrite (bool_decide_eq_true_2 _ eq_refl). simpl.
      apply HQ. rewrite fs_isdir_made_dir. by rewrite bool_decide_eq_true_2.
Qed.

(** *** The loop over [SIZES] *)

Lemma wp_for_sizes args canvas C sizes :
  forall (Q : World -> Result unit -> Prop) w,
    heap w !! canvas = Some C ->
    (forall w' e,
        (exists s, In s sizes /\
                   (writable (fs w) (sized_path s) = false \/
                    (rounded args = true /\ radius_defined (radius args) s = false))) ->
        Q w' (Raise e)) ->
    (forall h',
        heap w ⊆ h' ->
        Q (mkWorld h' (write_all (sized_outputs args C sizes) (fs w)) (stdout w)) (Ok tt)) ->
    wp (for_each sizes (fun s =>
          resized <- Image_resize canvas (s, s) ;;
          resized <-
            (if rounded args
             then r <- corner_radius args s ;; apply_rounded resized r
             else ret resized) ;;
          Image_save resized
            (os_path_join out_dir (pretty s +:+ "x" +:+ pretty s +:+ ".png")) PNG)) Q w.
Proof.
  induction sizes as [ | s sizes IH ]; intros Q w Hcanvas Hfail HQ.
  - simpl. apply wp_ret. specialize (HQ (heap w) (reflexivity _)).
    by destruct w.
  - simpl for_each. apply wp_bind, wp_bind.
    eapply wp_Image_resize; [ exact Hcanvas | ]. intros out Hout.
    apply wp_bind. eapply wp_finished; [ heap_lookup | | ].
    { intros Hrounded Hradius e. apply Hfail. exists s. split; [ by left | by right ]. }
    intros h' out' Hsub Hout'. world_simpl.
    unfold Image_save. apply wp_bind. wp_read.
    apply wp_write_file; world_simpl.
    { intros Hwrite e. apply Hfail. exists s. split; [ by left | by left ]. }
    intros _.
    assert (Hle : heap w ⊆ h').
    { etrans; [ | exact Hsub ]. by apply insert_subseteq. }
    apply IH; world_simpl.
    + eapply lookup_weaken; [ exact Hcanvas | exact Hle ].
    + intros w' e (s' & Hin & Hbad). apply Hfail. exists s'. split; [ by right | exact Hbad ].
    + intros h'' Hsub'. apply HQ. by etrans.
Qed.

(** *** [main] *)

Lemma wp_os_path_exists p Q w :
  Q w (Ok (fs_exists (fs w) p)) -> wp (os_path_exists p) Q w.
Proof. auto. Qed.

Lemma wp_Image_open p (Q : World -> Result Opened -> Prop) w :
  (fs_isdir (fs w) p = true \/ is_image (fs w) p = false ->
   forall e, Q w (Raise e) /\ Q w (Ok (Faulty e))) ->
  (forall fmt im l,
      fs_isdir (fs w) p = false ->
      files (fs w) !! p = Some (ImageFile fmt im) ->
      heap w !! l = None ->
      Q (set_heap (<[l := im]> (heap w)) w) (Ok (Sound l))) ->
  wp (Image_open p) Q w.
Proof.
  intros Hfail HQ. unfold wp, Image_open, is_image in *.
  destruct (fs_isdir (fs w) p) eqn:Hdir; [ apply Hfail; by left | ].
  destruct (files (fs w) !! p) as [ [ fmt im | fmt fault | fmt | ] | ] eqn:Hfile;
    try (apply Hfail; by right).
  apply (wp_bind (alloc im) (fun l => ret (Sound l)) Q w).
  apply wp_alloc. intros l Hl. apply wp_ret. by eapply HQ.
Qed.

(** [convert] on an object whose data does not load raises what [load]
    raises. *)
Lemma wp_convert_faulty {B} e (k : positive -> M B) Q w :
  Q w (Raise e) -> wp (bind (Image_convert_RGBA (Faulty e)) k) Q w.
Proof. auto. Qed.

Lemma wp_Image_thumbnail l I sz Q w :
  heap w !! l = Some I ->
  Q (set_heap (<[l := thumbnail_image I sz]> (heap w)) w) (Ok tt) ->
  wp (Image_thumbnail l sz) Q w.
Proof.
  intros Hl HQ. unfold Image_thumbnail, thumbnail_image in *.
  assert (Hsame : set_heap (<[l := I]> (heap w)) w = w).
  { rewrite insert_id by done. by destruct w. }
  apply wp_bind. wp_read.
  destruct (Pillow.preserve_aspect_ratio sz (width I) (height I)) as [ final_size | ].
  - destruct (bool_decide (im_size I = final_size)).
    + apply wp_ret. by rewrite <- Hsame.
    + by apply wp_assign.
  - apply wp_ret. by rewrite <- Hsame.
Qed.

Lemma auto_radius_sizes s :
  In s (1024 :: SIZES) ->
  PyFloat.to_int (PyFloat.mul (PyFloat.of_int s) PyFloat.lit_0_2) = Some (s / 5).
Proof.
  intros Hs. unfold SIZES in Hs. simpl in Hs.
  destruct Hs as [ <- | [ <- | [ <- | [ <- | [ <- | [ <- | [] ] ] ] ] ] ];
    vm_compute; reflexivity.
Qed.

Lemma fs_exists_made_dir_other f p q :
  p <> q -> fs_exists (made_dir f p) q = fs_exists f q.
Proof.
  intros Hne. unfold fs_exists. rewrite fs_isdir_made_dir, fs_isfile_made_dir.
  by rewrite bool_decide_eq_false_2.
Qed.

Lemma fs_isdir_with_out_dir f p :
  fs_isdir (with_out_dir f) p = true ->
  fs_isdir f p = true \/ p = "src-tauri" \/ p = "src-tauri/icons".
Proof.
  unfold with_out_dir, mkdir_missing. change out_dir with "src-tauri/icons".
  destruct (fs_exists f "src-tauri"), (fs_exists (_ : FileSystem) "src-tauri/icons");
    rewrite ?fs_isdir_made_dir, ?orb_true_iff, ?bool_decide_eq_true; intuition.
Qed.

Lemma fs_isdir_with_out_dir_head f :
  fs_isfile f "src-tauri" = false -> fs_isdir (with_out_dir f) "src-tauri" = true.
Proof.
  intros Hfile. unfold with_out_dir. apply fs_isdir_mkdir_missing.
  unfold mkdir_missing, fs_exists. rewrite Hfile, orb_false_r.
  destruct (fs_isdir f "src-tauri") eqn:Hdir; [ done | ].
  rewrite fs_isdir_made_dir. by rewrite bool_decide_eq_true_2.
Qed.

Lemma fs_isdir_with_out_dir_exists f p :
  fs_exists f p = true -> fs_isdir (with_out_dir f) p = true -> fs_isdir f p = true.
Proof.
  intros Hexists. unfold with_out_dir, mkdir_missing.
  change out_dir with "src-tauri/icons".
  destruct (fs_exists f "src-tauri") eqn:Hhead.
  - destruct (fs_exists f "src-tauri/icons") eqn:Hname; [ done | ].
    rewrite fs_isdir_made_dir. case_bool_decide as Heq; [ | done ].
    subst p. congruence.
  - rewrite fs_exists_made_dir_other by discriminate.
    destruct (fs_exists f "src-tauri/icons") eqn:Hname;
      rewrite !fs_isdir_made_dir;
      repeat (case_bool_decide; [ subst p; congruence | ]); done.
Qed.

Lemma is_image_with_out_dir f p : is_image (with_out_dir f) p = is_image f p.
Proof. unfold is_image, with_out_dir. by rewrite !files_mkdir_missing. Qed.

Lemma is_image_exists f p : is_image f p = true -> fs_exists f p = true.
Proof.
  unfold is_image, fs_exists, fs_isfile. intros Him.
  destruct (files f !! p) eqn:Hfile; [ | done ].
  rewrite bool_decide_eq_true_2 by eauto. apply orb_true_r.
Qed.

Lemma writable_written f p data q : writable (written f p data) q = writable f q.
Proof. reflexivity. Qed.

Lemma parent_of_output p : In p output_paths -> fst (os_path_split p) = "src-tauri/icons".
Proof.
  unfold output_paths. simpl.
  intros [ <- | [ <- | [ <- | [ <- | [ <- | [ <- | [] ] ] ] ] ] ]; reflexivity.
Qed.

Lemma sized_path_output s : In s SIZES -> In (sized_path s) output_paths.
Proof.
  unfold SIZES. simpl.
  intros [ <- | [ <- | [ <- | [ <- | [ <- | [] ] ] ] ] ]; vm_compute; tauto.
Qed.

Lemma radius_defined_sizes r s : In s (1024 :: SIZES) -> radius_defined r s = true.
Proof.
  intros Hs. unfold radius_defined. rewrite auto_radius_sizes by done.
  apply orb_true_r.
Qed.

(** What keeps a run from going through. *)
Lemma can_run_src_dir args f : fs_isdir f (src args) = true -> can_run args f = false.
Proof. unfold can_run. by intros ->. Qed.

Lemma can_run_not_image args f : is_image f (src args) = false -> can_run args f = false.
Proof. unfold can_run. intros ->. by rewrite andb_false_r. Qed.

Lemma can_run_file_in_the_way args f :
  fs_isfile f "src-tauri" = true \/ fs_isfile f out_dir = true -> can_run args f = false.
Proof.
  unfold can_run. intros [ -> | -> ]; cbn [negb]; by rewrite ?andb_false_r.
Qed.

Lemma can_run_output_dir args f p :
  In p output_paths -> fs_isdir f p = true -> can_run args f = false.
Proof.
  unfold can_run, output_paths. simpl.
  intros [ <- | [ <- | [ <- | [ <- | [ <- | [ <- | [] ] ] ] ] ] ] ->;
    cbn [negb andb]; by rewrite ?andb_false_r.
Qed.

Lemma unwritable_output args f p :
  In p output_paths ->
  fs_isdir (with_out_dir f) out_dir = true ->
  writable (with_out_dir f) p = false ->
  can_run args f = false.
Proof.
  intros Hp Hdir Hwrite. apply (can_run_output_dir args f p Hp).
  unfold writable, parent_ok in Hwrite. rewrite (parent_of_output p Hp) in Hwrite.
  change "src-tauri/icons" with out_dir in Hwrite. rewrite Hdir, orb_true_r, andb_true_r in Hwrite.
  apply negb_false_iff in Hwrite.
  destruct (fs_isdir_with_out_dir f p Hwrite) as [ Hold | [ -> | -> ] ]; [ done | | ];
    unfold output_paths in Hp; simpl in Hp;
    destruct Hp as [ Hp | [ Hp | [ Hp | [ Hp | [ Hp | [ Hp | [] ] ] ] ] ] ]; discriminate Hp.
Qed.

Lemma wp_main args (Q : World -> Result unit -> Prop) w :
  (can_run args (fs w) = false -> forall w' e, Q w' (Raise e)) ->
  (forall fmt source h',
      fs_exists (fs w) (src args) = true ->
      fs_isdir (with_out_dir (fs w)) (src args) = false ->
      files (fs w) !! src args = Some (ImageFile fmt source) ->
      fs_isdir (with_out_dir (fs w)) out_dir = true ->
      Q (mkWorld h' (fs_after args source (fs w))
                 (stdout w ++ ["Wrote icons to " +:+ out_dir])) (Ok tt)) ->
  wp (main args) Q w.
Proof.
  intros Hfail HQ. unfold main. cbv zeta.
  apply wp_bind, wp_os_path_exists.
  destruct (fs_exists (fs w) (src args)) eqn:Hfound; cbn [negb].
  2: { apply wp_bind, wp_bind, wp_print, wp_raise. apply Hfail, can_run_not_image.
       apply not_true_is_false. intros Him. apply is_image_exists in Him. congruence. }
  apply wp_bind, wp_ret.
  apply wp_bind, wp_os_makedirs.
  { intros Hfile. by apply Hfail, can_run_file_in_the_way. }
  intros Hdir.
  apply wp_bind, wp_Image_open; world_simpl.
  { intros Hbad e.
    assert (Hno : can_run args (fs w) = false).
    { destruct Hbad as [ Hsrcdir | Himage ].
      - by apply can_run_src_dir, fs_isdir_with_out_dir_exists.
      - apply can_run_not_image. by rewrite is_image_with_out_dir in Himage. }
    split; [ | apply wp_convert_faulty ]; by apply Hfail. }
  intros fmt source opened Hsrcdir Hfile Hopened.
  unfold with_out_dir in Hfile. rewrite !files_mkdir_missing in Hfile.
  unfold Image_convert_RGBA, Image_load. apply wp_bind, wp_bind, wp_ret, wp_bind. wp_read.
  wp_alloc_as img Himg. apply lookup_insert_None in Himg as [Himg Hne1].
  apply wp_bind. unfold Image_new. wp_alloc_as canvas Hcanvas.
  apply lookup_insert_None in Hcanvas as [Hcanvas Hne2].
  apply lookup_insert_None in Hcanvas as [Hcanvas Hne3].
  apply wp_bind. eapply wp_Image_thumbnail; [ heap_lookup | ]. world_simpl.
  unfold Image_width, Image_height.
  apply wp_bind, wp_bind. wp_read. apply wp_ret.
  apply wp_bind, wp_bind. wp_read. apply wp_ret.
  apply wp_bind. unfold Image_paste.
  apply wp_bind. wp_read. apply wp_bind. wp_read. apply wp_bind. wp_read.
  apply wp_assign. world_simpl.
  apply wp_bind. eapply wp_finished; [ heap_lookup | | ].
  { intros _ Hradius. rewrite radius_defined_sizes in Hradius by (by left). done. }
  intros h' out Hsub Hout. world_simpl.
  apply wp_bind. unfold Image_save. apply wp_bind. wp_read.
  apply wp_write_file; world_simpl.
  { intros Hwrite e. apply Hfail.
    apply (unwritable_output args (fs w) icon_path); [ | done | exact Hwrite ].
    vm_compute. tauto. }
  intros _.
  apply wp_bind. eapply wp_for_sizes; [ world_simpl; exact Hout | | ].
  { intros w' e (s & Hs & [ Hwrite | [ _ Hradius ] ]).
    - apply Hfail. cbn [heap fs stdout set_heap set_fs] in Hwrite.
      rewrite writable_written in Hwrite.
      by apply (unwritable_output args (fs w) (sized_path s)); [ apply sized_path_output | | ].
    - rewrite radius_defined_sizes in Hradius by (by right). done. }
  intros h'' Hsub'. world_simpl. apply wp_print. world_simpl.
  eapply HQ; eauto.
Qed.

(** A run of [main] that returns read a decodable source and left the
    file system [fs_after] describes. *)
Lemma main_returns args w w' :
  main args w = (w', Ok tt) ->
  exists fmt source,
    fs_exists (fs w) (src args) = true /\
    files (fs w) !! src args = Some (ImageFile fmt source) /\
    fs_isdir (with_out_dir (fs w)) out_dir = true /\
    fs w' = fs_after args source (fs w) /\
    stdout w' = stdout w ++ ["Wrote icons to " +:+ out_dir].
Proof.
  intros Hrun.
  refine (wp_run (main args) (fun w' r => r = Ok tt -> _) w w' (Ok tt) _ Hrun eq_refl).
  apply wp_main; [ discriminate | ].
  intros fmt source h' Hfound _ Hfile Hdir _. by exists fmt, source.
Qed.

(** In a file system that [can_run] accepts the run returns. *)
Lemma main_runs args w :
  can_run args (fs w) = true -> exists w', main args w = (w', Ok tt).
Proof.
  intros Hcan.
  destruct (wp_elim (main args) (fun _ r => r = Ok tt) w) as (w' & r & Hrun & ->).
  - apply wp_main; [ congruence | done ].
  - by exists w'.
Qed.

(** *** Output paths and what they hold afterwards *)


Lemma files_write_all outs f :
  files (write_all outs f) = fold_left (fun m out => <[fst out := snd out]> m) outs (files f).
Proof.
  revert f. induction outs as [ | out outs IH ]; intros f; [ done | ].
  simpl. unfold write_all in IH. by rewrite IH.
Qed.

Lemma dirs_write_all outs f : dirs (write_all outs f) = dirs f.
Proof.
  revert f. induction outs as [ | out outs IH ]; intros f; [ done | ].
  simpl. unfold write_all in IH. by rewrite IH.
Qed.

Lemma journal_write_all outs f :
  journal (write_all outs f)
  = journal f ++ map (fun out => EvWrite (fst out) (snd out)) outs.
Proof.
  revert f. induction outs as [ | out outs IH ]; intros f.
  - simpl. by rewrite app_nil_r.
  - simpl. unfold write_all in IH. rewrite IH. simpl. by rewrite <- app_assoc.
Qed.

Lemma files_with_out_dir f : files (with_out_dir f) = files f.
Proof. unfold with_out_dir. by rewrite !files_mkdir_missing. Qed.

Lemma files_fs_after_icon args source f :
  files (fs_after args source f) !! icon_path
  = Some (ImageFile PNG (icon_image args source)).
Proof.
  unfold fs_after. rewrite files_write_all. unfold outputs, sized_outputs.
  cbn [map fold_left SIZES fst snd].
  change icon_path with "src-tauri/icons/icon.png".
  change (sized_path 32) with "src-tauri/icons/32x32.png".
  change (sized_path 128) with "src-tauri/icons/128x128.png".
  change (sized_path 256) with "src-tauri/icons/256x256.png".
  change (sized_path 512) with "src-tauri/icons/512x512.png".
  change (sized_path 1024) with "src-tauri/icons/1024x1024.png".
  rewrite !lookup_insert_ne by discriminate. apply lookup_insert_eq.
Qed.

Lemma files_fs_after_sized args source f s :
  In s SIZES ->
  files (fs_after args source f) !! sized_path s
  = Some (ImageFile PNG (sized_image args source s)).
Proof.
  intros Hs. unfold fs_after. rewrite files_write_all. unfold outputs, sized_outputs.
  cbn [map fold_left SIZES fst snd].
  change icon_path with "src-tauri/icons/icon.png".
  change (sized_path 32) with "src-tauri/icons/32x32.png".
  change (sized_path 128) with "src-tauri/icons/128x128.png".
  change (sized_path 256) with "src-tauri/icons/256x256.png".
  change (sized_path 512) with "src-tauri/icons/512x512.png".
  change (sized_path 1024) with "src-tauri/icons/1024x1024.png".
  unfold SIZES in Hs. simpl in Hs.
  destruct Hs as [ <- | [ <- | [ <- | [ <- | [ <- | [] ] ] ] ] ].
  - change (sized_path 32) with "src-tauri/icons/32x32.png".
    rewrite !lookup_insert_ne by discriminate. apply lookup_insert_eq.
  - change (sized_path 128) with "src-tauri/icons/128x128.png".
    rewrite !lookup_insert_ne by discriminate. apply lookup_insert_eq.
  - change (sized_path 256) with "src-tauri/icons/256x256.png".
    rewrite !lookup_insert_ne by discriminate. apply lookup_insert_eq.
  - change (sized_path 512) with "src-tauri/icons/512x512.png".
    rewrite !lookup_insert_ne by discriminate. apply lookup_insert_eq.
  - change (sized_path 1024) with "src-tauri/icons/1024x1024.png".
    apply lookup_insert_eq.
Qed.

Lemma files_fs_after_other args source f p :
  ~ In p output_paths ->
  files (fs_after args source f) !! p = files f !! p.
Proof.
  intros Hp. unfold fs_after. rewrite files_write_all, files_with_out_dir.
  unfold outputs, sized_outputs.
  cbn [map fold_left SIZES fst snd].
  change icon_path with "src-tauri/icons/icon.png".
  change (sized_path 32) with "src-tauri/icons/32x32.png".
  change (sized_path 128) with "src-tauri/icons/128x128.png".
  change (sized_path 256) with "src-tauri/icons/256x256.png".
  change (sized_path 512) with "src-tauri/icons/512x512.png".
  change (sized_path 1024) with "src-tauri/icons/1024x1024.png".
  unfold output_paths in Hp. simpl in Hp.
  rewrite !lookup_insert_ne by (intros <-; tauto). reflexivity.
Qed.

(** *** The size chosen by [thumbnail]

    The operations of [SpecFloat] are unfolded on normal doubles, which
    gives the quotient of two integers below [2 ^ 31] (the sizes of a
    Pillow image are C [int]s) as a rounded integer quotient.  Floor and
    ceiling of the scaled side then lie between the floor and the
    ceiling of the exact proportional length. *)

Lemma digits2_pos_bounds p :
  2 ^ (Z.pos (digits2_pos p) - 1) <= Z.pos p < 2 ^ Z.pos (digits2_pos p).
Proof.
  induction p as [ p IH | p IH | ]; cbn [digits2_pos].
  - rewrite Pos2Z.inj_succ. replace (Z.succ (Z.pos (digits2_pos p)) - 1) with (Z.succ (Z.pos (digits2_pos p) - 1)) by lia.
    rewrite !Z.pow_succ_r by lia. lia.
  - rewrite Pos2Z.inj_succ. replace (Z.succ (Z.pos (digits2_pos p)) - 1) with (Z.succ (Z.pos (digits2_pos p) - 1)) by lia.
    rewrite !Z.pow_succ_r by lia. lia.
  - simpl. lia.
Qed.

Lemma digits2_pos_unique p d :
  2 ^ (d - 1) <= Z.pos p < 2 ^ d -> Z.pos (digits2_pos p) = d.
Proof.
  intros [Hlo Hhi]. pose proof (digits2_pos_bounds p) as [Blo Bhi].
  assert (0 < d).
  { destruct d as [ | d | d ]; [ simpl in Hhi; lia | lia | ].
    rewrite Z.pow_neg_r in Hhi by lia. lia. }
  destruct (Z.lt_trichotomy (Z.pos (digits2_pos p)) d) as [ Hlt | [ Heq | Hgt ] ]; [ | done | ].
  - assert (2 ^ Z.pos (digits2_pos p) <= 2 ^ (d - 1)) by (apply Z.pow_le_mono_r; lia). lia.
  - assert (2 ^ d <= 2 ^ (Z.pos (digits2_pos p) - 1)) by (apply Z.pow_le_mono_r; lia). lia.
Qed.

Lemma shr_fexp_53 m e l :
  Z.pos (digits2_pos m) = 53 -> -1074 <= e ->
  shr_fexp 53 1024 (Z.pos m) e l = (shr_record_of_loc (Z.pos m) l, e).
Proof.
  intros Hd He. unfold shr_fexp, Zdigits2, fexp, emin. rewrite Hd.
  replace (Z.max (53 + e - 53) (3 - 1024 - 53) - e) with 0 by lia. reflexivity.
Qed.

Lemma shr_fexp_54 m e l :
  Z.pos (digits2_pos m) = 54 -> -1075 <= e ->
  shr_fexp 53 1024 (Z.pos m) e l = (shr_1 (shr_record_of_loc (Z.pos m) l), e + 1).
Proof.
  intros Hd He. unfold shr_fexp, Zdigits2, fexp, emin. rewrite Hd.
  replace (Z.max (54 + e - 53) (3 - 1024 - 53) - e) with 1 by lia. reflexivity.
Qed.

Lemma loc_of_shr_record_of_loc m l : loc_of_shr_record (shr_record_of_loc m l) = l.
Proof. by destruct l as [ | [ | | ] ]. Qed.

Lemma shr_m_record_of_loc m l : shr_m (shr_record_of_loc m l) = m.
Proof. by destruct l as [ | [ | | ] ]. Qed.

Lemma round_nearest_even_cases m l :
  round_nearest_even m l = m \/ round_nearest_even m l = m + 1.
Proof. destruct l as [ | [ | | ] ]; simpl; auto. destruct (Z.even m); auto. Qed.

Lemma round_nearest_even_exact m : round_nearest_even m loc_Exact = m.
Proof. reflexivity. Qed.

(** The second rounding step of [binary_round_aux], on a mantissa
    that has at most one bit too many. *)
Lemma binary_round_finish s m1 e :
  2 ^ 52 <= m1 <= 2 ^ 53 -> -1074 <= e <= 970 ->
  (let '(mrs'', e'') := shr_fexp 53 1024 m1 e loc_Exact in
   match shr_m mrs'' with
   | Z0 => S754_zero s
   | Zpos m => if Z.leb e'' (Z.sub 1024 53) then S754_finite s m e'' else S754_infinity s
   | _ => S754_nan
   end) = pack_double s m1 e.
Proof.
  intros Hm He. unfold pack_double.
  destruct (Z.eqb_spec m1 (2 ^ 53)) as [ -> | Hne ].
  - change (2 ^ 53) with (Z.pos (xO (Z.to_pos (2 ^ 52)))).
    rewrite shr_fexp_54; [ | reflexivity | lia ].
    cbn [shr_record_of_loc shr_1 shr_m orb].
    destruct (Z.leb_spec (e + 1) (1024 - 53)); [ reflexivity | lia ].
  - destruct m1 as [ | p | p ]; try lia.
    rewrite shr_fexp_53; [ | apply digits2_pos_unique; lia | lia ].
    cbn [shr_record_of_loc shr_m].
    destruct (Z.leb_spec e (1024 - 53)); [ | lia ].
    by rewrite Pos2Z.id.
Qed.

Lemma binary_round_aux_53 s m e l :
  Z.pos (digits2_pos m) = 53 -> -1074 <= e <= 970 ->
  binary_round_aux 53 1024 s (Z.pos m) e l = pack_double s (round_nearest_even (Z.pos m) l) e.
Proof.
  intros Hd He. unfold binary_round_aux.
  rewrite shr_fexp_53 by (done || lia).
  rewrite loc_of_shr_record_of_loc, shr_m_record_of_loc.
  apply binary_round_finish; [ | done ].
  pose proof (digits2_pos_bounds m) as B. rewrite Hd in B.
  change (2 ^ (53 - 1)) with (2 ^ 52) in B.
  destruct (round_nearest_even_cases (Z.pos m) l) as [ -> | -> ]; lia.
Qed.

Lemma shr_1_record_of_loc m l :
  1 < Z.pos m ->
  shr_m (shr_1 (shr_record_of_loc (Z.pos m) l)) = Z.pos m / 2 /\
  loc_of_shr_record (shr_1 (shr_record_of_loc (Z.pos m) l)) = halved_location (Z.pos m) l.
Proof.
  intros Hm. destruct m as [ p | p | ]; [ | | lia ].
  - split.
    + destruct l as [ | [ | | ] ]; cbn [shr_record_of_loc shr_1 shr_m];
        rewrite Pos2Z.inj_xI; apply (Z.div_unique _ _ _ 1); lia.
    + by destruct l as [ | [ | | ] ].
  - split.
    + destruct l as [ | [ | | ] ]; cbn [shr_record_of_loc shr_1 shr_m];
        rewrite Pos2Z.inj_xO; apply (Z.div_unique _ _ _ 0); lia.
    + by destruct l as [ | [ | | ] ].
Qed.

Lemma binary_round_aux_54 s m e l :
  Z.pos (digits2_pos m) = 54 -> -1075 <= e <= 969 ->
  binary_round_aux 53 1024 s (Z.pos m) e l
  = pack_double s (round_nearest_even (Z.pos m / 2) (halved_location (Z.pos m) l)) (e + 1).
Proof.
  intros Hd He. unfold binary_round_aux.
  rewrite shr_fexp_54 by (done || lia).
  pose proof (digits2_pos_bounds m) as B. rewrite Hd in B.
  change (2 ^ (54 - 1)) with (2 ^ 53) in B.
  destruct (shr_1_record_of_loc m l ltac:(lia)) as [ -> -> ].
  apply binary_round_finish; [ | lia ].
  assert (2 ^ 52 <= Z.pos m / 2 < 2 ^ 53).
  { split; [ apply Z.div_le_lower_bound; lia | apply Z.div_lt_upper_bound; lia ]. }
  destruct (round_nearest_even_cases (Z.pos m / 2) (halved_location (Z.pos m) l)) as [ -> | -> ]; lia.
Qed.

Lemma new_location_spec d r : 0 <= r < d -> new_location d r = remainder_location d r.
Proof.
  intros Hr. unfold new_location, new_location_even, new_location_odd, remainder_location.
  destruct (Z.even d) eqn:Heven; [ done | ].
  destruct (Z.eqb_spec r 0); [ done | ].
  assert (Hodd : Z.odd d = true) by (rewrite <- Z.negb_even, Heven; done).
  apply Z.odd_spec in Hodd as [ c Hc ].
  destruct (Z.compare_spec (2 * r + 1) d), (Z.compare_spec (2 * r) d); try done; lia.
Qed.

Lemma halved_quotient n1 d :
  0 <= n1 -> 0 < d ->
  (2 * n1 / d) / 2 = n1 / d /\
  halved_location (2 * n1 / d) (remainder_location d ((2 * n1) mod d))
  = remainder_location d (n1 mod d).
Proof.
  intros Hn Hd.
  pose proof (Z.div_mod n1 d ltac:(lia)) as E1.
  pose proof (Z.mod_pos_bound n1 d Hd) as B1.
  set (q1 := n1 / d) in *. set (r1 := n1 mod d) in *.
  destruct (Z.ltb_spec (2 * r1) d) as [ Hlt | Hge ].
  - assert (Hq : 2 * n1 / d = 2 * q1) by (symmetry; apply (Z.div_unique _ _ _ (2 * r1)); lia).
    assert (Hr : (2 * n1) mod d = 2 * r1) by (symmetry; apply (Z.mod_unique _ _ (2 * q1)); lia).
    rewrite Hq, Hr. split.
    + rewrite Z.mul_comm. apply Z.div_mul. lia.
    + unfold halved_location, remainder_location.
      rewrite Z.odd_mul. cbn [Z.odd andb].
      destruct (Z.eqb_spec (2 * r1) 0), (Z.eqb_spec r1 0); try lia; [ done | ].
      destruct (Z.compare_spec (2 * r1) d); try lia. done.
  - assert (Hq : 2 * n1 / d = 2 * q1 + 1) by (symmetry; apply (Z.div_unique _ _ _ (2 * r1 - d)); lia).
    assert (Hr : (2 * n1) mod d = 2 * r1 - d) by (symmetry; apply (Z.mod_unique _ _ (2 * q1 + 1)); lia).
    rewrite Hq, Hr. split.
    + symmetry. apply (Z.div_unique _ _ _ 1); lia.
    + unfold halved_location, remainder_location.
      replace (Z.odd (2 * q1 + 1)) with true by (symmetry; rewrite Z.add_comm, Z.odd_add_mul_2; done).
      destruct (Z.eqb_spec (2 * r1 - d) 0), (Z.eqb_spec r1 0); try lia.
      * destruct (Z.compare_spec (2 * r1) d); try lia. done.
      * destruct (Z.compare_spec (2 * r1) d); try lia.
        destruct (Z.compare_spec (2 * (2 * r1 - d)) d); done.
Qed.

Lemma quotient_digits mx my :
  2 ^ 52 <= mx < 2 ^ 53 -> 2 ^ 52 <= my < 2 ^ 53 ->
  let q := mx * 2 ^ 53 / my in
  if mx <? my then 2 ^ 52 <= q < 2 ^ 53 else 2 ^ 53 <= q < 2 ^ 54.
Proof.
  intros Hx Hy q. subst q. destruct (Z.ltb_spec mx my).
  - split; [ apply Z.div_le_lower_bound; nia | apply Z.div_lt_upper_bound; nia ].
  - split; [ apply Z.div_le_lower_bound; nia | apply Z.div_lt_upper_bound; nia ].
Qed.

Lemma SFdiv_normal sx mx ex sy my ey :
  Z.pos (digits2_pos mx) = 53 -> Z.pos (digits2_pos my) = 53 ->
  -1021 <= ex - ey <= 1022 ->
  SFdiv 53 1024 (S754_finite sx mx ex) (S754_finite sy my ey)
  = if Z.pos mx <? Z.pos my
    then pack_double (xorb sx sy) (round_quotient (Z.pos mx * 2 ^ 53) (Z.pos my)) (ex - ey - 53)
    else pack_double (xorb sx sy) (round_quotient (Z.pos mx * 2 ^ 52) (Z.pos my)) (ex - ey - 52).
Proof.
  intros Hdx Hdy He.
  pose proof (digits2_pos_bounds mx) as Bx. rewrite Hdx in Bx.
  pose proof (digits2_pos_bounds my) as By. rewrite Hdy in By.
  change (2 ^ (53 - 1)) with (2 ^ 52) in *.
  unfold SFdiv, SFdiv_core_binary, Zdigits2, fexp, emin. rewrite Hdx, Hdy.
  replace (Z.min (Z.max (53 + ex - (53 + ey) - 53) (3 - 1024 - 53)) (ex - ey))
    with (ex - ey - 53) by lia.
  replace (ex - ey - (ex - ey - 53)) with 53 by lia.
  cbv iota. rewrite Z.shiftl_mul_pow2 by lia.
  pose proof (Z.mod_pos_bound (Z.pos mx * 2 ^ 53) (Z.pos my) ltac:(lia)) as Br.
  pose proof (quotient_digits (Z.pos mx) (Z.pos my) Bx By) as Hq. cbv zeta in Hq.
  unfold Z.div, Z.modulo in Br, Hq |- *.
  unfold round_quotient, Z.div, Z.modulo.
  destruct (Z.div_eucl (Z.pos mx * 2 ^ 53) (Z.pos my)) as [ q r ] eqn:Ediv.
  rewrite new_location_spec by done.
  destruct (Z.ltb_spec (Z.pos mx) (Z.pos my)) as [ Hlt | Hge ].
  - destruct q as [ | q | q ]; try lia.
    apply binary_round_aux_53; [ apply digits2_pos_unique; lia | lia ].
  - destruct q as [ | q | q ]; try lia.
    rewrite binary_round_aux_54; [ | apply digits2_pos_unique; lia | lia ].
    replace (ex - ey - 53 + 1) with (ex - ey - 52) by lia.
    pose proof (halved_quotient (Z.pos mx * 2 ^ 52) (Z.pos my) ltac:(lia) ltac:(lia)) as [ H1 H2 ].
    replace (2 * (Z.pos mx * 2 ^ 52)) with (Z.pos mx * 2 ^ 53) in H1, H2 by lia.
    unfold Z.div, Z.modulo in H1, H2. rewrite Ediv in H1, H2. cbn [fst snd] in H1, H2.
    fold (Z.div (Z.pos q) 2) in H1. rewrite H1 in *.
    f_equal. f_equal. exact H2.
Qed.


Lemma Pos_iter_xO p k : Z.pos (Pos.iter xO p k) = Z.pos p * 2 ^ Z.pos k.
Proof.
  induction k as [ | k IH ] using Pos.peano_ind.
  - simpl. lia.
  - rewrite Pos.iter_succ, Pos2Z.inj_xO, IH, Pos2Z.inj_succ, Z.pow_succ_r by lia. lia.
Qed.

Lemma of_int_normal z d :
  1 <= d <= 53 -> 2 ^ (d - 1) <= z < 2 ^ d ->
  PyFloat.of_int z = S754_finite false (Z.to_pos (z * 2 ^ (53 - d))) (d - 53).
Proof.
  intros Hd Hz.
  assert (0 < 2 ^ (d - 1)) by (apply Z.pow_pos_nonneg; lia).
  destruct z as [ | p | p ]; try lia.
  pose proof (digits2_pos_unique p d Hz) as Hdig.
  unfold PyFloat.of_int, PyFloat.prec, PyFloat.emax, binary_normalize, binary_round,
    shl_align, fexp, emin.
  rewrite Hdig.
  replace (Z.max (d + 0 - 53) (3 - 1024 - 53) - 0) with (d - 53) by lia.
  destruct (d - 53) as [ | k | k ] eqn:Hk; try lia.
  - assert (d = 53) as -> by lia. change (53 - 53) with 0.
    rewrite binary_round_aux_53 by (done || lia).
    rewrite round_nearest_even_exact. unfold pack_double.
    destruct (Z.eqb_spec (Z.pos p) (2 ^ 53)); [ lia | ].
    rewrite Z.mul_1_r. by rewrite Pos2Z.id.
  - assert (Hsh : 53 - d = Z.pos k) by lia.
    assert (Hval : Z.pos (Pos.iter xO p k) = Z.pos p * 2 ^ (53 - d)) by (rewrite Hsh; apply Pos_iter_xO).
    assert (Hpow : 2 ^ (d - 1) * 2 ^ (53 - d) = 2 ^ 52).
    { rewrite <- Z.pow_add_r by lia. f_equal. lia. }
    assert (Hpow' : 2 ^ d * 2 ^ (53 - d) = 2 ^ 53).
    { rewrite <- Z.pow_add_r by lia. f_equal. lia. }
    assert (0 < 2 ^ (53 - d)) by (apply Z.pow_pos_nonneg; lia).
    rewrite binary_round_aux_53.
    + rewrite round_nearest_even_exact. unfold pack_double.
      destruct (Z.eqb_spec (Z.pos (Pos.iter xO p k)) (2 ^ 53)); [ nia | ].
      rewrite <- Hval. f_equal. lia.
    + apply digits2_pos_unique. change (2 ^ (53 - 1)) with (2 ^ 52). nia.
    + lia.
Qed.

Example of_int_1024 : PyFloat.of_int 1024 = S754_finite false 4503599627370496 (-42).
Proof. reflexivity. Qed.

(** Multiplying by [1024.0] adds ten to the exponent. *)
Lemma mul_1024 s m e :
  Z.pos (digits2_pos m) = 53 -> -1084 <= e <= 961 ->
  PyFloat.mul (PyFloat.of_int 1024) (S754_finite s m e) = S754_finite s m (e + 10).
Proof.
  intros Hd He. rewrite of_int_1024.
  pose proof (digits2_pos_bounds m) as B. rewrite Hd in B. change (2 ^ (53 - 1)) with (2 ^ 52) in B.
  unfold PyFloat.mul, PyFloat.prec, PyFloat.emax, SFmul. cbn [xorb].
  assert (Hmul : (4503599627370496 * m)%positive = Pos.iter xO m 52) by reflexivity.
  rewrite Hmul.
  assert (Hdig : Z.pos (digits2_pos (Pos.iter xO m 52)) = 105).
  { apply digits2_pos_unique. rewrite Pos_iter_xO.
    change (2 ^ (105 - 1)) with (2 ^ 52 * 2 ^ 52). change (2 ^ 105) with (2 ^ 53 * 2 ^ 52). lia. }
  unfold binary_round_aux, shr_fexp at 1, Zdigits2, fexp, emin. rewrite Hdig.
  replace (Z.max (105 + (-42 + e) - 53) (3 - 1024 - 53) - (-42 + e)) with 52 by lia.
  assert (Hshr : SpecFloat.iter_pos shr_1 52 (shr_record_of_loc (Z.pos (Pos.iter xO m 52)) loc_Exact)
                 = Build_shr_record (Z.pos m) false false) by reflexivity.
  cbn [shr]. rewrite Hshr. cbn [shr_m loc_of_shr_record round_nearest_even].
  replace (-42 + e + 52) with (e + 10) by lia.
  rewrite shr_fexp_53 by (done || lia).
  cbn [shr_record_of_loc shr_m]. destruct (Z.leb_spec (e + 10) (1024 - 53)); [ done | lia ].
Qed.

(** *** Rounded quotients of integers *)

Lemma round_quotient_bounds n d :
  0 <= n -> 0 < d ->
  n / d <= round_quotient n d <= n / d + 1 /\
  - d < round_quotient n d * d - n < d.
Proof.
  intros Hn Hd. unfold round_quotient, remainder_location.
  pose proof (Z.div_mod n d ltac:(lia)) as E.
  pose proof (Z.mod_pos_bound n d Hd) as B.
  destruct (Z.eqb_spec (n mod d) 0) as [ H0 | H0 ].
  - rewrite round_nearest_even_exact. nia.
  - destruct (round_nearest_even_cases (n / d) (loc_Inexact (2 * (n mod d) ?= d))) as [ -> | -> ]; nia.
Qed.

Lemma round_quotient_ratio n d n' d' :
  0 <= n -> 0 < d -> 0 <= n' -> 0 < d' -> n * d' = n' * d ->
  round_quotient n d = round_quotient n' d'.
Proof.
  intros Hn Hd Hn' Hd' Hratio.
  pose proof (Z.div_mod n d ltac:(lia)) as E.
  pose proof (Z.mod_pos_bound n d Hd) as B.
  set (q := n / d) in *. set (r := n mod d) in *.
  assert (Hr' : 0 <= n' - q * d' < d') by nia.
  assert (Hq : n' / d' = q) by (symmetry; apply (Z.div_unique _ _ _ (n' - q * d')); lia).
  assert (Hm : n' mod d' = n' - q * d') by (symmetry; apply (Z.mod_unique _ _ q); lia).
  unfold round_quotient. fold q r. rewrite Hq, Hm. f_equal.
  unfold remainder_location.
  assert (Hscale : (n' - q * d') * d = r * d') by nia.
  destruct (Z.eqb_spec r 0), (Z.eqb_spec (n' - q * d') 0); try nia; [ done | ].
  f_equal.
  destruct (Z.compare_spec (2 * r) d), (Z.compare_spec (2 * (n' - q * d')) d'); try done; nia.
Qed.

Lemma normal_mantissa f s m e : normal_double f s m e -> 2 ^ 52 <= m < 2 ^ 53.
Proof.
  intros (p & _ & <- & Hd). pose proof (digits2_pos_bounds p) as B. by rewrite Hd in B.
Qed.

(** [pack_double s M e] is the normal_double double of value [M * 2 ^ e]. *)
Lemma pack_double_normal s M e :
  2 ^ 52 <= M <= 2 ^ 53 ->
  exists m c, normal_double (pack_double s M e) s m (e + c) /\ 0 <= c <= 1 /\ m * 2 ^ c = M.
Proof.
  intros HM. unfold pack_double. destruct (Z.eqb_spec M (2 ^ 53)) as [ -> | Hne ].
  - exists (2 ^ 52), 1. split; [ | done ]. by eexists.
  - exists M, 0. split; [ | lia ].
    destruct M as [ | p | p ]; try lia.
    exists p. rewrite Z.add_0_r. repeat split. apply digits2_pos_unique. lia.
Qed.

Lemma of_int_is_normal z d :
  1 <= d <= 53 -> 2 ^ (d - 1) <= z < 2 ^ d ->
  normal_double (PyFloat.of_int z) false (z * 2 ^ (53 - d)) (d - 53).
Proof.
  intros Hd Hz. rewrite (of_int_normal z d) by done.
  assert (Hpow : 2 ^ (d - 1) * 2 ^ (53 - d) = 2 ^ 52).
  { rewrite <- Z.pow_add_r by lia. f_equal. lia. }
  assert (Hpow' : 2 ^ d * 2 ^ (53 - d) = 2 ^ 53).
  { rewrite <- Z.pow_add_r by lia. f_equal. lia. }
  assert (0 < 2 ^ (53 - d)) by (apply Z.pow_pos_nonneg; lia).
  assert (HB : 2 ^ 52 <= z * 2 ^ (53 - d) < 2 ^ 53) by nia.
  destruct (z * 2 ^ (53 - d)) as [ | p | p ]; try lia.
  exists p. repeat split. apply digits2_pos_unique. lia.
Qed.

Lemma div_normal x sx mx ex y sy my ey :
  normal_double x sx mx ex -> normal_double y sy my ey -> -1021 <= ex - ey <= 1022 ->
  PyFloat.div x y
  = if mx <? my
    then pack_double (xorb sx sy) (round_quotient (mx * 2 ^ 53) my) (ex - ey - 53)
    else pack_double (xorb sx sy) (round_quotient (mx * 2 ^ 52) my) (ex - ey - 52).
Proof.
  intros (px & -> & <- & Hdx) (py & -> & <- & Hdy) He. by apply SFdiv_normal.
Qed.

Lemma digits_of_int z :
  1 <= z < 2 ^ 31 -> exists d, 1 <= d <= 31 /\ 2 ^ (d - 1) <= z < 2 ^ d.
Proof.
  intros Hz. exists (Z.log2 z + 1).
  pose proof (Z.log2_spec z ltac:(lia)) as B.
  pose proof (Z.log2_nonneg z).
  assert (Z.log2 z < 31) by (apply Z.log2_lt_pow2; lia).
  replace (Z.log2 z + 1 - 1) with (Z.log2 z) by lia.
  replace (Z.log2 z + 1) with (Z.succ (Z.log2 z)) by lia. lia.
Qed.

(** [a / b] on integers below [2 ^ 31]: the quotient scaled to 53 bits
    and rounded to nearest, ties to even. *)
Lemma true_div_spec a b :
  1 <= a < 2 ^ 31 -> 1 <= b < 2 ^ 31 ->
  exists T,
    22 <= T <= 83 /\
    2 ^ 52 * b <= a * 2 ^ T < 2 ^ 53 * b /\
    PyFloat.true_div a b = pack_double false (round_quotient (a * 2 ^ T) b) (- T).
Proof.
  intros Ha Hb.
  destruct (digits_of_int a Ha) as (da & Hda & Ba).
  destruct (digits_of_int b Hb) as (db & Hdb & Bb).
  pose proof (of_int_is_normal a da ltac:(lia) Ba) as Na.
  pose proof (of_int_is_normal b db ltac:(lia) Bb) as Nb.
  pose proof (normal_mantissa _ _ _ _ Na) as Ma.
  pose proof (normal_mantissa _ _ _ _ Nb) as Mb.
  unfold PyFloat.true_div.
  rewrite (div_normal _ _ _ _ _ _ _ _ Na Nb) by lia.
  set (pa := 2 ^ (53 - da)) in *. set (pb := 2 ^ (53 - db)) in *.
  assert (0 < pa) by (apply Z.pow_pos_nonneg; lia).
  assert (0 < pb) by (apply Z.pow_pos_nonneg; lia).
  cbn [xorb].
  destruct (Z.ltb_spec (a * pa) (b * pb)) as [ Hlt | Hge ].
  - exists (53 + db - da).
    assert (Hpow : 2 ^ (53 + db - da) * pb = 2 ^ 53 * pa).
    { unfold pa, pb. rewrite <- !Z.pow_add_r by lia. f_equal. lia. }
    assert (0 < 2 ^ (53 + db - da)) by (apply Z.pow_pos_nonneg; lia).
    split; [ lia | split; [ nia | ] ].
    replace (da - 53 - (db - 53) - 53) with (- (53 + db - da)) by lia.
    f_equal. apply round_quotient_ratio; nia.
  - exists (52 + db - da).
    assert (Hpow : 2 ^ (52 + db - da) * pb = 2 ^ 52 * pa).
    { unfold pa, pb. rewrite <- !Z.pow_add_r by lia. f_equal. lia. }
    assert (0 < 2 ^ (52 + db - da)) by (apply Z.pow_pos_nonneg; lia).
    split; [ lia | split; [ nia | ] ].
    replace (da - 53 - (db - 53) - 52) with (- (52 + db - da)) by lia.
    f_equal. apply round_quotient_ratio; nia.
Qed.

Lemma pow2_lt_mono_inv T T' : 0 <= T -> 0 <= T' -> 2 ^ T < 2 * 2 ^ T' -> T <= T'.
Proof.
  intros HT HT' Hlt. destruct (Z.le_gt_cases T T') as [ | Hgt ]; [ done | ].
  assert (2 ^ (T' + 1) <= 2 ^ T) by (apply Z.pow_le_mono_r; lia).
  rewrite Z.pow_add_r in * by lia. lia.
Qed.

(** The quotient of two integers depends on their ratio only. *)
Lemma true_div_ratio a b c d :
  1 <= a < 2 ^ 31 -> 1 <= b < 2 ^ 31 -> 1 <= c < 2 ^ 31 -> 1 <= d < 2 ^ 31 ->
  a * d = c * b ->
  PyFloat.true_div a b = PyFloat.true_div c d.
Proof.
  intros Ha Hb Hc Hd Hratio.
  destruct (true_div_spec a b Ha Hb) as (T & HT & HB & ->).
  destruct (true_div_spec c d Hc Hd) as (T' & HT' & HB' & ->).
  assert (0 < 2 ^ T) by (apply Z.pow_pos_nonneg; lia).
  assert (0 < 2 ^ T') by (apply Z.pow_pos_nonneg; lia).
  assert (HTT : T = T').
  { apply Z.le_antisymm; apply pow2_lt_mono_inv; try lia.
    - (* 2^T < 2 * 2^T' *)
      assert (2 ^ T * (a * d) < 2 * 2 ^ T' * (a * d)); [ | nia ].
      rewrite Hratio at 2. nia.
    - assert (2 ^ T' * (a * d) < 2 * 2 ^ T * (a * d)); [ | nia ].
      rewrite Hratio at 1. nia. }
  subst T'. f_equal. apply round_quotient_ratio; nia.
Qed.



Example one_value : PyFloat.true_div 1024 1024 = S754_finite false 4503599627370496 (-52).
Proof. vm_compute. reflexivity. Qed.

Lemma pow52 : 2 ^ 52 = 4503599627370496.
Proof. reflexivity. Qed.

Lemma compare_cont_Eq p q : PosDef.Pos.compare_cont Eq p q = (Z.pos p ?= Z.pos q).
Proof. reflexivity. Qed.

Lemma leb_one f m e :
  normal_double f false m e ->
  PyFloat.leb f (PyFloat.true_div 1024 1024) = (e <? -52) || ((e =? -52) && (m =? 2 ^ 52)).
Proof.
  intros (p & -> & <- & Hd). rewrite one_value, pow52.
  pose proof (digits2_pos_bounds p) as B. rewrite Hd in B.
  change (2 ^ (53 - 1)) with 4503599627370496 in B.
  unfold PyFloat.leb, SFleb, SFcompare. rewrite compare_cont_Eq.
  destruct (Z.compare_spec e (-52)) as [ He | He | He ].
  - destruct (Z.ltb_spec e (-52)); [ lia | ].
    destruct (Z.eqb_spec e (-52)); [ | lia ]. cbn [orb andb].
    destruct (Z.compare_spec (Z.pos p) 4503599627370496),
      (Z.eqb_spec (Z.pos p) 4503599627370496); first [ reflexivity | lia ].
  - destruct (Z.ltb_spec e (-52)); [ reflexivity | lia ].
  - destruct (Z.ltb_spec e (-52)); [ lia | ].
    destruct (Z.eqb_spec e (-52)); [ lia | reflexivity ].
Qed.

Lemma floor_normal f m e :
  normal_double f false m e -> e < 0 -> PyFloat.floor f = m / 2 ^ (- e).
Proof.
  intros (p & -> & <- & _) He. unfold PyFloat.floor.
  destruct (Z.leb_spec 0 e); [ lia | reflexivity ].
Qed.

Lemma ceil_normal f m e :
  normal_double f false m e -> e < 0 -> PyFloat.ceil f = - ((- m) / 2 ^ (- e)).
Proof.
  intros (p & -> & <- & _) He. unfold PyFloat.ceil, PyFloat.floor, SFopp. cbn [negb].
  destruct (Z.leb_spec 0 e); [ lia | reflexivity ].
Qed.

(** Floor and ceiling of [M * 2 ^ (- T)] as the double [pack_double false M (- T)]. *)
Lemma floor_ceil_pack M T :
  2 ^ 52 <= M <= 2 ^ 53 -> 1 < T ->
  PyFloat.floor (pack_double false M (- T)) = M / 2 ^ T /\
  PyFloat.ceil (pack_double false M (- T)) = - ((- M) / 2 ^ T).
Proof.
  intros HM HT.
  destruct (pack_double_normal false M (- T) HM) as (m & c & Hn & Hc & <-).
  rewrite (floor_normal _ _ _ Hn), (ceil_normal _ _ _ Hn) by lia.
  assert (Hpow : 2 ^ T = 2 ^ c * 2 ^ (- (- T + c))).
  { rewrite <- Z.pow_add_r by lia. f_equal. lia. }
  assert (0 < 2 ^ c) by (apply Z.pow_pos_nonneg; lia).
  assert (0 < 2 ^ (- (- T + c))) by (apply Z.pow_pos_nonneg; lia).
  rewrite Hpow. split.
  - rewrite (Z.mul_comm m), Z.div_mul_cancel_l by lia. reflexivity.
  - replace (- (m * 2 ^ c)) with (2 ^ c * - m) by lia.
    rewrite Z.div_mul_cancel_l by lia. reflexivity.
Qed.

Lemma mul_1024_pack M e :
  2 ^ 52 <= M <= 2 ^ 53 -> -1084 <= e <= 960 ->
  PyFloat.mul (PyFloat.of_int 1024) (pack_double false M e) = pack_double false M (e + 10).
Proof.
  intros HM He. unfold pack_double. destruct (Z.eqb_spec M (2 ^ 53)).
  - rewrite mul_1024 by (reflexivity || lia). f_equal. lia.
  - destruct M as [ | p | p ]; try lia.
    rewrite Pos2Z.id. apply mul_1024; [ apply digits2_pos_unique | ]; lia.
Qed.


Lemma aspect_spec w h :
  1 <= w < 2 ^ 31 -> 1 <= h < 2 ^ 31 ->
  exists T M,
    22 <= T <= 83 /\
    2 ^ 52 * h <= w * 2 ^ T < 2 ^ 53 * h /\
    2 ^ 52 <= M <= 2 ^ 53 /\
    - h < M * h - w * 2 ^ T < h /\
    PyFloat.true_div w h = pack_double false M (- T).
Proof.
  intros Hw Hh. destruct (true_div_spec w h Hw Hh) as (T & HT & HB & Heq).
  exists T, (round_quotient (w * 2 ^ T) h).
  assert (0 < 2 ^ T) by (apply Z.pow_pos_nonneg; lia).
  pose proof (round_quotient_bounds (w * 2 ^ T) h ltac:(lia) ltac:(lia)) as [ Hq Hf ].
  assert (2 ^ 52 <= w * 2 ^ T / h) by (apply Z.div_le_lower_bound; lia).
  assert (w * 2 ^ T / h < 2 ^ 53) by (apply Z.div_lt_upper_bound; lia).
  repeat split; try lia. exact Heq.
Qed.

Lemma pow2_le_mono a b : 0 <= a <= b -> 2 ^ a <= 2 ^ b.
Proof. intros. apply Z.pow_le_mono_r; lia. Qed.

Lemma leb_one_pack M T :
  2 ^ 52 <= M <= 2 ^ 53 -> 0 <= T ->
  PyFloat.leb (pack_double false M (- T)) (PyFloat.true_div 1024 1024) = (M <=? 2 ^ T).
Proof.
  intros HM HT.
  destruct (pack_double_normal false M (- T) HM) as (m & c & Hn & Hc & <-).
  pose proof (normal_mantissa _ _ _ _ Hn) as Hm.
  rewrite (leb_one _ _ _ Hn).
  assert (Hc' : c = 0 \/ c = 1) by lia.
  destruct (Z.lt_trichotomy T 52) as [ Hlt | [ -> | Hgt ] ].
  - pose proof (pow2_le_mono T 51 ltac:(lia)).
    assert (2 ^ 51 < 2 ^ 52) by reflexivity.
    assert (0 < 2 ^ c) by (apply Z.pow_pos_nonneg; lia).
    destruct (Z.ltb_spec (- T + c) (-52)); [ lia | ].
    destruct (Z.eqb_spec (- T + c) (-52)); [ lia | ].
    destruct (Z.leb_spec (m * 2 ^ c) (2 ^ T)); [ nia | reflexivity ].
  - destruct Hc' as [ -> | -> ].
    + rewrite Z.mul_1_r. change (-52 + 0) with (-52).
      change (-52 <? -52) with false. change (-52 =? -52) with true. cbn [orb andb].
      destruct (Z.eqb_spec m (2 ^ 52)), (Z.leb_spec m (2 ^ 52)); first [ reflexivity | lia ].
    + change (-52 + 1 <? -52) with false. change (-52 + 1 =? -52) with false. cbn [orb andb].
      change (2 ^ 1) with 2.
      destruct (Z.leb_spec (m * 2) (2 ^ 52)); [ lia | reflexivity ].
  - pose proof (pow2_le_mono 53 T ltac:(lia)).
    destruct Hc' as [ -> | -> ].
    + rewrite Z.mul_1_r.
      destruct (Z.ltb_spec (- T + 0) (-52)); [ | lia ]. cbn [orb].
      destruct (Z.leb_spec m (2 ^ T)); [ reflexivity | lia ].
    + change (2 ^ 1) with 2 in *.
      assert (m = 2 ^ 52) as -> by lia.
      destruct (Z.leb_spec (2 ^ 52 * 2) (2 ^ T)); [ | lia ].
      destruct (Z.ltb_spec (- T + 1) (-52)); [ reflexivity | ].
      destruct (Z.eqb_spec (- T + 1) (-52)); [ | lia ].
      rewrite Z.eqb_refl. reflexivity.
Qed.

(** The rounded aspect ratio is at most one exactly when the width is
    at most the height. *)
Lemma aspect_le_one w h T M :
  1 <= w < 2 ^ 31 -> 1 <= h < 2 ^ 31 -> 0 <= T ->
  2 ^ 52 * h <= w * 2 ^ T -> - h < M * h - w * 2 ^ T < h ->
  M <= 2 ^ T <-> w <= h.
Proof.
  intros Hw Hh HT HB Hf.
  assert (0 < 2 ^ T) by (apply Z.pow_pos_nonneg; lia).
  assert (Hbig : h <= 2 ^ T) by nia.
  split; intros Hle.
  - destruct (Z.le_gt_cases w h); [ done | ]. nia.
  - destruct (Z.eq_dec w h) as [ -> | ]; nia.
Qed.

Lemma floor_le_ceil a b : 0 < b -> a / b <= - ((- a) / b).
Proof.
  intros Hb.
  pose proof (Z.div_mod a b ltac:(lia)). pose proof (Z.mod_pos_bound a b Hb).
  pose proof (Z.div_mod (- a) b ltac:(lia)). pose proof (Z.mod_pos_bound (- a) b Hb).
  nia.
Qed.

(** Floor and ceiling of [M / 2 ^ U] when [M] is within one of
    [a * 2 ^ U / h]: they lie between the floor and the ceiling of
    [a / h]. *)
Lemma scaled_floor_ceil a h U M :
  0 <= a -> 0 < h -> 0 <= U ->
  - h < M * h - a * 2 ^ U < h ->
  a / h <= M / 2 ^ U /\ - ((- M) / 2 ^ U) <= - ((- a) / h).
Proof.
  intros Ha Hh HU Hf.
  assert (HP : 0 < 2 ^ U) by (apply Z.pow_pos_nonneg; lia).
  pose proof (Z.div_mod a h ltac:(lia)) as E1.
  pose proof (Z.mod_pos_bound a h Hh) as B1.
  pose proof (Z.div_mod (- a) h ltac:(lia)) as E2.
  pose proof (Z.mod_pos_bound (- a) h Hh) as B2.
  set (k := a / h) in *. set (k' := (- a) / h) in *. set (P := 2 ^ U) in *.
  split.
  - apply Z.div_le_lower_bound; [ done | ]. nia.
  - assert (k' <= (- M) / P); [ | lia ].
    apply Z.div_le_lower_bound; [ done | ]. nia.
Qed.

Lemma floor_ceil_bounds a h c n :
  0 < h -> 0 < a ->
  a / h <= c <= - ((- a) / h) -> n = Z.max c 1 ->
  1 <= n /\ Z.abs (n * h - a) < h /\ (forall b, a <= b * h -> 1 <= b -> n <= b).
Proof.
  intros Hh Ha Hc Hn.
  pose proof (Z.div_mod a h ltac:(lia)) as E1.
  pose proof (Z.mod_pos_bound a h Hh) as B1.
  pose proof (Z.div_mod (- a) h ltac:(lia)) as E2.
  pose proof (Z.mod_pos_bound (- a) h Hh) as B2.
  set (f := a / h) in *. set (g := (- a) / h) in *.
  assert (0 <= f) by (apply Z.div_pos; lia).
  assert (g <= -1) by nia.
  assert (f <= - g <= f + 1) by nia.
  assert (Hcases : n = f \/ n = - g \/ (n = 1 /\ f = 0)) by lia.
  split; [ lia | split ].
  - destruct Hcases as [ -> | [ -> | [ -> Hf0 ] ] ]; nia.
  - intros b Hb Hb1. destruct Hcases as [ -> | [ -> | [ -> Hf0 ] ] ]; nia.
Qed.

(** The integer content of [1024 / aspect]: [M] is the mantissa of the
    aspect ratio [w / h] at scale [PT], [M'] the mantissa of its
    inverse times 1024 at scale [Pc * PG]. *)
Lemma inverse_bounds w h PT M m Pc PG D M' k :
  0 < h -> 0 < w -> 0 < PT -> 0 < Pc -> 0 < PG -> 0 < m ->
  1024 * h <= PT ->
  - h < M * h - w * PT < h ->
  M = m * Pc ->
  1024 * PT * PG = D ->
  - m < M' * m - D < m ->
  0 <= k <= 1024 ->
  (k * w + 1 <= 1024 * h -> k * (Pc * PG) <= M') /\
  (1024 * h + 1 <= k * w -> M' <= k * (Pc * PG)).
Proof.
  intros Hh Hw HPT HPc HPG Hm Hbig Hf HM HD Hf' Hk. split; intros Hkw.
  - assert (H1 : M * h * k <= 1024 * h * PT).
    { assert (M * h * k <= (w * PT + h) * k) by nia.
      assert ((w * PT + h) * k = (k * w) * PT + h * k) by ring.
      assert ((k * w) * PT <= (1024 * h - 1) * PT) by nia.
      assert (h * k <= 1024 * h) by nia. nia. }
    assert (H2 : M * k <= 1024 * PT) by nia.
    assert (H3 : m * (k * (Pc * PG)) <= D).
    { replace (m * (k * (Pc * PG))) with ((M * k) * PG) by (rewrite HM; ring).
      rewrite <- HD. nia. }
    nia.
  - assert (H1 : 1024 * h * PT <= M * h * k).
    { assert ((w * PT - h) * k <= M * h * k) by nia.
      assert ((w * PT - h) * k = (k * w) * PT - h * k) by ring.
      assert ((1024 * h + 1) * PT <= (k * w) * PT) by nia.
      assert (h * k <= 1024 * h) by nia. nia. }
    assert (H2 : 1024 * PT <= M * k) by nia.
    assert (H3 : D <= m * (k * (Pc * PG))).
    { replace (m * (k * (Pc * PG))) with ((M * k) * PG) by (rewrite HM; ring).
      rewrite <- HD. nia. }
    nia.
Qed.

(** [y * aspect] for a source no wider than high. *)
Lemma scaled_width_bounds w h :
  1 <= w < 2 ^ 31 -> 1 <= h < 2 ^ 31 ->
  let number := PyFloat.mul (PyFloat.of_int 1024) (PyFloat.true_div w h) in
  1024 * w / h <= PyFloat.floor number /\
  PyFloat.ceil number <= - ((- (1024 * w)) / h) /\
  PyFloat.floor number <= PyFloat.ceil number.
Proof.
  intros Hw Hh number. subst number.
  destruct (aspect_spec w h Hw Hh) as (T & M & HT & HB & HM & Hf & ->).
  rewrite mul_1024_pack by lia.
  replace (- T + 10) with (- (T - 10)) by lia.
  destruct (floor_ceil_pack M (T - 10) HM ltac:(lia)) as [ -> -> ].
  assert (HP : 0 < 2 ^ (T - 10)) by (apply Z.pow_pos_nonneg; lia).
  assert (Hpow : 1024 * 2 ^ (T - 10) = 2 ^ T).
  { change 1024 with (2 ^ 10). rewrite <- Z.pow_add_r by lia. f_equal. lia. }
  assert (Hpow' : 1024 * w * 2 ^ (T - 10) = w * 2 ^ T) by (rewrite <- Hpow; ring).
  destruct (scaled_floor_ceil (1024 * w) h (T - 10) M) as [ H1 H2 ]; try lia.
  split; [ exact H1 | split; [ exact H2 | ] ]. by apply floor_le_ceil.
Qed.

(** [x / aspect] for a source wider than high. *)
Lemma scaled_height_bounds w h :
  1 <= w < 2 ^ 31 -> 1 <= h < 2 ^ 31 ->
  let number := PyFloat.div (PyFloat.of_int 1024) (PyFloat.true_div w h) in
  (forall k, 0 <= k <= 1024 -> k * w + 1 <= 1024 * h -> k <= PyFloat.floor number) /\
  (forall k, 0 <= k <= 1024 -> 1024 * h + 1 <= k * w -> PyFloat.ceil number <= k) /\
  PyFloat.floor number <= PyFloat.ceil number.
Proof.
  intros Hw Hh number. subst number.
  destruct (aspect_spec w h Hw Hh) as (T & M & HT & HB & HM & Hf & ->).
  destruct (pack_double_normal false M (- T) HM) as (m & c & Hn & Hc & HMm).
  pose proof (normal_mantissa _ _ _ _ Hn) as Hm.
  pose proof (of_int_is_normal 1024 11 ltac:(lia) ltac:(split; reflexivity)) as H1024.
  rewrite (div_normal _ _ _ _ _ _ _ _ H1024 Hn) by lia.
  change (1024 * 2 ^ (53 - 11)) with (2 ^ 52). cbn [xorb].
  assert (HPT : 0 < 2 ^ T) by (apply Z.pow_pos_nonneg; lia).
  assert (HPc : 0 < 2 ^ c) by (apply Z.pow_pos_nonneg; lia).
  assert (Hbig : 1024 * h <= 2 ^ T) by nia.
  assert (Hgen : forall S', 52 <= S' <= 53 ->
            2 ^ 52 <= 2 ^ 52 * 2 ^ S' / m < 2 ^ 53 ->
            let number := pack_double false (round_quotient (2 ^ 52 * 2 ^ S') m) (11 - 53 - (- T + c) - S') in
            (forall k, 0 <= k <= 1024 -> k * w + 1 <= 1024 * h -> k <= PyFloat.floor number) /\
            (forall k, 0 <= k <= 1024 -> 1024 * h + 1 <= k * w -> PyFloat.ceil number <= k) /\
            PyFloat.floor number <= PyFloat.ceil number).
  { intros S' HS' Hq number. subst number.
    assert (0 < 2 ^ S') by (apply Z.pow_pos_nonneg; lia).
    pose proof (round_quotient_bounds (2 ^ 52 * 2 ^ S') m ltac:(lia) ltac:(lia)) as [ Hq' Hf' ].
    set (M' := round_quotient (2 ^ 52 * 2 ^ S') m) in *.
    replace (11 - 53 - (- T + c) - S') with (- (42 + S' + c - T)) by lia.
    destruct (floor_ceil_pack M' (42 + S' + c - T) ltac:(lia) ltac:(lia)) as [ -> -> ].
    set (G := 42 + S' - T).
    assert (HPG : 0 < 2 ^ G) by (apply Z.pow_pos_nonneg; lia).
    assert (HT' : 2 ^ (42 + S' + c - T) = 2 ^ c * 2 ^ G).
    { rewrite <- Z.pow_add_r by lia. f_equal. lia. }
    assert (HD : 1024 * 2 ^ T * 2 ^ G = 2 ^ 52 * 2 ^ S').
    { change 1024 with (2 ^ 10). rewrite <- !Z.pow_add_r by lia. f_equal. lia. }
    rewrite HT'.
    assert (Hinv : forall k, 0 <= k <= 1024 ->
              (k * w + 1 <= 1024 * h -> k * (2 ^ c * 2 ^ G) <= M') /\
              (1024 * h + 1 <= k * w -> M' <= k * (2 ^ c * 2 ^ G))).
    { intros k Hk.
      apply (inverse_bounds w h (2 ^ T) M m (2 ^ c) (2 ^ G) (2 ^ 52 * 2 ^ S') M' k); lia. }
    assert (0 < 2 ^ c * 2 ^ G) by lia.
    split; [ | split ].
    - intros k Hk Hkw. apply Z.div_le_lower_bound; [ done | ].
      destruct (Hinv k Hk) as [ Hlo _ ]. specialize (Hlo Hkw). lia.
    - intros k Hk Hkw. destruct (Hinv k Hk) as [ _ Hhi ]. specialize (Hhi Hkw).
      assert (- k <= (- M') / (2 ^ c * 2 ^ G)); [ | lia ].
      apply Z.div_le_lower_bound; [ done | ]. lia.
    - by apply floor_le_ceil. }
  destruct (Z.ltb_spec (2 ^ 52) m) as [ Hlt | Hge ].
  - apply (Hgen 53); [ lia | ].
    split; [ apply Z.div_le_lower_bound | apply Z.div_lt_upper_bound ]; lia.
  - assert (m = 2 ^ 52) as -> by lia.
    apply (Hgen 52); [ lia | ].
    rewrite Z.div_mul by lia. lia.
Qed.

Lemma aspect_leb_one w h :
  1 <= w < 2 ^ 31 -> 1 <= h < 2 ^ 31 ->
  PyFloat.leb (PyFloat.true_div w h) (PyFloat.true_div 1024 1024) = (w <=? h).
Proof.
  intros Hw Hh.
  destruct (aspect_spec w h Hw Hh) as (T & M & HT & HB & HM & Hf & ->).
  rewrite leb_one_pack by lia.
  pose proof (aspect_le_one w h T M Hw Hh ltac:(lia) ltac:(lia) Hf) as Hiff.
  destruct (Z.leb_spec M (2 ^ T)), (Z.leb_spec w h); first [ reflexivity | lia ].
Qed.

Lemma round_aspect_cases number key :
  let r := Pillow.round_aspect number key in
  r = Z.max (PyFloat.floor number) 1 \/ r = Z.max (PyFloat.ceil number) 1.
Proof. unfold Pillow.round_aspect. cbv zeta. destruct (PyFloat.ltb _ _); auto. Qed.

(** When the height that keeps the aspect ratio is an integer [k], the
    aspect ratio is the double [1024 / k], and [round_aspect] finds [k]:
    checked for each of the 1023 values. *)
Definition height_for (aspect : spec_float) : Z :=
  Pillow.round_aspect (PyFloat.div (PyFloat.of_int 1024) aspect)
    (fun n => if n =? 0 then PyFloat.of_int 0
              else PyFloat.abs (PyFloat.sub aspect (PyFloat.true_div 1024 n))).

Lemma exact_heights_table :
  forallb (fun k => height_for (PyFloat.true_div 1024 k) =? k) (map Z.of_nat (seq 1 1023)) = true.
Proof. vm_compute. reflexivity. Qed.

Lemma exact_heights k : 1 <= k <= 1023 -> height_for (PyFloat.true_div 1024 k) = k.
Proof.
  intros Hk. pose proof exact_heights_table as Htable.
  rewrite forallb_forall in Htable. apply Z.eqb_eq, Htable.
  apply in_map_iff. exists (Z.to_nat k). split; [ lia | ]. apply in_seq. lia.
Qed.

(** The width chosen for a source no wider than high, whatever the key. *)
Lemma width_choice w h key :
  1 <= w < 2 ^ 31 -> 1 <= h < 2 ^ 31 -> w <= h -> 1024 < h ->
  let n := Pillow.round_aspect (PyFloat.mul (PyFloat.of_int 1024) (PyFloat.true_div w h)) key in
  1 <= n <= 1024 /\ n <= w /\ Z.abs (n * h - 1024 * w) < h.
Proof.
  intros Hw Hh Hle Hbig n.
  pose proof (round_aspect_cases (PyFloat.mul (PyFloat.of_int 1024) (PyFloat.true_div w h)) key)
    as Hr. cbv zeta in Hr. fold n in Hr.
  pose proof (scaled_width_bounds w h Hw Hh) as (H1 & H2 & H3). cbv zeta in H1, H2, H3.
  assert (Hn : exists c, 1024 * w / h <= c <= - (- (1024 * w) / h) /\ n = Z.max c 1).
  { destruct Hr as [ Hr | Hr ]; eexists; (split; [ | exact Hr ]); lia. }
  destruct Hn as (c & Hc & Hn).
  pose proof (floor_ceil_bounds (1024 * w) h c n ltac:(lia) ltac:(lia) Hc Hn) as (B1 & B2 & B3).
  pose proof (B3 1024 ltac:(nia) ltac:(lia)). pose proof (B3 w ltac:(nia) ltac:(lia)).
  repeat split; lia.
Qed.

(** The height chosen for a source wider than high. *)
Lemma height_choice w h :
  1 <= w < 2 ^ 31 -> 1 <= h < 2 ^ 31 -> h < w -> 1024 < w ->
  let n := height_for (PyFloat.true_div w h) in
  1 <= n <= 1024 /\ n <= h /\ Z.abs (n * w - 1024 * h) < w.
Proof.
  intros Hw Hh Hlt Hbig n.
  assert (Hn : exists c, 1024 * h / w <= c <= - (- (1024 * h) / w) /\ n = Z.max c 1).
  { pose proof (Z.div_mod (1024 * h) w ltac:(lia)) as E1.
    pose proof (Z.mod_pos_bound (1024 * h) w ltac:(lia)) as M1.
    pose proof (Z.div_mod (- (1024 * h)) w ltac:(lia)) as E2.
    pose proof (Z.mod_pos_bound (- (1024 * h)) w ltac:(lia)) as M2.
    destruct (Z.eq_dec ((1024 * h) mod w) 0) as [ Hint | Hfrac ].
    - exists (1024 * h / w).
      assert (Hk : 1 <= 1024 * h / w <= 1023) by nia.
      assert (Hratio : PyFloat.true_div w h = PyFloat.true_div 1024 (1024 * h / w))
        by (apply true_div_ratio; lia).
      subst n. rewrite Hratio, exact_heights by done.
      split; [ nia | lia ].
    - pose proof (round_aspect_cases (PyFloat.div (PyFloat.of_int 1024) (PyFloat.true_div w h))
        (fun n => if n =? 0 then PyFloat.of_int 0
                  else PyFloat.abs (PyFloat.sub (PyFloat.true_div w h) (PyFloat.true_div 1024 n))))
        as Hr. cbv zeta in Hr. fold (height_for (PyFloat.true_div w h)) in Hr. fold n in Hr.
      pose proof (scaled_height_bounds w h Hw Hh) as (H1 & H2 & H3). cbv zeta in H1, H2, H3.
      assert (0 <= 1024 * h / w) by (apply Z.div_pos; lia).
      assert (- (- (1024 * h) / w) = 1024 * h / w + 1) by nia.
      pose proof (H1 (1024 * h / w) ltac:(nia) ltac:(nia)).
      pose proof (H2 (- (- (1024 * h) / w)) ltac:(nia) ltac:(nia)).
      destruct Hr as [ Hr | Hr ]; eexists; (split; [ | exact Hr ]); lia. }
  destruct Hn as (c & Hc & Hn).
  pose proof (floor_ceil_bounds (1024 * h) w c n ltac:(lia) ltac:(lia) Hc Hn) as (B1 & B2 & B3).
  pose proof (B3 1024 ltac:(nia) ltac:(lia)). pose proof (B3 h ltac:(nia) ltac:(lia)).
  repeat split; lia.
Qed.

Lemma thumbnail_size_fits w h :
  1 <= w < 2 ^ 31 -> 1 <= h < 2 ^ 31 ->
  match Pillow.preserve_aspect_ratio (1024, 1024) w h with
  | None => w <= 1024 /\ h <= 1024
  | Some (w', h') =>
      (1024 < w \/ 1024 < h) /\
      1 <= w' <= 1024 /\ 1 <= h' <= 1024 /\ w' <= w /\ h' <= h /\
      ((h' = 1024 /\ Z.abs (w' * h - 1024 * w) < h) \/
       (w' = 1024 /\ Z.abs (h' * w - 1024 * h) < w))
  end.
Proof.
  intros Hw Hh. unfold Pillow.preserve_aspect_ratio.
  destruct (Z.geb_spec 1024 w) as [ Hw' | Hw' ], (Z.geb_spec 1024 h) as [ Hh' | Hh' ];
    cbn [andb]; [ lia | | | ].
  all: rewrite aspect_leb_one by done.
  all: destruct (Z.leb_spec w h) as [ Hle | Hgt ]; try lia.
  all: first
    [ pose proof (width_choice w h
        (fun n => PyFloat.abs (PyFloat.sub (PyFloat.true_div w h) (PyFloat.true_div n 1024)))
        Hw Hh ltac:(lia) ltac:(lia)) as Hn; cbv zeta in Hn
    | pose proof (height_choice w h Hw Hh ltac:(lia) ltac:(lia)) as Hn;
      cbv zeta in Hn; unfold height_for in Hn ].
  all: repeat split; try lia.
Qed.

(** *** The 8-bit blend *)

Lemma DIV255_exact b : 0 <= b <= 255 -> Pillow.DIV255 (b * 255) = b.
Proof.
  intros Hb. unfold Pillow.DIV255. cbv zeta.
  rewrite !Z.shiftr_div_pow2 by lia. change (2 ^ 8) with 256.
  assert (E : (b * 255 + 128) / 256 = if b <=? 128 then b else b - 1).
  { destruct (Z.leb_spec b 128).
    - symmetry. apply (Z.div_unique _ _ _ (128 - b)); lia.
    - symmetry. apply (Z.div_unique _ _ _ (384 - b)); lia. }
  rewrite E. destruct (Z.leb_spec b 128).
  - symmetry. apply (Z.div_unique _ _ _ 128); lia.
  - symmetry. apply (Z.div_unique _ _ _ 127); lia.
Qed.

Lemma BLEND8_opaque a b : 0 <= b <= 255 -> Pillow.BLEND8 255 a b = b.
Proof.
  intros Hb. unfold Pillow.BLEND8.
  replace (a * (255 - 255) + b * 255) with (b * 255) by lia. by apply DIV255_exact.
Qed.

Lemma BLEND8_clear a b : 0 <= a <= 255 -> Pillow.BLEND8 0 a b = a.
Proof.
  intros Ha. unfold Pillow.BLEND8.
  replace (a * (255 - 0) + b * 0) with (a * 255) by lia. by apply DIV255_exact.
Qed.

(** ** Facts the claims rest on *)

Lemma journal_with_out_dir f :
  journal (with_out_dir f)
  = journal f ++ map EvMkdir (List.filter (fun p => negb (fs_exists f p))
                                          ["src-tauri"; "src-tauri/icons"]).
Proof.
  unfold with_out_dir, mkdir_missing. change out_dir with "src-tauri/icons".
  destruct (fs_exists f "src-tauri") eqn:Hhead.
  - simpl. rewrite Hhead. destruct (fs_exists f "src-tauri/icons"); simpl;
      [ by rewrite app_nil_r | done ].
  - rewrite fs_exists_made_dir_other by discriminate.
    simpl. rewrite Hhead. destruct (fs_exists f "src-tauri/icons"); simpl;
      [ done | by rewrite <- app_assoc ].
Qed.

Lemma im_size_resize_image im s : im_size (resize_image im (s, s)) = (s, s).
Proof. unfold resize_image. by case_bool_decide. Qed.

Lemma im_size_finished args edge im : im_size (finished args edge im) = im_size im.
Proof.
  unfold finished, rounded_image.
  destruct (rounded args); [ | done ]. by destruct (_ <=? 0).
Qed.

Lemma sized_path_literal s :
  In s SIZES ->
  sized_path s = "src-tauri/icons/" +:+ pretty s +:+ "x" +:+ pretty s +:+ ".png".
Proof.
  intros Hs. unfold SIZES in Hs. simpl in Hs.
  destruct Hs as [ <- | [ <- | [ <- | [ <- | [ <- | [] ] ] ] ] ]; reflexivity.
Qed.

Lemma files_fs_after_output args source f1 f2 p :
  In p output_paths ->
  files (fs_after args source f1) !! p = files (fs_after args source f2) !! p /\
  is_Some (files (fs_after args source f1) !! p).
Proof.
  intros Hp. unfold output_paths in Hp. simpl in Hp.
  destruct Hp as [ <- | [ <- | [ <- | [ <- | [ <- | [ <- | [] ] ] ] ] ] ].
  - change "src-tauri/icons/icon.png" with icon_path.
    by rewrite !files_fs_after_icon.
  - change "src-tauri/icons/32x32.png" with (sized_path 32).
    rewrite !files_fs_after_sized by (simpl; tauto). done.
  - change "src-tauri/icons/128x128.png" with (sized_path 128).
    rewrite !files_fs_after_sized by (simpl; tauto). done.
  - change "src-tauri/icons/256x256.png" with (sized_path 256).
    rewrite !files_fs_after_sized by (simpl; tauto). done.
  - change "src-tauri/icons/512x512.png" with (sized_path 512).
    rewrite !files_fs_after_sized by (simpl; tauto). done.
  - change "src-tauri/icons/1024x1024.png" with (sized_path 1024).
    rewrite !files_fs_after_sized by (simpl; tauto). done.
Qed.

Lemma rounded_image_pos im r :
  0 < r -> rounded_image im r = Pillow.putalpha im (rounded_mask (im_size im) r).
Proof. intros Hr. unfold rounded_image. by destruct (Z.leb_spec r 0); [ lia | ]. Qed.

Lemma corner_radius_auto args s w :
  radius args <= 0 ->
  In s (1024 :: SIZES) ->
  corner_radius args s w = (w, Ok (s / 5)) /\ radius_used args s = s / 5.
Proof.
  intros Hr Hs. unfold corner_radius, radius_used, auto_radius, py_int.
  destruct (Z.gtb_spec (radius args) 0); [ lia | ].
  by rewrite auto_radius_sizes.
Qed.

Lemma mode_thumbnail_image im sz : mode (thumbnail_image im sz) = mode im.
Proof.
  unfold thumbnail_image. destruct (Pillow.preserve_aspect_ratio _ _ _); [ | done ].
  by case_bool_decide.
Qed.

Lemma blend_on_transparent_clear p :
  px_a p = 0 -> Pillow.blend_pixel (px_a p) transparent p = transparent.
Proof.
  intros ->. unfold Pillow.blend_pixel, Pillow.BLEND8, transparent. simpl.
  by rewrite !Z.mul_0_r.
Qed.

Lemma blend_on_transparent_opaque p :
  px_a p = 255 ->
  0 <= px_r p <= 255 -> 0 <= px_g p <= 255 -> 0 <= px_b p <= 255 ->
  Pillow.blend_pixel (px_a p) transparent p = p.
Proof.
  intros Ha Hr Hg Hb. unfold Pillow.blend_pixel. rewrite Ha.
  rewrite !BLEND8_opaque by lia. destruct p; simpl in *. by subst.
Qed.

(** ** The claims *)

(** C1: when the source path does not exist, the run prints one line that
    contains "Source not found", exits with status 1, and leaves
    directories, files and the journal of changes exactly as they were. *)
Theorem missing_source_exits_untouched args w :
  fs_exists (fs w) (src args) = false ->
  exists w' line,
    main args w = (w', Raise (SystemExit 1)) /\
    exit_status (snd (main args w)) = 1 /\
    fs w' = fs w /\
    heap w' = heap w /\
    stdout w' = stdout w ++ [line] /\
    line = "Source not found: " +:+ src args /\
    exists before after, line = before +:+ "Source not found" +:+ after.
Proof.
  intros Hmissing.
  assert (Hrun : main args w
                 = (mkWorld (heap w) (fs w)
                            (stdout w ++ ["Source not found: " +:+ src args]),
                    Raise (SystemExit 1))).
  { unfold main, bind, os_path_exists, print, sys_exit, raise. cbv zeta.
    rewrite Hmissing. reflexivity. }
  eexists _, _. rewrite Hrun. repeat split.
  exists "", (": " +:+ src args). reflexivity.
Qed.

(** C2, as the code has it: with [--rounded] and [--radius 0] the radius
    of the output of edge [s] is [int(s * 0.2)], a fifth of [s] rounded
    down: 6, 25, 51, 102 and 204 for the five sizes, and 204 for the
    canvas.  The mask of every written file is drawn with that radius. *)
Theorem automatic_radius_is_truncated args w w' :
  rounded args = true ->
  radius args = 0 ->
  main args w = (w', Ok tt) ->
  (forall s w0, In s SIZES -> corner_radius args s w0 = (w0, Ok (s / 5))) /\
  map (fun s => s / 5) SIZES = [6; 25; 51; 102; 204] /\
  exists fmt source,
    files (fs w) !! src args = Some (ImageFile fmt source) /\
    let icon := rounded_image (centered (Pillow.convert_RGBA source)) 204 in
    files (fs w') !! icon_path = Some (ImageFile PNG icon) /\
    forall s, In s SIZES ->
      files (fs w') !! sized_path s
      = Some (ImageFile PNG (rounded_image (resize_image icon (s, s)) (s / 5))).
Proof.
  intros Hrounded Hradius Hrun.
  split; [ | split; [ reflexivity | ] ].
  { intros s w0 Hs. apply corner_radius_auto; [ lia | by right ]. }
  destruct (main_returns _ _ _ Hrun) as (fmt & source & _ & Hfile & _ & Hfs & _).
  exists fmt, source. split; [ done | ]. cbv zeta. rewrite Hfs.
  assert (Hicon : icon_image args source
                  = rounded_image (centered (Pillow.convert_RGBA source)) 204).
  { unfold icon_image, finished. rewrite Hrounded.
    by rewrite (proj2 (corner_radius_auto args 1024 w ltac:(lia) ltac:(by left))). }
  split.
  - by rewrite files_fs_after_icon, Hicon.
  - intros s Hs. rewrite files_fs_after_sized by done.
    unfold sized_image, finished. rewrite Hrounded, Hicon.
    by rewrite (proj2 (corner_radius_auto args s w ltac:(lia) ltac:(by right))).
Qed.

(** C3: a run that returns made exactly six writes, in order [icon.png],
    [32x32.png], [128x128.png], [256x256.png], [512x512.png],
    [1024x1024.png], all PNG images below [src-tauri/icons]; every other
    path holds what it held.  [src-tauri/icons] is a directory afterwards,
    and so is its parent [src-tauri] (unless a regular file of that name
    stood beside a directory [src-tauri/icons]); the only directories
    made are those among the two that did not exist, so none when both
    did. *)
Theorem six_png_files_written args w w' :
  main args w = (w', Ok tt) ->
  exists images,
    length images = 6%nat /\
    journal (fs w')
    = journal (fs w)
      ++ map EvMkdir (List.filter (fun p => negb (fs_exists (fs w) p))
                                  ["src-tauri"; "src-tauri/icons"])
      ++ map (fun out => EvWrite (fst out) (ImageFile PNG (snd out)))
             (combine output_paths images) /\
    (forall p im, In (p, im) (combine output_paths images) ->
                  files (fs w') !! p = Some (ImageFile PNG im)) /\
    (forall p, ~ In p output_paths -> files (fs w') !! p = files (fs w) !! p) /\
    fs_isdir (fs w') "src-tauri/icons" = true /\
    (fs_isfile (fs w) "src-tauri" = false -> fs_isdir (fs w') "src-tauri" = true) /\
    (forall p, fs_isdir (fs w') p = true ->
               fs_isdir (fs w) p = true \/ p = "src-tauri" \/ p = "src-tauri/icons").
Proof.
  intros Hrun.
  destruct (main_returns _ _ _ Hrun) as (fmt & source & Hfound & Hfile & Hdir & Hfs & Hout).
  exists (icon_image args source :: map (sized_image args source) SIZES).
  rewrite Hfs. split; [ done | ]. split; [ | split; [ | split; [ | split; [ | split ] ] ] ].
  - unfold fs_after. rewrite journal_write_all, journal_with_out_dir, <- app_assoc.
    reflexivity.
  - intros p im Hin. unfold output_paths in Hin. simpl in Hin.
    destruct Hin as [ Hin | [ Hin | [ Hin | [ Hin | [ Hin | [ Hin | [] ] ] ] ] ] ];
      injection Hin as <- <-.
    + apply files_fs_after_icon.
    + apply (files_fs_after_sized args source (fs w) 32). simpl. tauto.
    + apply (files_fs_after_sized args source (fs w) 128). simpl. tauto.
    + apply (files_fs_after_sized args source (fs w) 256). simpl. tauto.
    + apply (files_fs_after_sized args source (fs w) 512). simpl. tauto.
    + apply (files_fs_after_sized args source (fs w) 1024). simpl. tauto.
  - intros p Hp. by apply files_fs_after_other.
  - unfold fs_after, fs_isdir. rewrite dirs_write_all. exact Hdir.
  - intros Hhead. unfold fs_after, fs_isdir. rewrite dirs_write_all.
    by apply fs_isdir_with_out_dir_head.
  - intros p. unfold fs_after, fs_isdir at 1. rewrite dirs_write_all.
    apply fs_isdir_with_out_dir.
Qed.

(** C4: the canvas a run composes from the loaded source is an RGBA
    image of 1024x1024.  The source, whose sides are C [int]s in Pillow
    and so below [2 ^ 31], is scaled by [thumbnail] to at most 1024 on
    both sides and never beyond its own size, its longer side becoming
    1024 and the other side the proportional length rounded to a
    neighbouring integer, as the arithmetic on doubles of [thumbnail]
    chooses it; a source that fits is not scaled at all.
    Outside the box of the scaled source, placed at the floor-divided
    offsets, the canvas is transparent; inside, each pixel is the
    transparent background blended with the source pixel by that
    pixel's own alpha, so it stays transparent where alpha is 0 and is
    the source pixel where alpha is 255.  [icon.png] holds that canvas,
    masked when [--rounded] is given. *)
Theorem canvas_centres_the_source args w w' fmt source :
  main args w = (w', Ok tt) ->
  files (fs w) !! src args = Some (ImageFile fmt source) ->
  1 <= width source < 2 ^ 31 ->
  1 <= height source < 2 ^ 31 ->
  let loaded := Pillow.convert_RGBA source in
  let scaled := thumbnail_image loaded (1024, 1024) in
  let x0 := (1024 - width scaled) / 2 in
  let y0 := (1024 - height scaled) / 2 in
  let canvas := centered loaded in
  files (fs w') !! icon_path = Some (ImageFile PNG (finished args 1024 canvas)) /\
  (rounded args = false -> finished args 1024 canvas = canvas) /\
  mode canvas = ModeRGBA /\ width canvas = 1024 /\ height canvas = 1024 /\
  (1 <= width scaled <= 1024 /\ 1 <= height scaled <= 1024) /\
  (width scaled <= width source /\ height scaled <= height source) /\
  (width source <= 1024 -> height source <= 1024 -> scaled = loaded) /\
  (1024 < width source \/ 1024 < height source ->
   (height scaled = 1024 /\
    Z.abs (width scaled * height source - 1024 * width source) < height source) \/
   (width scaled = 1024 /\
    Z.abs (height scaled * width source - 1024 * height source) < width source)) /\
  (0 <= x0 /\ 0 <= y0 /\
   2 * x0 <= 1024 - width scaled <= 2 * x0 + 1 /\
   2 * y0 <= 1024 - height scaled <= 2 * y0 + 1) /\
  (forall x y,
      getpixel canvas x y
      = if in_box x0 y0 (width scaled) (height scaled) x y
        then let p := getpixel scaled (x - x0) (y - y0) in
             Pillow.blend_pixel (px_a p) transparent p
        else transparent) /\
  (forall p, px_a p = 0 -> Pillow.blend_pixel (px_a p) transparent p = transparent) /\
  (forall p, px_a p = 255 ->
             0 <= px_r p <= 255 -> 0 <= px_g p <= 255 -> 0 <= px_b p <= 255 ->
             Pillow.blend_pixel (px_a p) transparent p = p).
Proof.
  intros Hrun Hfile Hw Hh loaded scaled x0 y0 canvas.
  destruct (main_returns _ _ _ Hrun) as (fmt' & source' & _ & Hfile' & _ & Hfs & _).
  rewrite Hfile in Hfile'. injection Hfile' as _ <-.
  assert (Hsize :
    (1 <= width scaled <= 1024 /\ 1 <= height scaled <= 1024) /\
    (width scaled <= width source /\ height scaled <= height source) /\
    (width source <= 1024 -> height source <= 1024 -> scaled = loaded) /\
    (1024 < width source \/ 1024 < height source ->
     (height scaled = 1024 /\
      Z.abs (width scaled * height source - 1024 * width source) < height source) \/
     (width scaled = 1024 /\
      Z.abs (height scaled * width source - 1024 * height source) < width source))).
  { pose proof (thumbnail_size_fits (width loaded) (height loaded) Hw Hh) as Hfit.
    subst scaled. unfold thumbnail_image.
    change (width loaded) with (width source) in *.
    change (height loaded) with (height source) in *.
    destruct (Pillow.preserve_aspect_ratio (1024, 1024) (width source) (height source))
      as [ [ tw th ] | ].
    - destruct Hfit as (Hbig & Htw & Hth & Hlew & Hleh & Hasp).
      case_bool_decide as Hsame.
      + unfold im_size in Hsame. injection Hsame as Htw' Hth'.
        change (width loaded) with (width source) in *.
        change (height loaded) with (height source) in *.
        subst tw th. repeat split; first [ lia | done ].
      + simpl. repeat split; first [ lia | done ].
    - change (width loaded) with (width source). change (height loaded) with (height source).
      repeat split; first [ lia | done ]. }
  destruct Hsize as (Hbounds & Hle & Hnative & Haspect).
  split; [ | split; [ | split; [ | split; [ | split; [ | split; [ | split;
    [ | split; [ | split; [ | split; [ | split; [ | split ] ] ] ] ] ] ] ] ] ] ];
    try done.
  - rewrite Hfs. apply files_fs_after_icon.
  - intros Hplain. unfold finished. by rewrite Hplain.
  - pose proof (Z.div_mod (1024 - width scaled) 2 ltac:(lia)).
    pose proof (Z.mod_pos_bound (1024 - width scaled) 2 ltac:(lia)).
    pose proof (Z.div_mod (1024 - height scaled) 2 ltac:(lia)).
    pose proof (Z.mod_pos_bound (1024 - height scaled) 2 ltac:(lia)).
    subst x0 y0. repeat split; try lia; apply Z.div_pos; lia.
  - intros x y. subst canvas. unfold centered, Pillow.paste. cbv zeta. cbn [getpixel].
    fold scaled. fold x0 y0. rewrite (mode_thumbnail_image loaded (1024, 1024) : mode scaled = _).
    reflexivity.
  - intros p. apply blend_on_transparent_clear.
  - intros p. apply blend_on_transparent_opaque.
Qed.

(** C5: with [--rounded] and an explicit radius [r > 0], [r] itself is
    the corner radius of the 1024 canvas and of each of the five sizes:
    every mask is the rounded rectangle of radius [r]. *)
Theorem explicit_radius_used_verbatim args w w' :
  rounded args = true ->
  0 < radius args ->
  main args w = (w', Ok tt) ->
  (forall edge w0, corner_radius args edge w0 = (w0, Ok (radius args))) /\
  exists fmt source,
    files (fs w) !! src args = Some (ImageFile fmt source) /\
    let canvas := centered (Pillow.convert_RGBA source) in
    let icon := Pillow.putalpha canvas (rounded_mask (1024, 1024) (radius args)) in
    files (fs w') !! icon_path = Some (ImageFile PNG icon) /\
    forall s, In s SIZES ->
      files (fs w') !! sized_path s
      = Some (ImageFile PNG (Pillow.putalpha (resize_image icon (s, s))
                                             (rounded_mask (s, s) (radius args)))).
Proof.
  intros Hrounded Hradius Hrun.
  assert (Hused : forall edge, radius_used args edge = radius args).
  { intros edge. unfold radius_used. by destruct (Z.gtb_spec (radius args) 0); [ | lia ]. }
  split.
  { intros edge w0. unfold corner_radius.
    by destruct (Z.gtb_spec (radius args) 0); [ | lia ]. }
  destruct (main_returns _ _ _ Hrun) as (fmt & source & _ & Hfile & _ & Hfs & _).
  exists fmt, source. split; [ done | ]. cbv zeta. rewrite Hfs.
  assert (Hicon : icon_image args source
                  = Pillow.putalpha (centered (Pillow.convert_RGBA source))
                                    (rounded_mask (1024, 1024) (radius args))).
  { unfold icon_image, finished. rewrite Hrounded, Hused.
    by rewrite rounded_image_pos. }
  split.
  - by rewrite files_fs_after_icon, Hicon.
  - intros s Hs. rewrite files_fs_after_sized by done.
    unfold sized_image, finished. rewrite Hrounded, Hused, Hicon.
    rewrite rounded_image_pos by done. by rewrite im_size_resize_image.
Qed.

(** C6: for a positive radius [apply_rounded] returns a new object; the
    object passed in, and every other object, is left as it was.  The
    copy has the size and the colour bands of the input, and its alpha
    band is the mask alone: 255 where the rounded rectangle over the
    box [0, 0, width, height] covers the pixel and 0 elsewhere, whatever
    alpha the input had there. *)
Theorem apply_rounded_masks_a_copy w im I r :
  heap w !! im = Some I ->
  0 < r ->
  exists w' out O,
    apply_rounded im r w = (w', Ok out) /\
    heap w !! out = None /\
    heap w' !! im = Some I /\
    (forall l J, heap w !! l = Some J -> heap w' !! l = Some J) /\
    fs w' = fs w /\ stdout w' = stdout w /\
    heap w' !! out = Some O /\
    width O = width I /\ height O = height I /\
    forall x y,
      px_r (getpixel O x y) = px_r (getpixel I x y) /\
      px_g (getpixel O x y) = px_g (getpixel I x y) /\
      px_b (getpixel O x y) = px_b (getpixel I x y) /\
      px_a (getpixel O x y)
      = if rounded_rectangle_covers (0, 0, width I, height I) r x y then 255 else 0.
Proof.
  intros Him Hr.
  destruct (wp_elim (apply_rounded im r)
              (fun w' res =>
                 exists out, res = Ok out /\ heap w !! out = None /\
                             heap w ⊆ heap w' /\
                             heap w' !! out = Some (rounded_image I r) /\
                             fs w' = fs w /\ stdout w' = stdout w) w)
    as (w' & res & Hrun & out & -> & Hfresh & Hsub & Hout & Hfs & Hstdout).
  { eapply wp_apply_rounded_pos; [ done | done | ].
    intros h' out Hfresh Hsub Hout. by exists out. }
  exists w', out, (rounded_image I r).
  repeat match goal with |- _ /\ _ => split end; try done.
  - by eapply lookup_weaken.
  - intros l J Hl. by eapply lookup_weaken.
  - by rewrite rounded_image_pos.
  - by rewrite rounded_image_pos.
  - intros x y. rewrite rounded_image_pos by done. simpl.
    by destruct (rounded_rectangle_covers _ _ _ _).
Qed.

(** C7: after a run that returns, the file [{s}x{s}.png] of each of the
    five sizes holds a PNG image exactly [s] wide and [s] high. *)
Theorem sized_outputs_are_square args w w' s :
  main args w = (w', Ok tt) ->
  In s SIZES ->
  exists im,
    files (fs w') !! ("src-tauri/icons/" +:+ pretty s +:+ "x" +:+ pretty s +:+ ".png")
    = Some (ImageFile PNG im) /\
    width im = s /\ height im = s.
Proof.
  intros Hrun Hs.
  destruct (main_returns _ _ _ Hrun) as (fmt & source & _ & _ & _ & Hfs & _).
  exists (sized_image args source s).
  rewrite <- sized_path_literal, Hfs by done.
  split; [ by apply files_fs_after_sized | ].
  pose proof (im_size_finished args s (resize_image (icon_image args source) (s, s))) as Hsz.
  rewrite im_size_resize_image in Hsz. unfold im_size in Hsz.
  unfold sized_image. by injection Hsz.
Qed.

(** C8: two runs with the same flags whose source path holds the same
    image leave the same content in each of the six output files,
    whatever the two file systems held there before (or anywhere else). *)
Theorem runs_agree_on_outputs args w1 w2 w1' w2' :
  files (fs w1) !! src args = files (fs w2) !! src args ->
  main args w1 = (w1', Ok tt) ->
  main args w2 = (w2', Ok tt) ->
  forall p, In p output_paths ->
    files (fs w1') !! p = files (fs w2') !! p /\
    is_Some (files (fs w1') !! p).
Proof.
  intros Hsame Hrun1 Hrun2 p Hp.
  destruct (main_returns _ _ _ Hrun1) as (fmt1 & source1 & _ & Hfile1 & _ & Hfs1 & _).
  destruct (main_returns _ _ _ Hrun2) as (fmt2 & source2 & _ & Hfile2 & _ & Hfs2 & _).
  rewrite Hfile1, Hfile2 in Hsame. injection Hsame as _ <-.
  rewrite Hfs1, Hfs2. by apply files_fs_after_output.
Qed.

(** C9: with [--rounded], a radius that is not positive gives the run
    of radius 0: every radius is the automatic [int(edge * 0.2)].  And
    [apply_rounded] gives back the very object it was passed, with the
    world unchanged, when its radius is not positive. *)
Theorem nonpositive_radius_is_automatic path r w :
  r <= 0 ->
  main (mkArgs path true r) w = main (mkArgs path true 0) w /\
  (forall edge w0,
      corner_radius (mkArgs path true r) edge w0
      = py_int (PyFloat.mul (PyFloat.of_int edge) PyFloat.lit_0_2) w0) /\
  (forall im w0, apply_rounded im r w0 = (w0, Ok im)).
Proof.
  intros Hr.
  assert (Hgt : (r >? 0) = false) by (by destruct (Z.gtb_spec r 0); [ lia | ]).
  assert (Hle : (r <=? 0) = true) by (by destruct (Z.leb_spec r 0); [ | lia ]).
  split; [ | split ].
  - unfold main, corner_radius. cbn [src rounded radius]. by rewrite Hgt.
  - intros edge w0. unfold corner_radius. cbn [radius]. by rewrite Hgt.
  - intros im w0. unfold apply_rounded. by rewrite Hle.
Qed.

(** C10: without [--rounded] the radius changes nothing: two runs that
    differ only in [--radius] end in the same world with the same
    result, so all the files agree, and no image is masked. *)
Theorem radius_ignored_without_rounded path r1 r2 w :
  main (mkArgs path false r1) w = main (mkArgs path false r2) w /\
  (forall edge im, finished (mkArgs path false r1) edge im = im) /\
  (forall w' source fmt,
      main (mkArgs path false r1) w = (w', Ok tt) ->
      files (fs w) !! path = Some (ImageFile fmt source) ->
      let canvas := centered (Pillow.convert_RGBA source) in
      files (fs w') !! icon_path = Some (ImageFile PNG canvas) /\
      forall s, In s SIZES ->
        files (fs w') !! sized_path s
        = Some (ImageFile PNG (resize_image canvas (s, s)))).
Proof.
  split; [ reflexivity | split; [ reflexivity | ] ].
  intros w' source fmt Hrun Hfile.
  destruct (main_returns _ _ _ Hrun) as (fmt' & source' & _ & Hfile' & _ & Hfs & _).
  cbn [src] in Hfile'. rewrite Hfile in Hfile'. injection Hfile' as _ <-.
  cbv zeta. rewrite Hfs. split.
  - apply files_fs_after_icon.
  - intros s Hs. by rewrite files_fs_after_sized.
Qed.

(** ** Further properties of the script *)

(** *** Masks overwrite masks *)

Lemma im_size_rounded_image im r : im_size (rounded_image im r) = im_size im.
Proof. unfold rounded_image. by destruct (r <=? 0). Qed.

Lemma rounded_image_last_wins im r1 r2 :
  0 < r2 -> rounded_image (rounded_image im r1) r2 = rounded_image im r2.
Proof.
  intros Hr2. rewrite (rounded_image_pos _ r2 Hr2), (rounded_image_pos im r2 Hr2).
  rewrite im_size_rounded_image.
  unfold rounded_image. destruct (r1 <=? 0); [ done | ].
  unfold Pillow.putalpha. cbn [mode width height getpixel px_r px_g px_b].
  by destruct (mode im).
Qed.

Lemma rounded_image_twice im r : rounded_image (rounded_image im r) r = rounded_image im r.
Proof.
  destruct (Z_le_gt_dec r 0) as [ Hle | Hgt ].
  - unfold rounded_image. by destruct (Z.leb_spec r 0); [ | lia ].
  - apply rounded_image_last_wins. lia.
Qed.

Lemma radius_used_base args : radius_used args 1024 > 0.
Proof.
  unfold radius_used. destruct (Z.gtb_spec (radius args) 0); [ lia | ].
  vm_compute. reflexivity.
Qed.

Lemma radius_used_sizes args s : In s SIZES -> radius_used args s > 0.
Proof.
  intros Hs. unfold radius_used. destruct (Z.gtb_spec (radius args) 0); [ lia | ].
  unfold SIZES in Hs. simpl in Hs.
  destruct Hs as [ <- | [ <- | [ <- | [ <- | [ <- | [] ] ] ] ] ]; vm_compute; reflexivity.
Qed.

Lemma im_size_icon_image args source : im_size (icon_image args source) = (1024, 1024).
Proof. unfold icon_image. by rewrite im_size_finished. Qed.

Lemma sized_image_1024 args source : sized_image args source 1024 = icon_image args source.
Proof.
  unfold sized_image, resize_image.
  rewrite bool_decide_eq_true_2 by apply im_size_icon_image.
  unfold icon_image, finished. destruct (rounded args); [ | done ].
  apply rounded_image_twice.
Qed.

(** X1: in every run that returns, [1024x1024.png] holds the very image
    of [icon.png]: resizing the canvas to its own size copies it, and
    masking the copy again with the radius of the canvas changes
    nothing. *)
Theorem largest_size_repeats_icon args w w' :
  main args w = (w', Ok tt) ->
  files (fs w') !! "src-tauri/icons/1024x1024.png"
  = files (fs w') !! "src-tauri/icons/icon.png" /\
  is_Some (files (fs w') !! "src-tauri/icons/icon.png").
Proof.
  intros Hrun.
  destruct (main_returns _ _ _ Hrun) as (fmt & source & _ & _ & _ & Hfs & _).
  rewrite Hfs.
  change "src-tauri/icons/1024x1024.png" with (sized_path 1024).
  change "src-tauri/icons/icon.png" with icon_path.
  rewrite files_fs_after_icon, files_fs_after_sized by (simpl; tauto).
  by rewrite sized_image_1024.
Qed.

(** X2: masking a masked image: the second positive radius alone decides
    the result.  After [apply_rounded] with any radius [r1] and then with
    [r2 > 0], the last object holds what [apply_rounded] with [r2] leaves
    for the original, and the original is still what it was. *)
Theorem apply_rounded_last_radius_wins w im I r1 r2 :
  heap w !! im = Some I ->
  0 < r2 ->
  exists w1 out1 w2 out2 w3 out3,
    apply_rounded im r1 w = (w1, Ok out1) /\
    apply_rounded out1 r2 w1 = (w2, Ok out2) /\
    apply_rounded im r2 w = (w3, Ok out3) /\
    heap w2 !! out2 = heap w3 !! out3 /\
    is_Some (heap w2 !! out2) /\
    heap w2 !! im = Some I.
Proof.
  intros Him Hr2.
  destruct (wp_elim (apply_rounded im r2)
              (fun w3 res => exists out3, res = Ok out3 /\
                                          heap w3 !! out3 = Some (rounded_image I r2)) w)
    as (w3 & res3 & Hrun3 & out3 & -> & Hout3).
  { eapply wp_apply_rounded_pos; [ done | done | ].
    intros h' out _ _ Hout. by exists out. }
  destruct (wp_elim (apply_rounded im r1)
              (fun w1 res => exists out1, res = Ok out1 /\ heap w ⊆ heap w1 /\
                                          heap w1 !! out1 = Some (rounded_image I r1)) w)
    as (w1 & res1 & Hrun1 & out1 & -> & Hsub1 & Hout1).
  { destruct (Z_le_gt_dec r1 0) as [ Hle | Hgt ].
    - apply wp_apply_rounded_id; [ done | ]. exists im. split; [ done | split; [ done | ] ].
      rewrite Him. f_equal. unfold rounded_image. by destruct (Z.leb_spec r1 0); [ | lia ].
    - eapply wp_apply_rounded_pos; [ done | lia | ].
      intros h' out _ Hsub Hout. by exists out. }
  destruct (wp_elim (apply_rounded out1 r2)
              (fun w2 res => exists out2, res = Ok out2 /\ heap w1 ⊆ heap w2 /\
                               heap w2 !! out2
                               = Some (rounded_image (rounded_image I r1) r2)) w1)
    as (w2 & res2 & Hrun2 & out2 & -> & Hsub2 & Hout2).
  { eapply wp_apply_rounded_pos; [ done | done | ].
    intros h' out _ Hsub Hout. by exists out. }
  exists w1, out1, w2, out2, w3, out3.
  rewrite Hout2, Hout3, rounded_image_last_wins by done.
  repeat split; try done.
  eapply lookup_weaken; [ | exact Hsub2 ]. by eapply lookup_weaken.
Qed.

(** *** What masking and pasting do to transparency *)

Lemma alpha_rounded_image im r x y :
  0 < r ->
  px_a (getpixel (rounded_image im r) x y)
  = if rounded_rectangle_covers (0, 0, width im, height im) r x y then 255 else 0.
Proof.
  intros Hr. rewrite rounded_image_pos by done. simpl.
  by destruct (rounded_rectangle_covers _ _ _ _).
Qed.

(** X3: with [--rounded], the alpha band of every file a run writes is
    the mask of that file alone: 255 where the rounded rectangle of the
    file's size and radius covers the pixel, 0 elsewhere.  Nothing of the
    transparency of the source is left. *)
Theorem rounded_outputs_alpha_is_mask args w w' :
  rounded args = true ->
  main args w = (w', Ok tt) ->
  (exists icon,
      files (fs w') !! icon_path = Some (ImageFile PNG icon) /\
      forall x y,
        px_a (getpixel icon x y)
        = if rounded_rectangle_covers (0, 0, 1024, 1024) (radius_used args 1024) x y
          then 255 else 0) /\
  (forall s, In s SIZES ->
     exists im,
       files (fs w') !! sized_path s = Some (ImageFile PNG im) /\
       forall x y,
         px_a (getpixel im x y)
         = if rounded_rectangle_covers (0, 0, s, s) (radius_used args s) x y
           then 255 else 0).
Proof.
  intros Hrounded Hrun.
  destruct (main_returns _ _ _ Hrun) as (fmt & source & _ & _ & _ & Hfs & _).
  rewrite Hfs. split.
  - exists (icon_image args source). split; [ apply files_fs_after_icon | ].
    intros x y. unfold icon_image, finished. rewrite Hrounded.
    rewrite alpha_rounded_image by (pose proof (radius_used_base args); lia).
    reflexivity.
  - intros s Hs. exists (sized_image args source s).
    split; [ by apply files_fs_after_sized | ].
    intros x y. unfold sized_image, finished at 1. rewrite Hrounded.
    rewrite alpha_rounded_image by (pose proof (radius_used_sizes args s Hs); lia).
    pose proof (im_size_resize_image (icon_image args source) s) as Hsz.
    unfold im_size in Hsz. injection Hsz as -> ->. reflexivity.
Qed.

(** X4: with [--rounded], the margin the canvas leaves around the scaled
    source does not stay transparent in [icon.png]: outside the box of
    the source every pixel is black, and opaque wherever the rounded
    rectangle covers it. *)
Theorem rounded_margin_is_opaque_black args w w' fmt source :
  rounded args = true ->
  main args w = (w', Ok tt) ->
  files (fs w) !! src args = Some (ImageFile fmt source) ->
  let scaled := thumbnail_image (Pillow.convert_RGBA source) (1024, 1024) in
  let x0 := (1024 - width scaled) / 2 in
  let y0 := (1024 - height scaled) / 2 in
  exists icon,
    files (fs w') !! icon_path = Some (ImageFile PNG icon) /\
    forall x y,
      in_box x0 y0 (width scaled) (height scaled) x y = false ->
      getpixel icon x y
      = mkPixel 0 0 0
          (if rounded_rectangle_covers (0, 0, 1024, 1024) (radius_used args 1024) x y
           then 255 else 0).
Proof.
  intros Hrounded Hrun Hfile scaled x0 y0.
  destruct (main_returns _ _ _ Hrun) as (fmt' & source' & _ & Hfile' & _ & Hfs & _).
  rewrite Hfile in Hfile'. injection Hfile' as _ <-.
  exists (icon_image args source). rewrite Hfs.
  split; [ apply files_fs_after_icon | ].
  intros x y Hout. unfold icon_image, finished. rewrite Hrounded.
  rewrite rounded_image_pos by (pose proof (radius_used_base args); lia).
  unfold centered, Pillow.paste, Pillow.putalpha. cbv zeta.
  cbn [getpixel width height mode Pillow.new fst snd px_r px_g px_b].
  fold scaled. fold x0 y0. rewrite Hout.
  unfold rounded_mask, draw_rounded, im_size.
  cbn [getpixel width height mode Pillow.new fst snd px_r px_g px_b].
  by destruct (rounded_rectangle_covers _ _ _ _).
Qed.

Lemma DIV255_product_le v a :
  0 <= v <= 255 -> 0 <= a <= 255 -> 0 <= Pillow.DIV255 (v * a) <= v.
Proof.
  intros Hv Ha. unfold Pillow.DIV255. cbv zeta.
  rewrite !Z.shiftr_div_pow2 by lia. change (2 ^ 8) with 256.
  assert (Hva : 0 <= v * a <= 255 * v) by nia.
  pose proof (Z.div_mod (v * a + 128) 256 ltac:(lia)) as E1.
  pose proof (Z.mod_pos_bound (v * a + 128) 256 ltac:(lia)) as B1.
  set (q := (v * a + 128) / 256) in *.
  pose proof (Z.div_mod (q + (v * a + 128)) 256 ltac:(lia)) as E2.
  pose proof (Z.mod_pos_bound (q + (v * a + 128)) 256 ltac:(lia)) as B2.
  set (t := (q + (v * a + 128)) / 256) in *.
  lia.
Qed.

Lemma DIV255_square_lt a : 0 < a < 255 -> Pillow.DIV255 (a * a) < a.
Proof.
  intros Ha. unfold Pillow.DIV255. cbv zeta.
  rewrite !Z.shiftr_div_pow2 by lia. change (2 ^ 8) with 256.
  assert (Hsq : a * a <= 255 * a - 254) by nia.
  pose proof (Z.div_mod (a * a + 128) 256 ltac:(lia)) as E1.
  pose proof (Z.mod_pos_bound (a * a + 128) 256 ltac:(lia)) as B1.
  set (q := (a * a + 128) / 256) in *.
  pose proof (Z.div_mod (q + (a * a + 128)) 256 ltac:(lia)) as E2.
  pose proof (Z.mod_pos_bound (q + (a * a + 128)) 256 ltac:(lia)) as B2.
  set (t := (q + (a * a + 128)) / 256) in *.
  lia.
Qed.

(** X5: pasting the source with itself as mask squares its alpha.
    Without [--rounded], at a pixel where the scaled source has alpha [a]
    strictly between 0 and 255, [icon.png] has every band of the source
    scaled by [a]: the colour bands are no brighter than the source's and
    the alpha is strictly below [a], so semi-transparent pixels come out
    more transparent than they went in. *)
Theorem semi_transparent_pixels_fade args w w' fmt source x y :
  rounded args = false ->
  main args w = (w', Ok tt) ->
  files (fs w) !! src args = Some (ImageFile fmt source) ->
  let scaled := thumbnail_image (Pillow.convert_RGBA source) (1024, 1024) in
  let x0 := (1024 - width scaled) / 2 in
  let y0 := (1024 - height scaled) / 2 in
  let p := getpixel scaled (x - x0) (y - y0) in
  in_box x0 y0 (width scaled) (height scaled) x y = true ->
  0 < px_a p < 255 ->
  0 <= px_r p <= 255 -> 0 <= px_g p <= 255 -> 0 <= px_b p <= 255 ->
  exists icon,
    files (fs w') !! icon_path = Some (ImageFile PNG icon) /\
    getpixel icon x y
    = mkPixel (Pillow.DIV255 (px_r p * px_a p)) (Pillow.DIV255 (px_g p * px_a p))
              (Pillow.DIV255 (px_b p * px_a p)) (Pillow.DIV255 (px_a p * px_a p)) /\
    px_r (getpixel icon x y) <= px_r p /\
    px_g (getpixel icon x y) <= px_g p /\
    px_b (getpixel icon x y) <= px_b p /\
    px_a (getpixel icon x y) < px_a p.
Proof.
  intros Hplain Hrun Hfile scaled x0 y0 p Hin Ha Hr Hg Hb.
  destruct (main_returns _ _ _ Hrun) as (fmt' & source' & _ & Hfile' & _ & Hfs & _).
  rewrite Hfile in Hfile'. injection Hfile' as _ <-.
  exists (icon_image args source). rewrite Hfs.
  split; [ apply files_fs_after_icon | ].
  assert (Hpx : getpixel (icon_image args source) x y
                = mkPixel (Pillow.DIV255 (px_r p * px_a p)) (Pillow.DIV255 (px_g p * px_a p))
                    (Pillow.DIV255 (px_b p * px_a p)) (Pillow.DIV255 (px_a p * px_a p))).
  { unfold icon_image, finished. rewrite Hplain.
    unfold centered, Pillow.paste. cbv zeta. cbn [getpixel width height mode].
    fold scaled. fold x0 y0. rewrite Hin.
    rewrite (mode_thumbnail_image (Pillow.convert_RGBA source) (1024, 1024) : mode scaled = _).
    cbn [mode Pillow.convert_RGBA Pillow.mask_band Pillow.new getpixel].
    fold p. unfold Pillow.blend_pixel, Pillow.BLEND8. cbn [px_r px_g px_b px_a].
    rewrite !Z.mul_0_l, !Z.add_0_l. reflexivity. }
  rewrite Hpx. cbn [px_r px_g px_b px_a].
  split; [ done | ].
  pose proof (DIV255_product_le (px_r p) (px_a p) ltac:(lia) ltac:(lia)).
  pose proof (DIV255_product_le (px_g p) (px_a p) ltac:(lia) ltac:(lia)).
  pose proof (DIV255_product_le (px_b p) (px_a p) ltac:(lia) ltac:(lia)).
  pose proof (DIV255_square_lt (px_a p) Ha).
  lia.
Qed.

(** *** Runs that fail before anything is written *)

Lemma fs_isdir_with_out_dir_file f p :
  is_Some (files f !! p) -> fs_isdir f p = false -> fs_isdir (with_out_dir f) p = false.
Proof.
  intros Hfile Hdir. apply not_true_is_false. intros Hafter.
  apply fs_isdir_with_out_dir_exists in Hafter; [ congruence | ].
  unfold fs_exists, fs_isfile. rewrite bool_decide_eq_true_2 by done. apply orb_true_r.
Qed.

Lemma fs_exists_of_file f p : is_Some (files f !! p) -> fs_exists f p = true.
Proof.
  intros Hfile. unfold fs_exists, fs_isfile.
  rewrite bool_decide_eq_true_2 by done. apply orb_true_r.
Qed.

Lemma fs_exists_of_dir f p : fs_isdir f p = true -> fs_exists f p = true.
Proof. unfold fs_exists. by intros ->. Qed.

(** The start of [main] up to [Image.open], when the source exists and
    no regular file is in the way of the output directory. *)
Lemma wp_main_until_open args (Q : World -> Result unit -> Prop) w :
  fs_exists (fs w) (src args) = true ->
  fs_isfile (fs w) "src-tauri" = false ->
  fs_isfile (fs w) out_dir = false ->
  (fs_isdir (with_out_dir (fs w)) out_dir = true ->
   wp (bind (Image_open (src args)) (fun opened =>
         img <- Image_convert_RGBA opened ;;
         canvas <- Image_new ModeRGBA (1024, 1024) (mkPixel 0 0 0 0) ;;
         Image_thumbnail img (1024, 1024) ;;
         img_width <- Image_width img ;;
         img_height <- Image_height img ;;
         Image_paste canvas img ((1024 - img_width) / 2, (1024 - img_height) / 2) img ;;
         canvas <-
           (if rounded args
            then radius <- corner_radius args 1024 ;; apply_rounded canvas radius
            else ret canvas) ;;
         Image_save canvas (os_path_join out_dir "icon.png") PNG ;;
         for_each SIZES (fun s =>
           resized <- Image_resize canvas (s, s) ;;
           resized <-
             (if rounded args
              then r <- corner_radius args s ;; apply_rounded resized r
              else ret resized) ;;
           Image_save resized
             (os_path_join out_dir (pretty s +:+ "x" +:+ pretty s +:+ ".png")) PNG) ;;
         print ("Wrote icons to " +:+ out_dir)))
      Q (set_fs (with_out_dir (fs w)) w)) ->
  wp (main args) Q w.
Proof.
  intros Hfound Hhead Hname Hrest. unfold main. cbv zeta.
  apply wp_bind, wp_os_path_exists. rewrite Hfound. cbn [negb].
  apply wp_bind, wp_ret.
  apply wp_bind, wp_os_makedirs; [ intros [ H | H ]; congruence | ].
  exact Hrest.
Qed.

(** X6: a source that is a regular file but not a sound image stops
    the run on the line that opens it, after the output directory was
    made.  A file that no loader identifies makes [Image.open] raise
    [UnidentifiedImageError]; a file refused for its size makes it raise
    [DecompressionBombError]; a file that is identified but whose data
    cannot be read is opened, and [convert] then raises what [load]
    raises, [OSError] or [SyntaxError].  In each case the exit status is
    1, nothing is printed and no file is written, and the output
    directory stays. *)
Theorem undecodable_source_fails_after_mkdir args w data :
  files (fs w) !! src args = Some data ->
  is_image (fs w) (src args) = false ->
  fs_isdir (fs w) (src args) = false ->
  fs_isfile (fs w) "src-tauri" = false ->
  fs_isfile (fs w) out_dir = false ->
  exists w' e,
    main args w = (w', Raise e) /\
    e = match data with
        | DamagedFile _ fault => load_error fault
        | OversizedFile _ => DecompressionBombError
        | _ => UnidentifiedImageError
        end /\
    snd (Image_open (src args) w')
    = match data with
      | DamagedFile _ _ => Ok (Faulty e)
      | _ => Raise e
      end /\
    exit_status (snd (main args w)) = 1 /\
    stdout w' = stdout w /\
    files (fs w') = files (fs w) /\
    fs_isdir (fs w') "src-tauri/icons" = true /\
    journal (fs w')
    = journal (fs w)
      ++ map EvMkdir (List.filter (fun p => negb (fs_exists (fs w) p))
                                  ["src-tauri"; "src-tauri/icons"]).
Proof.
  intros Hfile Himage Hsrcdir Hhead Hname.
  unfold is_image in Himage. rewrite Hfile in Himage.
  set (e := match data with
            | DamagedFile _ fault => load_error fault
            | OversizedFile _ => DecompressionBombError
            | _ => UnidentifiedImageError
            end).
  assert (Hopen : forall w0, fs w0 = with_out_dir (fs w) ->
            Image_open (src args) w0
            = (w0, match data with
                   | DamagedFile _ _ => Ok (Faulty e)
                   | _ => Raise e
                   end)).
  { intros w0 Hfs. unfold Image_open. rewrite Hfs.
    rewrite fs_isdir_with_out_dir_file by done.
    rewrite files_with_out_dir, Hfile. by destruct data. }
  destruct (wp_elim (main args)
              (fun w' r => r = Raise e /\
                           w' = set_fs (with_out_dir (fs w)) w /\
                           fs_isdir (with_out_dir (fs w)) out_dir = true) w)
    as (w' & r & Hrun & -> & -> & Hdir).
  { apply wp_main_until_open; [ by apply fs_exists_of_file | done | done | ].
    intros Hdir. apply wp_bind. unfold wp at 1. rewrite Hopen by done. cbn [fst snd].
    destruct data; [ done | by apply wp_convert_faulty | done | done ]. }
  exists (set_fs (with_out_dir (fs w)) w), e.
  split; [ exact Hrun | ]. rewrite Hrun, Hopen by done. world_simpl.
  assert (He : exit_status (Raise e : Result unit) = 1) by (subst e; by destruct data as [ | ? [ | ] | | ]).
  repeat split; [ exact He | apply files_with_out_dir | exact Hdir | apply journal_with_out_dir ].
Qed.

(** X7: a source path that is a directory passes the existence test and
    stops the run at [Image.open] with [IsADirectoryError]; again only
    the output directory has been made. *)
Theorem directory_source_fails_after_mkdir args w :
  fs_isdir (fs w) (src args) = true ->
  fs_isfile (fs w) "src-tauri" = false ->
  fs_isfile (fs w) out_dir = false ->
  exists w',
    main args w = (w', Raise IsADirectoryError) /\
    exit_status (snd (main args w)) = 1 /\
    stdout w' = stdout w /\
    files (fs w') = files (fs w) /\
    fs_isdir (fs w') "src-tauri/icons" = true /\
    journal (fs w')
    = journal (fs w)
      ++ map EvMkdir (List.filter (fun p => negb (fs_exists (fs w) p))
                                  ["src-tauri"; "src-tauri/icons"]).
Proof.
  intros Hsrcdir Hhead Hname.
  destruct (wp_elim (main args)
              (fun w' r => r = Raise IsADirectoryError /\
                           w' = set_fs (with_out_dir (fs w)) w /\
                           fs_isdir (with_out_dir (fs w)) out_dir = true) w)
    as (w' & r & Hrun & -> & -> & Hdir).
  { apply wp_main_until_open; [ by apply fs_exists_of_dir | done | done | ].
    intros Hdir. unfold wp, bind, Image_open. world_simpl.
    assert (Hstill : fs_isdir (with_out_dir (fs w)) (src args) = true).
    { unfold with_out_dir. by do 2 apply fs_isdir_mkdir_missing. }
    rewrite Hstill. cbn [fst snd]. auto. }
  eexists. split; [ exact Hrun | ]. rewrite Hrun. world_simpl.
  repeat split; [ apply files_with_out_dir | exact Hdir | apply journal_with_out_dir ].
Qed.

(** X8: a regular file where a directory is needed stops the run in
    [os.makedirs], before the source is opened: [FileExistsError] when
    [src-tauri/icons] is a file in the directory [src-tauri],
    [NotADirectoryError] when [src-tauri] itself is a file.  The world
    is left exactly as it was. *)
Theorem file_in_the_way_changes_nothing args w :
  fs_exists (fs w) (src args) = true ->
  (fs_isdir (fs w) "src-tauri" = true /\
   fs_isfile (fs w) "src-tauri/icons" = true /\
   fs_isdir (fs w) "src-tauri/icons" = false) \/
  (fs_isfile (fs w) "src-tauri" = true /\
   fs_isdir (fs w) "src-tauri" = false /\
   fs_exists (fs w) "src-tauri/icons" = false) ->
  let e := if fs_isdir (fs w) "src-tauri" then FileExistsError else NotADirectoryError in
  main args w = (w, Raise e) /\
  exit_status (snd (main args w)) = 1.
Proof.
  intros Hfound Hblocked e.
  assert (Hrun : main args w = (w, Raise e)).
  { subst e. unfold main. cbv zeta. unfold os_makedirs.
    change (os_path_join "src-tauri" "icons") with "src-tauri/icons".
    change (String.length "src-tauri/icons") with 15%nat.
    simpl makedirs.
    unfold bind, try_except, os_path_exists, os_path_isdir, os_mkdir, ret, raise,
      parent_error, parent_ok.
    change (fst (os_path_split "src-tauri/icons")) with "src-tauri".
    rewrite Hfound. cbn [negb].
    destruct Hblocked as [ (Hhd & Hfile & Hdir) | (Hfile & Hhd & Hname) ].
    - rewrite (fs_exists_of_dir _ _ Hhd). cbn [negb andb].
      assert (Hname : fs_exists (fs w) "src-tauri/icons" = true).
      { unfold fs_exists. rewrite Hfile. apply orb_true_r. }
      rewrite Hname. cbv beta iota. cbn [is_OSError]. cbv beta iota.
      by rewrite Hdir, Hhd.
    - assert (Hhead : fs_exists (fs w) "src-tauri" = true).
      { unfold fs_exists. rewrite Hfile. apply orb_true_r. }
      assert (Hdir : fs_isdir (fs w) "src-tauri/icons" = false).
      { unfold fs_exists in Hname. by apply orb_false_elim in Hname as [ -> _ ]. }
      rewrite Hhead. cbn [negb andb]. rewrite Hname, Hhd, Hfile.
      change (bool_decide ("src-tauri" = "")) with false.
      change (bool_decide ("src-tauri" = "/")) with false.
      cbn [orb]. cbv beta iota. cbn [is_OSError]. cbv beta iota.
      by rewrite Hdir. }
  split; [ exact Hrun | ]. rewrite Hrun. subst e. by destruct (fs_isdir _ _).
Qed.

(** *** Runs that fail between two writes *)

(** The outputs written before the first one whose path is a directory,
    and whether there is none such. *)
Fixpoint written_before (f : FileSystem) (outs : list (string * FileData))
  : list (string * FileData) :=
  match outs with
  | [] => []
  | out :: rest => if fs_isdir f (fst out) then [] else out :: written_before f rest
  end.

Definition all_free (f : FileSystem) (outs : list (string * FileData)) : bool :=
  forallb (fun out => negb (fs_isdir f (fst out))) outs.

Lemma written_before_same_dirs f f' outs :
  dirs f' = dirs f -> written_before f' outs = written_before f outs.
Proof.
  intros Hdirs. induction outs as [ | out outs IH ]; [ done | ].
  simpl. unfold fs_isdir. rewrite Hdirs, IH. reflexivity.
Qed.

Lemma all_free_same_dirs f f' outs :
  dirs f' = dirs f -> all_free f' outs = all_free f outs.
Proof.
  intros Hdirs. unfold all_free. induction outs as [ | out outs IH ]; [ done | ].
  simpl. unfold fs_isdir at 1. rewrite Hdirs, IH. reflexivity.
Qed.

Lemma parent_ok_output f p :
  In p output_paths -> fs_isdir f out_dir = true -> parent_ok f p = true.
Proof.
  intros Hp Hdir. unfold parent_ok. rewrite (parent_of_output p Hp).
  change "src-tauri/icons" with out_dir. rewrite Hdir. apply orb_true_r.
Qed.

Lemma wp_for_sizes_exact args canvas C sizes :
  forall (Q : World -> Result unit -> Prop) w,
    heap w !! canvas = Some C ->
    (forall s, In s sizes -> radius_defined (radius args) s = true) ->
    (forall s, In s sizes -> parent_ok (fs w) (sized_path s) = true) ->
    (forall h',
        heap w ⊆ h' ->
        Q (mkWorld h' (write_all (written_before (fs w) (sized_outputs args C sizes)) (fs w))
                   (stdout w))
          (if all_free (fs w) (sized_outputs args C sizes)
           then Ok tt else Raise IsADirectoryError)) ->
    wp (for_each sizes (fun s =>
          resized <- Image_resize canvas (s, s) ;;
          resized <-
            (if rounded args
             then r <- corner_radius args s ;; apply_rounded resized r
             else ret resized) ;;
          Image_save resized
            (os_path_join out_dir (pretty s +:+ "x" +:+ pretty s +:+ ".png")) PNG)) Q w.
Proof.
  induction sizes as [ | s sizes IH ]; intros Q w Hcanvas Hradius Hparent HQ.
  - simpl. apply wp_ret. specialize (HQ (heap w) (reflexivity _)).
    by destruct w.
  - simpl for_each. apply wp_bind, wp_bind.
    eapply wp_Image_resize; [ exact Hcanvas | ]. intros out Hout.
    apply wp_bind. eapply wp_finished; [ heap_lookup | | ].
    { intros _ Hbad. rewrite Hradius in Hbad by (by left). done. }
    intros h' out' Hsub Hout'. world_simpl.
    assert (Hle : heap w ⊆ h').
    { etrans; [ | exact Hsub ]. by apply insert_subseteq. }
    unfold Image_save. apply wp_bind. wp_read.
    change (os_path_join out_dir (pretty s +:+ "x" +:+ pretty s +:+ ".png"))
      with (sized_path s).
    assert (HQ' : forall h'',
               heap w ⊆ h'' ->
               Q (mkWorld h''
                    (if fs_isdir (fs w) (sized_path s) then fs w
                     else write_all (written_before (fs w) (sized_outputs args C sizes))
                            (written (fs w) (sized_path s)
                               (ImageFile PNG (finished args s (resize_image C (s, s))))))
                    (stdout w))
                 (if fs_isdir (fs w) (sized_path s) then Raise IsADirectoryError
                  else if all_free (fs w) (sized_outputs args C sizes)
                       then Ok tt else Raise IsADirectoryError)).
    { intros h'' Hsub''. specialize (HQ h'' Hsub''). unfold all_free in HQ.
      cbn [sized_outputs map written_before forallb fst] in HQ.
      by destruct (fs_isdir (fs w) (sized_path s)). }
    unfold wp at 1, write_file, parent_error. world_simpl.
    rewrite (Hparent s) by (by left).
    destruct (fs_isdir (fs w) (sized_path s)) eqn:Hdir; cbn [fst snd].
    + by apply HQ'.
    + apply IH; world_simpl.
      * eapply lookup_weaken; [ exact Hcanvas | exact Hle ].
      * intros s' Hs'. apply Hradius. by right.
      * intros s' Hs'. apply (Hparent s'). by right.
      * intros h'' Hsub'.
        rewrite (written_before_same_dirs (fs w)), (all_free_same_dirs (fs w)) by done.
        apply HQ'. by etrans.
Qed.

(** [main] once the source is known to load: the outputs are written in
    order up to the first path that is a directory. *)
Lemma wp_main_loaded args (Q : World -> Result unit -> Prop) w fmt source :
  files (fs w) !! src args = Some (ImageFile fmt source) ->
  fs_isdir (fs w) (src args) = false ->
  fs_isfile (fs w) "src-tauri" = false ->
  fs_isfile (fs w) out_dir = false ->
  (forall h',
      fs_isdir (with_out_dir (fs w)) out_dir = true ->
      Q (mkWorld h'
           (write_all (written_before (with_out_dir (fs w)) (outputs args source))
                      (with_out_dir (fs w)))
           (if all_free (with_out_dir (fs w)) (outputs args source)
            then stdout w ++ ["Wrote icons to " +:+ out_dir] else stdout w))
        (if all_free (with_out_dir (fs w)) (outputs args source)
         then Ok tt else Raise IsADirectoryError)) ->
  wp (main args) Q w.
Proof.
  intros Hfile Hsrcdir Hhead Hname HQ.
  apply wp_main_until_open; [ by apply fs_exists_of_file | done | done | ].
  intros Hdir.
  apply wp_bind, wp_Image_open; world_simpl.
  { intros [ Hbad | Hbad ] e.
    - rewrite fs_isdir_with_out_dir_file in Hbad by done. done.
    - rewrite is_image_with_out_dir in Hbad. unfold is_image in Hbad.
      by rewrite Hfile in Hbad. }
  intros fmt' source' opened _ Hfile' Hopened.
  rewrite files_with_out_dir, Hfile in Hfile'. injection Hfile' as _ <-.
  unfold Image_convert_RGBA, Image_load. apply wp_bind, wp_bind, wp_ret, wp_bind. wp_read.
  wp_alloc_as img Himg. apply lookup_insert_None in Himg as [Himg Hne1].
  apply wp_bind. unfold Image_new. wp_alloc_as canvas Hcanvas.
  apply lookup_insert_None in Hcanvas as [Hcanvas Hne2].
  apply lookup_insert_None in Hcanvas as [Hcanvas Hne3].
  apply wp_bind. eapply wp_Image_thumbnail; [ heap_lookup | ]. world_simpl.
  unfold Image_width, Image_height.
  apply wp_bind, wp_bind. wp_read. apply wp_ret.
  apply wp_bind, wp_bind. wp_read. apply wp_ret.
  apply wp_bind. unfold Image_paste.
  apply wp_bind. wp_read. apply wp_bind. wp_read. apply wp_bind. wp_read.
  apply wp_assign. world_simpl.
  apply wp_bind. eapply wp_finished; [ heap_lookup | | ].
  { intros _ Hbad. rewrite radius_defined_sizes in Hbad by (by left). done. }
  intros h' out Hsub Hout. world_simpl.
  apply wp_bind. unfold Image_save. apply wp_bind. wp_read.
  change (os_path_join out_dir "icon.png") with icon_path.
  change (finished args 1024
            (Pillow.paste (Pillow.new ModeRGBA (1024, 1024) (mkPixel 0 0 0 0))
               (thumbnail_image (Pillow.convert_RGBA source) (1024, 1024))
               ((1024 - width (thumbnail_image (Pillow.convert_RGBA source) (1024, 1024))) / 2,
                (1024 - height (thumbnail_image (Pillow.convert_RGBA source) (1024, 1024))) / 2)
               (thumbnail_image (Pillow.convert_RGBA source) (1024, 1024))))
    with (icon_image args source) in Hout |- *.
  assert (HQ' : forall h'',
             Q (mkWorld h''
                  (if fs_isdir (with_out_dir (fs w)) icon_path then with_out_dir (fs w)
                   else write_all
                          (written_before (with_out_dir (fs w))
                             (sized_outputs args (icon_image args source) SIZES))
                          (written (with_out_dir (fs w)) icon_path
                             (ImageFile PNG (icon_image args source))))
                  (if fs_isdir (with_out_dir (fs w)) icon_path then stdout w
                   else if all_free (with_out_dir (fs w))
                             (sized_outputs args (icon_image args source) SIZES)
                        then stdout w ++ ["Wrote icons to " +:+ out_dir] else stdout w))
               (if fs_isdir (with_out_dir (fs w)) icon_path then Raise IsADirectoryError
                else if all_free (with_out_dir (fs w))
                          (sized_outputs args (icon_image args source) SIZES)
                     then Ok tt else Raise IsADirectoryError)).
  { intros h''. specialize (HQ h'' Hdir). unfold all_free, outputs in HQ.
    cbn [written_before forallb fst] in HQ.
    by destruct (fs_isdir (with_out_dir (fs w)) icon_path). }
  unfold wp at 1, write_file, parent_error. world_simpl.
  rewrite (parent_ok_output _ icon_path) by (done || (vm_compute; tauto)).
  destruct (fs_isdir (with_out_dir (fs w)) icon_path) eqn:Hicon; cbn [fst snd].
  { apply HQ'. }
  apply wp_bind. eapply wp_for_sizes_exact; world_simpl.
  - exact Hout.
  - intros s Hs. apply radius_defined_sizes. by right.
  - intros s Hs. apply parent_ok_output; [ by apply sized_path_output | exact Hdir ].
  - intros h'' Hsub'.
    rewrite (written_before_same_dirs (with_out_dir (fs w))),
      (all_free_same_dirs (with_out_dir (fs w))) by done.
    specialize (HQ' h'').
    destruct (all_free (with_out_dir (fs w))
                (sized_outputs args (icon_image args source) SIZES)).
    + apply wp_print. world_simpl. exact HQ'.
    + exact HQ'.
Qed.

Lemma fs_isdir_with_out_dir_output f p :
  In p output_paths -> fs_isdir (with_out_dir f) p = fs_isdir f p.
Proof.
  intros Hp. destruct (fs_isdir f p) eqn:Hdir.
  - unfold with_out_dir. by do 2 apply fs_isdir_mkdir_missing.
  - apply not_true_is_false. intros Hafter.
    destruct (fs_isdir_with_out_dir f p Hafter) as [ Hold | [ -> | -> ] ]; [ congruence | | ];
      unfold output_paths in Hp; simpl in Hp;
      destruct Hp as [ Hp | [ Hp | [ Hp | [ Hp | [ Hp | [ Hp | [] ] ] ] ] ] ]; discriminate Hp.
Qed.

Lemma written_before_with_out_dir args source f :
  written_before (with_out_dir f) (outputs args source)
  = written_before f (outputs args source) /\
  all_free (with_out_dir f) (outputs args source) = all_free f (outputs args source).
Proof.
  unfold all_free, outputs, sized_outputs.
  cbn [map SIZES written_before forallb fst].
  change icon_path with "src-tauri/icons/icon.png".
  change (sized_path 32) with "src-tauri/icons/32x32.png".
  change (sized_path 128) with "src-tauri/icons/128x128.png".
  change (sized_path 256) with "src-tauri/icons/256x256.png".
  change (sized_path 512) with "src-tauri/icons/512x512.png".
  change (sized_path 1024) with "src-tauri/icons/1024x1024.png".
  rewrite !fs_isdir_with_out_dir_output by (vm_compute; tauto).
  done.
Qed.

(** X9: when an output path is a directory the run stops there with
    [IsADirectoryError], without the confirmation line.  The files whose
    turn came before it, in the order [icon.png], 32, 128, 256, 512,
    1024, have been written and are left behind; no later one is
    attempted. *)
Theorem blocked_output_keeps_earlier_files args w fmt source :
  files (fs w) !! src args = Some (ImageFile fmt source) ->
  fs_isdir (fs w) (src args) = false ->
  fs_isfile (fs w) "src-tauri" = false ->
  fs_isfile (fs w) out_dir = false ->
  all_free (fs w) (outputs args source) = false ->
  exists w',
    main args w = (w', Raise IsADirectoryError) /\
    exit_status (snd (main args w)) = 1 /\
    stdout w' = stdout w /\
    fs w' = write_all (written_before (fs w) (outputs args source)) (with_out_dir (fs w)) /\
    journal (fs w')
    = journal (fs w)
      ++ map EvMkdir (List.filter (fun p => negb (fs_exists (fs w) p))
                                  ["src-tauri"; "src-tauri/icons"])
      ++ map (fun out => EvWrite (fst out) (snd out))
             (written_before (fs w) (outputs args source)).
Proof.
  intros Hfile Hsrcdir Hhead Hname Hblocked.
  destruct (written_before_with_out_dir args source (fs w)) as [ Hbefore Hfree ].
  destruct (wp_elim (main args)
              (fun w' r =>
                 r = Raise IsADirectoryError /\ stdout w' = stdout w /\
                 fs w' = write_all (written_before (fs w) (outputs args source))
                                   (with_out_dir (fs w))) w)
    as (w' & r & Hrun & -> & Hout & Hfs).
  { eapply wp_main_loaded; try done.
    intros h' _. rewrite Hbefore, Hfree, Hblocked. done. }
  exists w'. split; [ exact Hrun | ]. rewrite Hrun.
  split; [ done | split; [ done | split; [ done | ] ] ].
  by rewrite Hfs, journal_write_all, journal_with_out_dir, <- app_assoc.
Qed.

(** *** Runs that go through, and running again *)


Lemma is_image_lookup f p :
  is_image f p = true -> exists fmt im, files f !! p = Some (ImageFile fmt im).
Proof.
  unfold is_image. destruct (files f !! p) as [ [ fmt im | fmt fault | fmt | ] | ]; by eauto.
Qed.





(** X10: in a file system where the source is an image file, neither
    [src-tauri] nor [src-tauri/icons] is a regular file and no output
    path is a directory, the run returns with status 0 after printing
    the confirmation line, and each of the six output paths holds a PNG
    image. *)
Theorem ready_run_returns args w :
  can_run args (fs w) = true ->
  exists w',
    main args w = (w', Ok tt) /\
    exit_status (snd (main args w)) = 0 /\
    stdout w' = stdout w ++ ["Wrote icons to src-tauri/icons"] /\
    forall p, In p output_paths ->
      exists im, files (fs w') !! p = Some (ImageFile PNG im).
Proof.
  intros Hcan. destruct (main_runs args w Hcan) as (w' & Hrun).
  exists w'. split; [ exact Hrun | ]. rewrite Hrun. split; [ done | ].
  destruct (main_returns _ _ _ Hrun) as (fmt & source & _ & _ & _ & Hfs & Hout).
  split; [ exact Hout | ].
  intros p Hp. rewrite Hfs. unfold output_paths in Hp. simpl in Hp.
  destruct Hp as [ <- | [ <- | [ <- | [ <- | [ <- | [ <- | [] ] ] ] ] ] ].
  - eexists. apply files_fs_after_icon.
  - eexists. apply (files_fs_after_sized args source (fs w) 32). simpl. tauto.
  - eexists. apply (files_fs_after_sized args source (fs w) 128). simpl. tauto.
  - eexists. apply (files_fs_after_sized args source (fs w) 256). simpl. tauto.
  - eexists. apply (files_fs_after_sized args source (fs w) 512). simpl. tauto.
  - eexists. apply (files_fs_after_sized args source (fs w) 1024). simpl. tauto.
Qed.


(** *** What no run does *)

(** [fs_grows f f']: from [f] to [f'] only output paths changed their
    content, no file and no directory disappeared, the only directories
    that can be new are [src-tauri] and [src-tauri/icons], and the
    journal was only appended to. *)
Definition fs_grows (f f' : FileSystem) : Prop :=
  (forall p, ~ In p output_paths -> files f' !! p = files f !! p) /\
  (forall p, is_Some (files f !! p) -> is_Some (files f' !! p)) /\
  (forall p, fs_isdir f p = true -> fs_isdir f' p = true) /\
  (forall p, fs_isdir f' p = true ->
             fs_isdir f p = true \/ p = "src-tauri" \/ p = "src-tauri/icons") /\
  (exists events, journal f' = journal f ++ events).

Definition grows (w w' : World) : Prop :=
  fs_grows (fs w) (fs w') /\ exists lines, stdout w' = stdout w ++ lines.

(** A statement is confined when every run of it, whatever its result,
    ends in a world grown from the one it started in. *)
Definition confined {A} (m : M A) : Prop :=
  forall w w' r, m w = (w', r) -> grows w w'.

Lemma fs_grows_refl f : fs_grows f f.
Proof.
  repeat split; auto. exists []. by rewrite app_nil_r.
Qed.

Lemma fs_grows_trans f1 f2 f3 : fs_grows f1 f2 -> fs_grows f2 f3 -> fs_grows f1 f3.
Proof.
  intros (Hother1 & Hkeep1 & Hdir1 & Hnew1 & events1 & Hj1)
         (Hother2 & Hkeep2 & Hdir2 & Hnew2 & events2 & Hj2).
  split; [ | split; [ | split; [ | split ] ] ].
  - intros p Hp. by rewrite Hother2, Hother1.
  - auto.
  - auto.
  - intros p Hp. destruct (Hnew2 p Hp) as [ Hmid | Hnew ]; [ auto | tauto ].
  - exists (events1 ++ events2). by rewrite Hj2, Hj1, app_assoc.
Qed.

Lemma grows_refl w : grows w w.
Proof. split; [ apply fs_grows_refl | exists []; by rewrite app_nil_r ]. Qed.

Lemma grows_trans w1 w2 w3 : grows w1 w2 -> grows w2 w3 -> grows w1 w3.
Proof.
  intros [ Hfs1 (lines1 & Hout1) ] [ Hfs2 (lines2 & Hout2) ].
  split; [ by eapply fs_grows_trans | ].
  exists (lines1 ++ lines2). by rewrite Hout2, Hout1, app_assoc.
Qed.

Lemma grows_same w w' : fs w' = fs w -> stdout w' = stdout w -> grows w w'.
Proof.
  intros Hfs Hout. unfold grows. rewrite Hfs, Hout.
  split; [ apply fs_grows_refl | exists []; by rewrite app_nil_r ].
Qed.

Lemma confined_ret {A} (a : A) : confined (ret a).
Proof. intros w w' r [= <- _]. apply grows_refl. Qed.

Lemma confined_raise {A} e : confined (raise e : M A).
Proof. intros w w' r [= <- _]. apply grows_refl. Qed.

Lemma confined_bind {A B} (m : M A) (k : A -> M B) :
  confined m -> (forall a, confined (k a)) -> confined (bind m k).
Proof.
  intros Hm Hk w w' r. unfold bind.
  destruct (m w) as [ w1 [ a | e ] ] eqn:Hrun; intros Hrest.
  - eapply grows_trans; [ by eapply Hm | by eapply Hk ].
  - injection Hrest as <- _. by eapply Hm.
Qed.

Lemma confined_try_except {A} (m : M A) handles (h : Exn -> M A) :
  confined m -> (forall e, confined (h e)) -> confined (try_except m handles h).
Proof.
  intros Hm Hh w w' r. unfold try_except.
  destruct (m w) as [ w1 [ a | e ] ] eqn:Hrun; intros Hrest.
  - injection Hrest as <- _. by eapply Hm.
  - destruct (handles e).
    + eapply grows_trans; [ by eapply Hm | by eapply Hh ].
    + injection Hrest as <- _. by eapply Hm.
Qed.

Lemma confined_alloc im : confined (alloc im).
Proof. intros w w' r [= <- _]. by apply grows_same. Qed.

Lemma confined_deref l : confined (deref l).
Proof.
  intros w w' r. unfold deref. destruct (heap w !! l); intros [= <- _]; apply grows_refl.
Qed.

Lemma confined_assign l im : confined (assign l im).
Proof. intros w w' r [= <- _]. by apply grows_same. Qed.

Lemma confined_print line : confined (print line).
Proof.
  intros w w' r [= <- _]. split; [ apply fs_grows_refl | by exists [line] ].
Qed.

Lemma confined_os_path_exists p : confined (os_path_exists p).
Proof. intros w w' r [= <- _]. apply grows_refl. Qed.

Lemma confined_os_path_isdir p : confined (os_path_isdir p).
Proof. intros w w' r [= <- _]. apply grows_refl. Qed.

Lemma confined_py_int f : confined (py_int f).
Proof. unfold py_int. destruct (PyFloat.to_int f); [ apply confined_ret | apply confined_raise ]. Qed.

Lemma confined_Image_open p : confined (Image_open p).
Proof.
  intros w w' r. unfold Image_open.
  destruct (fs_isdir (fs w) p); [ intros [= <- _]; apply grows_refl | ].
  destruct (files (fs w) !! p) as [ [ fmt im | fmt fault | fmt | ] | ]; intros [= <- _];
    first [ apply grows_refl | by apply grows_same ].
Qed.

Lemma confined_Image_load o : confined (Image_load o).
Proof. destruct o; [ apply confined_ret | apply confined_raise ]. Qed.

(** The two statements that change the file system. *)
Lemma confined_os_mkdir p :
  p = "src-tauri" \/ p = "src-tauri/icons" -> confined (os_mkdir p).
Proof.
  intros Hp w w' r. unfold os_mkdir.
  destruct (fs_exists (fs w) p); [ intros [= <- _]; apply grows_refl | ].
  destruct (parent_error (fs w) p); intros [= <- _]; [ apply grows_refl | ].
  split; [ | exists []; by rewrite app_nil_r ]. cbn [fs set_fs].
  split; [ done | split; [ done | split; [ | split ] ] ].
  - intros q Hq. rewrite fs_isdir_made_dir, Hq. apply orb_true_r.
  - intros q. rewrite fs_isdir_made_dir, orb_true_iff, bool_decide_eq_true.
    intros [ <- | Hq ]; tauto.
  - by eexists.
Qed.

Lemma confined_write_file p data : In p output_paths -> confined (write_file p data).
Proof.
  intros Hp w w' r. unfold write_file.
  destruct (fs_isdir (fs w) p); [ intros [= <- _]; apply grows_refl | ].
  destruct (parent_error (fs w) p); intros [= <- _]; [ apply grows_refl | ].
  split; [ | exists []; by rewrite app_nil_r ]. cbn [fs set_fs]. unfold written.
  split; [ | split; [ | split; [ done | split; [ auto | by eexists ] ] ] ]; cbn [files].
  - intros q Hq. apply lookup_insert_ne. by intros ->.
  - intros q Hq. destruct (decide (p = q)) as [ <- | Hne ].
    + rewrite lookup_insert_eq. eauto.
    + by rewrite lookup_insert_ne.
Qed.

Ltac confined_step :=
  first
    [ apply confined_ret
    | apply confined_raise
    | apply confined_alloc
    | apply confined_deref
    | apply confined_assign
    | apply confined_print
    | apply confined_os_path_exists
    | apply confined_os_path_isdir
    | apply confined_py_int
    | apply confined_Image_open
    | apply confined_Image_load
    | apply confined_os_mkdir; tauto
    | apply confined_write_file; vm_compute; tauto
    | apply confined_bind; [ | intros ? ]
    | apply confined_try_except; [ | intros ? ]
    | match goal with |- confined (if ?b then _ else _) => destruct b end
    | match goal with |- confined (match ?x with _ => _ end) => destruct x end ].

Lemma confined_apply_rounded im r : confined (apply_rounded im r).
Proof.
  unfold apply_rounded, Image_size, Image_new, ImageDraw_Draw,
    ImageDraw_rounded_rectangle, Image_copy, Image_putalpha.
  repeat confined_step.
Qed.

Lemma confined_main args : confined (main args).
Proof.
  unfold main. cbv zeta. unfold os_makedirs.
  change (os_path_join "src-tauri" "icons") with "src-tauri/icons".
  change (String.length "src-tauri/icons") with 15%nat.
  simpl makedirs. cbn [for_each SIZES].
  unfold sys_exit, corner_radius, Image_convert_RGBA, Image_new, Image_thumbnail,
    Image_width, Image_height, Image_paste, Image_save, Image_resize.
  repeat first [ apply confined_apply_rounded | confined_step ].
Qed.

(** X12: whatever a run ends in (return, exit, exception), it has not
    changed what any path other than the six output paths holds, has
    removed no file and no directory, has made no directory other than
    [src-tauri] and [src-tauri/icons], and has only appended to standard
    output. *)
Theorem every_run_is_confined args w w' r :
  main args w = (w', r) ->
  (forall p, ~ In p output_paths -> files (fs w') !! p = files (fs w) !! p) /\
  (forall p, is_Some (files (fs w) !! p) -> is_Some (files (fs w') !! p)) /\
  (forall p, fs_isdir (fs w) p = true -> fs_isdir (fs w') p = true) /\
  (forall p, fs_isdir (fs w') p = true ->
             fs_isdir (fs w) p = true \/ p = "src-tauri" \/ p = "src-tauri/icons") /\
  (exists events, journal (fs w') = journal (fs w) ++ events) /\
  (exists lines, stdout w' = stdout w ++ lines).
Proof.
  intros Hrun.
  destruct (confined_main args w w' r Hrun) as [ (H1 & H2 & H3 & H4 & H5) H6 ].
  auto 10.
Qed.

(** X13: the source is read before anything is written, so a source
    that is itself one of the six output paths does not disturb the run:
    it returns, and that path then holds the icon computed from the image
    the path held before, in place of that image. *)
Theorem source_among_outputs_is_replaced args w :
  can_run args (fs w) = true ->
  In (src args) output_paths ->
  exists w' fmt source im,
    main args w = (w', Ok tt) /\
    files (fs w) !! src args = Some (ImageFile fmt source) /\
    In (src args, ImageFile PNG im) (outputs args source) /\
    files (fs w') !! src args = Some (ImageFile PNG im).
Proof.
  intros Hcan Hsrc. destruct (main_runs args w Hcan) as (w' & Hrun).
  destruct (main_returns _ _ _ Hrun) as (fmt & source & _ & Hfile & _ & Hfs & _).
  exists w', fmt, source. rewrite Hfs.
  unfold outputs, sized_outputs. cbn [map SIZES].
  unfold output_paths in Hsrc. simpl in Hsrc.
  destruct Hsrc as [ Hp | [ Hp | [ Hp | [ Hp | [ Hp | [ Hp | [] ] ] ] ] ] ]; rewrite <- Hp.
  - exists (icon_image args source).
    split; [ done | split; [ by rewrite Hp | split; [ by left | ] ] ].
    apply files_fs_after_icon.
  - exists (sized_image args source 32).
    split; [ done | split; [ by rewrite Hp | split; [ right; by left | ] ] ].
    apply (files_fs_after_sized args source (fs w) 32). simpl. tauto.
  - exists (sized_image args source 128).
    split; [ done | split; [ by rewrite Hp | split; [ do 2 right; by left | ] ] ].
    apply (files_fs_after_sized args source (fs w) 128). simpl. tauto.
  - exists (sized_image args source 256).
    split; [ done | split; [ by rewrite Hp | split; [ do 3 right; by left | ] ] ].
    apply (files_fs_after_sized args source (fs w) 256). simpl. tauto.
  - exists (sized_image args source 512).
    split; [ done | split; [ by rewrite Hp | split; [ do 4 right; by left | ] ] ].
    apply (files_fs_after_sized args source (fs w) 512). simpl. tauto.
  - exists (sized_image args source 1024).
    split; [ done | split; [ by rewrite Hp | split; [ do 5 right; by left | ] ] ].
    apply (files_fs_after_sized args source (fs w) 1024). simpl. tauto.
Qed.

End ConvertIcon.

(** ** The claims at sample inputs *)

Lemma run_pair {A} (m : M A) (w : World) (r : Result A) :
  snd (m w) = r -> m w = (fst (m w), r).
Proof. intros <-. by destruct (m w). Qed.

Abbreviation sample_main := (main Sample.nearest Sample.cross).

Lemma missing_source_exits_untouched_witness :
  fs_exists (fs Sample.world) "./missing.png" = false /\
  exists w' line,
    sample_main (mkArgs "./missing.png" true 0) Sample.world = (w', Raise (SystemExit 1)) /\
    exit_status (snd (sample_main (mkArgs "./missing.png" true 0) Sample.world)) = 1 /\
    fs w' = fs Sample.world /\
    heap w' = heap Sample.world /\
    stdout w' = stdout Sample.world ++ [line] /\
    line = "Source not found: ./missing.png" /\
    exists before after, line = before +:+ "Source not found" +:+ after.
Proof.
  split; [ vm_compute; reflexivity | ].
  apply (missing_source_exits_untouched Sample.nearest Sample.cross
           (mkArgs "./missing.png" true 0) Sample.world).
  vm_compute. reflexivity.
Defined.

(** C2 as the specification states it fails: for the 1024 output the code
    computes [int(1024 * 0.2) = 204], not [round(0.2 * 1024) = 205]. *)
Lemma automatic_radius_1024_is_not_rounded :
  claimed_radius 1024 = 205 /\
  corner_radius (mkArgs "logo.jpg" true 0) 1024 Sample.world = (Sample.world, Ok 204) /\
  ~ (forall args s w,
        rounded args = true -> radius args = 0 -> In s SIZES ->
        corner_radius args s w = (w, Ok (claimed_radius s))).
Proof.
  split; [ reflexivity | split; [ reflexivity | ] ].
  intros Hclaim.
  specialize (Hclaim (mkArgs "logo.jpg" true 0) 1024 Sample.world eq_refl eq_refl).
  assert (Hin : In 1024 SIZES) by (simpl; tauto).
  specialize (Hclaim Hin). vm_compute in Hclaim. discriminate Hclaim.
Qed.

Lemma automatic_radius_is_truncated_witness :
  let args := mkArgs "logo.jpg" true 0 in
  let w' := fst (sample_main args Sample.world) in
  rounded args = true /\ radius args = 0 /\
  sample_main args Sample.world = (w', Ok tt) /\
  (forall s w0, In s SIZES -> corner_radius args s w0 = (w0, Ok (s / 5))) /\
  map (fun s => s / 5) SIZES = [6; 25; 51; 102; 204].
Proof.
  intros args w'.
  assert (Hrun : sample_main args Sample.world = (w', Ok tt)).
  { apply run_pair. vm_compute. reflexivity. }
  split; [ reflexivity | split; [ reflexivity | split; [ exact Hrun | ] ] ].
  pose proof (automatic_radius_is_truncated Sample.nearest Sample.cross args Sample.world w'
                eq_refl eq_refl Hrun) as (Hradius & Hvalues & _).
  split; [ exact Hradius | exact Hvalues ].
Defined.

Lemma six_png_files_written_witness :
  let args := mkArgs "logo.jpg" false 0 in
  let w' := fst (sample_main args Sample.stale_world) in
  sample_main args Sample.stale_world = (w', Ok tt) /\
  exists images,
    length images = 6%nat /\
    journal (fs w')
    = journal (fs Sample.stale_world)
      ++ map EvMkdir (List.filter (fun p => negb (fs_exists (fs Sample.stale_world) p))
                                  ["src-tauri"; "src-tauri/icons"])
      ++ map (fun out => EvWrite (fst out) (ImageFile PNG (snd out)))
             (combine output_paths images) /\
    (forall p im, In (p, im) (combine output_paths images) ->
                  files (fs w') !! p = Some (ImageFile PNG im)) /\
    (forall p, ~ In p output_paths ->
               files (fs w') !! p = files (fs Sample.stale_world) !! p) /\
    fs_isdir (fs w') "src-tauri/icons" = true /\
    (fs_isfile (fs Sample.stale_world) "src-tauri" = false ->
     fs_isdir (fs w') "src-tauri" = true) /\
    (forall p, fs_isdir (fs w') p = true ->
               fs_isdir (fs Sample.stale_world) p = true
               \/ p = "src-tauri" \/ p = "src-tauri/icons").
Proof.
  intros args w'.
  assert (Hrun : sample_main args Sample.stale_world = (w', Ok tt)).
  { apply run_pair. vm_compute. reflexivity. }
  split; [ exact Hrun | ].
  exact (six_png_files_written Sample.nearest Sample.cross args Sample.stale_world w' Hrun).
Defined.

Lemma canvas_centres_the_source_witness :
  let args := mkArgs "logo.jpg" false 0 in
  let w' := fst (sample_main args Sample.world) in
  sample_main args Sample.world = (w', Ok tt) /\
  files (fs Sample.world) !! "logo.jpg" = Some (ImageFile (OtherFormat "JPEG") Sample.photo) /\
  1 <= width Sample.photo < 2 ^ 31 /\ 1 <= height Sample.photo < 2 ^ 31 /\
  files (fs w') !! icon_path
  = Some (ImageFile PNG (centered Sample.nearest (Pillow.convert_RGBA Sample.photo))) /\
  im_size (thumbnail_image Sample.nearest (Pillow.convert_RGBA Sample.photo) (1024, 1024))
  = (1024, 512).
Proof.
  intros args w'.
  assert (Hrun : sample_main args Sample.world = (w', Ok tt)).
  { apply run_pair. vm_compute. reflexivity. }
  assert (Hfile : files (fs Sample.world) !! src args
                  = Some (ImageFile (OtherFormat "JPEG") Sample.photo)).
  { vm_compute. reflexivity. }
  assert (Hw : 1 <= width Sample.photo < 2 ^ 31) by (simpl; lia).
  assert (Hh : 1 <= height Sample.photo < 2 ^ 31) by (simpl; lia).
  split; [ exact Hrun | split; [ exact Hfile | split; [ exact Hw | split; [ exact Hh | ] ] ] ].
  pose proof (canvas_centres_the_source Sample.nearest Sample.cross args Sample.world w'
                (OtherFormat "JPEG") Sample.photo Hrun Hfile Hw Hh) as (Hicon & Hplain & _).
  split; [ | vm_compute; reflexivity ].
  rewrite Hicon, Hplain; reflexivity.
Defined.

Lemma explicit_radius_used_verbatim_witness :
  let args := mkArgs "logo.jpg" true 100 in
  let w' := fst (sample_main args Sample.world) in
  rounded args = true /\ 0 < radius args /\
  sample_main args Sample.world = (w', Ok tt) /\
  (forall edge w0, corner_radius args edge w0 = (w0, Ok 100)).
Proof.
  intros args w'.
  assert (Hrun : sample_main args Sample.world = (w', Ok tt)).
  { apply run_pair. vm_compute. reflexivity. }
  assert (Hpos : 0 < radius args) by (simpl; lia).
  split; [ reflexivity | split; [ exact Hpos | split; [ exact Hrun | ] ] ].
  exact (proj1 (explicit_radius_used_verbatim Sample.nearest Sample.cross args Sample.world w'
                  eq_refl Hpos Hrun)).
Defined.

Lemma apply_rounded_masks_a_copy_witness :
  let w := mkWorld {[ 1%positive := Sample.sticker ]} (fs Sample.world) [] in
  heap w !! 1%positive = Some Sample.sticker /\ 0 < 40 /\
  exists w' out O,
    apply_rounded Sample.cross 1 40 w = (w', Ok out) /\
    heap w !! out = None /\
    heap w' !! 1%positive = Some Sample.sticker /\
    (forall l J, heap w !! l = Some J -> heap w' !! l = Some J) /\
    fs w' = fs w /\ stdout w' = stdout w /\
    heap w' !! out = Some O /\
    width O = 300 /\ height O = 200 /\
    forall x y,
      px_r (getpixel O x y) = 10 /\
      px_g (getpixel O x y) = 20 /\
      px_b (getpixel O x y) = 30 /\
      px_a (getpixel O x y) = if Sample.cross (0, 0, 300, 200) 40 x y then 255 else 0.
Proof.
  intros w.
  assert (Him : heap w !! 1%positive = Some Sample.sticker) by reflexivity.
  assert (Hr : 0 < 40) by lia.
  split; [ exact Him | split; [ exact Hr | ] ].
  exact (apply_rounded_masks_a_copy Sample.cross w 1%positive Sample.sticker 40 Him Hr).
Defined.

Lemma sized_outputs_are_square_witness :
  let args := mkArgs "sticker.png" true 0 in
  let w' := fst (sample_main args Sample.world) in
  sample_main args Sample.world = (w', Ok tt) /\ In 512 SIZES /\
  exists im,
    files (fs w') !! "src-tauri/icons/512x512.png" = Some (ImageFile PNG im) /\
    width im = 512 /\ height im = 512.
Proof.
  intros args w'.
  assert (Hrun : sample_main args Sample.world = (w', Ok tt)).
  { apply run_pair. vm_compute. reflexivity. }
  assert (Hin : In 512 SIZES) by (simpl; tauto).
  split; [ exact Hrun | split; [ exact Hin | ] ].
  exact (sized_outputs_are_square Sample.nearest Sample.cross args Sample.world w' 512 Hrun Hin).
Defined.

Lemma runs_agree_on_outputs_witness :
  let args := mkArgs "logo.jpg" true 64 in
  let w1' := fst (sample_main args Sample.world) in
  let w2' := fst (sample_main args Sample.stale_world) in
  files (fs Sample.world) !! "logo.jpg" = files (fs Sample.stale_world) !! "logo.jpg" /\
  sample_main args Sample.world = (w1', Ok tt) /\
  sample_main args Sample.stale_world = (w2', Ok tt) /\
  forall p, In p output_paths ->
    files (fs w1') !! p = files (fs w2') !! p /\ is_Some (files (fs w1') !! p).
Proof.
  intros args w1' w2'.
  assert (Hsame : files (fs Sample.world) !! src args
                  = files (fs Sample.stale_world) !! src args).
  { vm_compute. reflexivity. }
  assert (Hrun1 : sample_main args Sample.world = (w1', Ok tt)).
  { apply run_pair. vm_compute. reflexivity. }
  assert (Hrun2 : sample_main args Sample.stale_world = (w2', Ok tt)).
  { apply run_pair. vm_compute. reflexivity. }
  split; [ exact Hsame | split; [ exact Hrun1 | split; [ exact Hrun2 | ] ] ].
  exact (runs_agree_on_outputs Sample.nearest Sample.cross args
           Sample.world Sample.stale_world w1' w2' Hsame Hrun1 Hrun2).
Defined.

Lemma nonpositive_radius_is_automatic_witness :
  -5 <= 0 /\
  sample_main (mkArgs "logo.jpg" true (-5)) Sample.world
  = sample_main (mkArgs "logo.jpg" true 0) Sample.world /\
  (forall edge w0,
      corner_radius (mkArgs "logo.jpg" true (-5)) edge w0
      = py_int (PyFloat.mul (PyFloat.of_int edge) PyFloat.lit_0_2) w0) /\
  (forall im w0, apply_rounded Sample.cross im (-5) w0 = (w0, Ok im)).
Proof.
  assert (Hr : -5 <= 0) by lia.
  split; [ exact Hr | ].
  exact (nonpositive_radius_is_automatic Sample.nearest Sample.cross
           "logo.jpg" (-5) Sample.world Hr).
Defined.

(** ** The further properties at sample inputs *)

(** Working directories in which a run meets trouble: a source that is
    not an image, a source that is a directory, a regular file named
    [src-tauri/icons], a directory named [256x256.png], and a source that
    is the icon of an earlier build. *)
Module Cases.

Definition glass : Image :=
  mkImage ModeRGBA 300 200 (fun x y => mkPixel 200 100 50 128).

Definition glass_world : World :=
  mkWorld ∅ (mkFS ∅ {[ "glass.png" := ImageFile PNG glass ]} []) [].

(** A text file, a PNG cut short and a PNG of too many pixels. *)
Definition notes_world : World :=
  mkWorld ∅
          (mkFS ∅ (<["torn.png" := DamagedFile PNG BrokenStream]>
                     (<["huge.png" := OversizedFile PNG]>
                        {[ "notes.txt" := OpaqueFile ]})) [])
          [].

Definition folder_world : World :=
  mkWorld ∅ (mkFS {[ "assets" ]} ∅ []) [].

Definition clogged_world : World :=
  mkWorld ∅
          (mkFS {[ "src-tauri" ]}
                (<["src-tauri/icons" := OpaqueFile]>
                   {[ "logo.jpg" := ImageFile (OtherFormat "JPEG") Sample.photo ]}) [])
          [].

Definition blocked_world : World :=
  mkWorld ∅
          (mkFS {[ "src-tauri"; "src-tauri/icons"; "src-tauri/icons/256x256.png" ]}
                {[ "logo.jpg" := ImageFile (OtherFormat "JPEG") Sample.photo ]} [])
          [].

Definition rebuilt_world : World :=
  mkWorld ∅
          (mkFS {[ "src-tauri"; "src-tauri/icons" ]}
                {[ "src-tauri/icons/icon.png" := ImageFile PNG Sample.sticker ]} [])
          [].

End Cases.

Lemma largest_size_repeats_icon_witness :
  let args := mkArgs "logo.jpg" true 0 in
  let w' := fst (sample_main args Sample.world) in
  sample_main args Sample.world = (w', Ok tt) /\
  files (fs w') !! "src-tauri/icons/1024x1024.png"
  = files (fs w') !! "src-tauri/icons/icon.png" /\
  is_Some (files (fs w') !! "src-tauri/icons/icon.png").
Proof.
  intros args w'.
  assert (Hrun : sample_main args Sample.world = (w', Ok tt)).
  { apply run_pair. vm_compute. reflexivity. }
  split; [ exact Hrun | ].
  exact (largest_size_repeats_icon Sample.nearest Sample.cross args Sample.world w' Hrun).
Defined.

Lemma apply_rounded_last_radius_wins_witness :
  let w := mkWorld {[ 1%positive := Sample.sticker ]} (fs Sample.world) [] in
  heap w !! 1%positive = Some Sample.sticker /\ 0 < 6 /\
  exists w1 out1 w2 out2 w3 out3,
    apply_rounded Sample.cross 1 204 w = (w1, Ok out1) /\
    apply_rounded Sample.cross out1 6 w1 = (w2, Ok out2) /\
    apply_rounded Sample.cross 1 6 w = (w3, Ok out3) /\
    heap w2 !! out2 = heap w3 !! out3 /\
    is_Some (heap w2 !! out2) /\
    heap w2 !! 1%positive = Some Sample.sticker.
Proof.
  intros w.
  assert (Him : heap w !! 1%positive = Some Sample.sticker) by reflexivity.
  assert (Hr : 0 < 6) by lia.
  split; [ exact Him | split; [ exact Hr | ] ].
  exact (apply_rounded_last_radius_wins Sample.cross w 1%positive Sample.sticker 204 6 Him Hr).
Defined.

Lemma rounded_outputs_alpha_is_mask_witness :
  let args := mkArgs "sticker.png" true 0 in
  let w' := fst (sample_main args Sample.world) in
  rounded args = true /\
  sample_main args Sample.world = (w', Ok tt) /\
  exists icon,
    files (fs w') !! icon_path = Some (ImageFile PNG icon) /\
    forall x y,
      px_a (getpixel icon x y)
      = if Sample.cross (0, 0, 1024, 1024) 204 x y then 255 else 0.
Proof.
  intros args w'.
  assert (Hrun : sample_main args Sample.world = (w', Ok tt)).
  { apply run_pair. vm_compute. reflexivity. }
  split; [ reflexivity | split; [ exact Hrun | ] ].
  exact (proj1 (rounded_outputs_alpha_is_mask Sample.nearest Sample.cross args
                  Sample.world w' eq_refl Hrun)).
Defined.

Lemma rounded_margin_is_opaque_black_witness :
  let args := mkArgs "sticker.png" true 0 in
  let w' := fst (sample_main args Sample.world) in
  rounded args = true /\
  sample_main args Sample.world = (w', Ok tt) /\
  files (fs Sample.world) !! "sticker.png" = Some (ImageFile PNG Sample.sticker) /\
  exists icon,
    files (fs w') !! icon_path = Some (ImageFile PNG icon) /\
    forall x y,
      in_box 362 412 300 200 x y = false ->
      getpixel icon x y
      = mkPixel 0 0 0 (if Sample.cross (0, 0, 1024, 1024) 204 x y then 255 else 0).
Proof.
  intros args w'.
  assert (Hrun : sample_main args Sample.world = (w', Ok tt)).
  { apply run_pair. vm_compute. reflexivity. }
  assert (Hfile : files (fs Sample.world) !! src args
                  = Some (ImageFile PNG Sample.sticker)).
  { vm_compute. reflexivity. }
  split; [ reflexivity | split; [ exact Hrun | split; [ exact Hfile | ] ] ].
  exact (rounded_margin_is_opaque_black Sample.nearest Sample.cross args Sample.world w'
           PNG Sample.sticker eq_refl Hrun Hfile).
Defined.

Lemma semi_transparent_pixels_fade_witness :
  let args := mkArgs "glass.png" false 0 in
  let w' := fst (sample_main args Cases.glass_world) in
  rounded args = false /\
  sample_main args Cases.glass_world = (w', Ok tt) /\
  files (fs Cases.glass_world) !! "glass.png" = Some (ImageFile PNG Cases.glass) /\
  exists icon,
    files (fs w') !! icon_path = Some (ImageFile PNG icon) /\
    getpixel icon 400 500 = mkPixel 100 50 25 64.
Proof.
  intros args w'.
  assert (Hrun : sample_main args Cases.glass_world = (w', Ok tt)).
  { apply run_pair. vm_compute. reflexivity. }
  assert (Hfile : files (fs Cases.glass_world) !! src args
                  = Some (ImageFile PNG Cases.glass)).
  { vm_compute. reflexivity. }
  split; [ reflexivity | split; [ exact Hrun | split; [ exact Hfile | ] ] ].
  destruct (semi_transparent_pixels_fade Sample.nearest Sample.cross args
              Cases.glass_world w' PNG Cases.glass 400 500 eq_refl Hrun Hfile)
    as (icon & Hicon & Hpixel & _).
  - vm_compute. reflexivity.
  - vm_compute. split; reflexivity.
  - vm_compute. split; discriminate.
  - vm_compute. split; discriminate.
  - vm_compute. split; discriminate.
  - exists icon. split; [ exact Hicon | ]. rewrite Hpixel. vm_compute. reflexivity.
Defined.

Example unsound_sources_raise :
  map (fun p => snd (sample_main (mkArgs p false 0) Cases.notes_world))
      ["notes.txt"; "huge.png"; "torn.png"]
  = [Raise UnidentifiedImageError; Raise DecompressionBombError; Raise OSError].
Proof. vm_compute. reflexivity. Qed.

Lemma undecodable_source_fails_after_mkdir_witness :
  let args := mkArgs "torn.png" false 0 in
  files (fs Cases.notes_world) !! src args = Some (DamagedFile PNG BrokenStream) /\
  is_image (fs Cases.notes_world) (src args) = false /\
  fs_isdir (fs Cases.notes_world) (src args) = false /\
  fs_isfile (fs Cases.notes_world) "src-tauri" = false /\
  fs_isfile (fs Cases.notes_world) out_dir = false /\
  exists w',
    sample_main args Cases.notes_world = (w', Raise OSError) /\
    snd (Image_open (src args) w') = Ok (Faulty OSError) /\
    exit_status (snd (sample_main args Cases.notes_world)) = 1 /\
    stdout w' = [] /\
    files (fs w') = files (fs Cases.notes_world) /\
    fs_isdir (fs w') "src-tauri/icons" = true /\
    journal (fs w') = [EvMkdir "src-tauri"; EvMkdir "src-tauri/icons"].
Proof.
  intros args.
  assert (H1 : files (fs Cases.notes_world) !! src args = Some (DamagedFile PNG BrokenStream))
    by (vm_compute; reflexivity).
  assert (H0 : is_image (fs Cases.notes_world) (src args) = false)
    by (vm_compute; reflexivity).
  assert (H2 : fs_isdir (fs Cases.notes_world) (src args) = false)
    by (vm_compute; reflexivity).
  assert (H3 : fs_isfile (fs Cases.notes_world) "src-tauri" = false)
    by (vm_compute; reflexivity).
  assert (H4 : fs_isfile (fs Cases.notes_world) out_dir = false)
    by (vm_compute; reflexivity).
  split; [ exact H1 | split; [ exact H0 | split; [ exact H2 | split; [ exact H3 | split;
    [ exact H4 | ] ] ] ] ].
  destruct (undecodable_source_fails_after_mkdir Sample.nearest Sample.cross args
              Cases.notes_world _ H1 H0 H2 H3 H4)
    as (w' & e & Hrun & -> & Hopen & Hrest).
  exists w'. split; [ exact Hrun | split; [ exact Hopen | exact Hrest ] ].
Defined.

Lemma directory_source_fails_after_mkdir_witness :
  let args := mkArgs "assets" false 0 in
  fs_isdir (fs Cases.folder_world) (src args) = true /\
  fs_isfile (fs Cases.folder_world) "src-tauri" = false /\
  fs_isfile (fs Cases.folder_world) out_dir = false /\
  exists w',
    sample_main args Cases.folder_world = (w', Raise IsADirectoryError) /\
    exit_status (snd (sample_main args Cases.folder_world)) = 1 /\
    stdout w' = [] /\
    files (fs w') = files (fs Cases.folder_world) /\
    fs_isdir (fs w') "src-tauri/icons" = true /\
    journal (fs w') = [EvMkdir "src-tauri"; EvMkdir "src-tauri/icons"].
Proof.
  intros args.
  assert (H1 : fs_isdir (fs Cases.folder_world) (src args) = true)
    by (vm_compute; reflexivity).
  assert (H2 : fs_isfile (fs Cases.folder_world) "src-tauri" = false)
    by (vm_compute; reflexivity).
  assert (H3 : fs_isfile (fs Cases.folder_world) out_dir = false)
    by (vm_compute; reflexivity).
  split; [ exact H1 | split; [ exact H2 | split; [ exact H3 | ] ] ].
  exact (directory_source_fails_after_mkdir Sample.nearest Sample.cross args
           Cases.folder_world H1 H2 H3).
Defined.

Lemma file_in_the_way_changes_nothing_witness :
  let args := mkArgs "logo.jpg" true 0 in
  fs_exists (fs Cases.clogged_world) (src args) = true /\
  fs_isdir (fs Cases.clogged_world) "src-tauri" = true /\
  fs_isfile (fs Cases.clogged_world) "src-tauri/icons" = true /\
  fs_isdir (fs Cases.clogged_world) "src-tauri/icons" = false /\
  sample_main args Cases.clogged_world = (Cases.clogged_world, Raise FileExistsError) /\
  exit_status (snd (sample_main args Cases.clogged_world)) = 1.
Proof.
  intros args.
  assert (H1 : fs_exists (fs Cases.clogged_world) (src args) = true)
    by (vm_compute; reflexivity).
  assert (H2 : fs_isdir (fs Cases.clogged_world) "src-tauri" = true)
    by (vm_compute; reflexivity).
  assert (H3 : fs_isfile (fs Cases.clogged_world) "src-tauri/icons" = true)
    by (vm_compute; reflexivity).
  assert (H4 : fs_isdir (fs Cases.clogged_world) "src-tauri/icons" = false)
    by (vm_compute; reflexivity).
  split; [ exact H1 | split; [ exact H2 | split; [ exact H3 | split; [ exact H4 | ] ] ] ].
  pose proof (file_in_the_way_changes_nothing Sample.nearest Sample.cross args
                Cases.clogged_world H1 (or_introl (conj H2 (conj H3 H4)))) as Hstop.
  cbv zeta in Hstop. rewrite H2 in Hstop. exact Hstop.
Defined.

Lemma blocked_output_keeps_earlier_files_witness :
  let args := mkArgs "logo.jpg" false 0 in
  files (fs Cases.blocked_world) !! src args
  = Some (ImageFile (OtherFormat "JPEG") Sample.photo) /\
  fs_isdir (fs Cases.blocked_world) (src args) = false /\
  fs_isfile (fs Cases.blocked_world) "src-tauri" = false /\
  fs_isfile (fs Cases.blocked_world) out_dir = false /\
  all_free (fs Cases.blocked_world) (outputs Sample.nearest Sample.cross args Sample.photo)
  = false /\
  map fst (written_before (fs Cases.blocked_world)
             (outputs Sample.nearest Sample.cross args Sample.photo))
  = ["src-tauri/icons/icon.png"; "src-tauri/icons/32x32.png";
     "src-tauri/icons/128x128.png"] /\
  exists w',
    sample_main args Cases.blocked_world = (w', Raise IsADirectoryError) /\
    exit_status (snd (sample_main args Cases.blocked_world)) = 1 /\
    stdout w' = [].
Proof.
  intros args.
  assert (H1 : files (fs Cases.blocked_world) !! src args
               = Some (ImageFile (OtherFormat "JPEG") Sample.photo))
    by (vm_compute; reflexivity).
  assert (H2 : fs_isdir (fs Cases.blocked_world) (src args) = false)
    by (vm_compute; reflexivity).
  assert (H3 : fs_isfile (fs Cases.blocked_world) "src-tauri" = false)
    by (vm_compute; reflexivity).
  assert (H4 : fs_isfile (fs Cases.blocked_world) out_dir = false)
    by (vm_compute; reflexivity).
  assert (H5 : all_free (fs Cases.blocked_world)
                 (outputs Sample.nearest Sample.cross args Sample.photo) = false)
    by (vm_compute; reflexivity).
  split; [ exact H1 | split; [ exact H2 | split; [ exact H3 | split; [ exact H4 | ] ] ] ].
  split; [ exact H5 | split; [ vm_compute; reflexivity | ] ].
  destruct (blocked_output_keeps_earlier_files Sample.nearest Sample.cross args
              Cases.blocked_world (OtherFormat "JPEG") Sample.photo H1 H2 H3 H4 H5)
    as (w' & Hrun & Hstatus & Hout & _).
  exists w'. split; [ exact Hrun | split; [ exact Hstatus | exact Hout ] ].
Defined.

Lemma ready_run_returns_witness :
  let args := mkArgs "logo.jpg" true 40 in
  can_run args (fs Sample.stale_world) = true /\
  exists w',
    sample_main args Sample.stale_world = (w', Ok tt) /\
    exit_status (snd (sample_main args Sample.stale_world)) = 0 /\
    stdout w' = ["building"; "Wrote icons to src-tauri/icons"] /\
    forall p, In p output_paths ->
      exists im, files (fs w') !! p = Some (ImageFile PNG im).
Proof.
  intros args.
  assert (Hcan : can_run args (fs Sample.stale_world) = true) by (vm_compute; reflexivity).
  split; [ exact Hcan | ].
  exact (ready_run_returns Sample.nearest Sample.cross args Sample.stale_world Hcan).
Defined.


Lemma every_run_is_confined_witness :
  let args := mkArgs "logo.jpg" false 0 in
  let run := sample_main args Cases.blocked_world in
  run = (fst run, snd run) /\
  (forall p, ~ In p output_paths ->
             files (fs (fst run)) !! p = files (fs Cases.blocked_world) !! p) /\
  (forall p, fs_isdir (fs Cases.blocked_world) p = true -> fs_isdir (fs (fst run)) p = true).
Proof.
  intros args run.
  assert (Hrun : run = (fst run, snd run)) by (by destruct run).
  split; [ exact Hrun | ].
  destruct (every_run_is_confined Sample.nearest Sample.cross args Cases.blocked_world
              (fst run) (snd run) Hrun) as (Hother & _ & Hdirs & _).
  split; [ exact Hother | exact Hdirs ].
Defined.

Lemma source_among_outputs_is_replaced_witness :
  let args := mkArgs "src-tauri/icons/icon.png" false 0 in
  can_run args (fs Cases.rebuilt_world) = true /\
  In (src args) output_paths /\
  exists w' fmt source im,
    sample_main args Cases.rebuilt_world = (w', Ok tt) /\
    files (fs Cases.rebuilt_world) !! src args = Some (ImageFile fmt source) /\
    In (src args, ImageFile PNG im) (outputs Sample.nearest Sample.cross args source) /\
    files (fs w') !! src args = Some (ImageFile PNG im).
Proof.
  intros args.
  assert (Hcan : can_run args (fs Cases.rebuilt_world) = true) by (vm_compute; reflexivity).
  assert (Hsrc : In (src args) output_paths) by (simpl; tauto).
  split; [ exact Hcan | split; [ exact Hsrc | ] ].
  exact (source_among_outputs_is_replaced Sample.nearest Sample.cross args
           Cases.rebuilt_world Hcan Hsrc).
Defined.
